(** * myshell: tokenizer, argument vector, executors and driver loop

    A shallow embedding of [myshell.cpp].  Strings are lists of characters
    ([std::string] has no terminator and may hold any byte), the descriptor
    table of a process is a list indexed by descriptor number, and the code
    that issues system calls runs in a small state monad over the state of
    one process, whose control part records [return], [exit], a successful
    [execvp] and a [wait] that never comes back. *)

From Stdlib Require Import Ascii String List Bool Arith Lia ZArith Permutation.
Import ListNotations.

Set Implicit Arguments.

(** ** Strings *)

Definition str := list ascii.

Definition lit (s : string) : str := list_ascii_of_string s.

Definition str_eqb (a b : str) : bool :=
  if list_eq_dec ascii_dec a b then true else false.

(** ** The tokenizer: [split] *)

Module Tokenizer.

(** [std::getline(stream, token, delimiter)] on a stream whose unread part is
    [s]: characters are moved to the token up to the first delimiter, which
    is consumed and dropped, or up to the end of the stream. *)
Fixpoint read_until (delimiter : ascii) (s : str) : str * str :=
  match s with
  | [] => ([], [])
  | c :: s' =>
      if Ascii.eqb c delimiter then ([], s')
      else let (token, rest) := read_until delimiter s' in (c :: token, rest)
  end.

(** The call fails (the [while] condition is false) exactly when nothing at
    all could be extracted, that is when the stream is already at its end. *)
Definition getline (s : str) (delimiter : ascii) : option (str * str) :=
  match s with
  | [] => None
  | _ :: _ => Some (read_until delimiter s)
  end.

Definition member (c : ascii) (chars : str) : bool :=
  existsb (Ascii.eqb c) chars.

(** [token.find_first_not_of(chars)]; [None] is [string::npos]. *)
Fixpoint find_first_not_of (token chars : str) : option nat :=
  match token with
  | [] => None
  | c :: t =>
      if member c chars then option_map S (find_first_not_of t chars)
      else Some 0
  end.

(** [token.find_last_not_of(chars)]. *)
Fixpoint find_last_not_of (token chars : str) : option nat :=
  match token with
  | [] => None
  | c :: t =>
      match find_last_not_of t chars with
      | Some k => Some (S k)
      | None => if member c chars then None else Some 0
      end
  end.

(** [token.substr(pos, count)] for [pos <= token.size()]. *)
Definition substr (token : str) (pos count : nat) : str :=
  firstn count (skipn pos token).

Definition blanks : str := lit " 	".

(** The body of the [while] loop: [None] is the [continue] of an all-blank
    piece, [Some t] the token pushed onto [tokens]. *)
Definition trimmed (token : str) : option str :=
  match find_first_not_of token blanks with
  | None => None
  | Some first =>
      let last := match find_last_not_of token blanks with
                  | Some l => l
                  | None => 0
                  end in
      Some (substr token first (last - first + 1))
  end.

(** The [while (getline(...))] loop.  Every successful [getline] consumes at
    least one character, so the loop runs at most [length s] times; [fuel]
    only makes the recursion structural (see [split_loop_fuel]). *)
Fixpoint split_loop (fuel : nat) (stream : str) (delimiter : ascii)
    (tokens : list str) : list str :=
  match fuel with
  | 0 => tokens
  | S fuel' =>
      match getline stream delimiter with
      | None => tokens
      | Some (token, stream') =>
          match trimmed token with
          | None => split_loop fuel' stream' delimiter tokens
          | Some t => split_loop fuel' stream' delimiter (tokens ++ [t])
          end
      end
  end.

Definition split (s : str) (delimiter : ascii) : list str :=
  split_loop (S (length s)) s delimiter [].

(** *** The reading of the tokenizer in the specification

    "Splits [line] on every occurrence of [delimiter]; each resulting
    substring is trimmed of leading/trailing space and horizontal tab;
    substrings that are empty after trimming are dropped." *)

(** [k] delimiters cut the line into [k + 1] substrings (the list is
    never empty). *)
Fixpoint pieces (delimiter : ascii) (s : str) : list str :=
  match s with
  | [] => [[]]
  | c :: s' =>
      if Ascii.eqb c delimiter then [] :: pieces delimiter s'
      else match pieces delimiter s' with
           | [] => [[c]]
           | p :: ps => (c :: p) :: ps
           end
  end.

Definition is_blank (c : ascii) : bool :=
  Ascii.eqb c " "%char || Ascii.eqb c "009"%char.

Fixpoint trim_left (s : str) : str :=
  match s with
  | [] => []
  | c :: s' => if is_blank c then trim_left s' else s
  end.

Fixpoint trim_right (s : str) : str :=
  match s with
  | [] => []
  | c :: s' =>
      match trim_right s' with
      | [] => if is_blank c then [] else [c]
      | r => c :: r
      end
  end.

Definition trim (s : str) : str := trim_right (trim_left s).

Definition nonempty (s : str) : bool :=
  match s with [] => false | _ :: _ => true end.

Definition tokenize_spec (line : str) (delimiter : ascii) : list str :=
  filter nonempty (map (fun p => trim p) (pieces delimiter line)).

(** The re-serialization of the idempotence property, of which the source
    has no counterpart: the tokens in order, with one delimiter between
    neighbours. *)
Fixpoint tokenize_to_string (delimiter : ascii) (tokens : list str) : str :=
  match tokens with
  | [] => []
  | [t] => t
  | t :: ts => t ++ delimiter :: tokenize_to_string delimiter ts
  end.

(** What the data model asks of a token. *)
Definition first_char (t : str) : option ascii := hd_error t.
Fixpoint last_char (t : str) : option ascii :=
  match t with
  | [] => None
  | c :: t' => match t' with [] => Some c | _ :: _ => last_char t' end
  end.

Definition not_blank_opt (o : option ascii) : Prop :=
  match o with Some c => is_blank c = false | None => False end.

Record token_ok (delimiter : ascii) (t : str) : Prop := {
  tok_nonempty : t <> [];
  tok_first : not_blank_opt (first_char t);
  tok_last : not_blank_opt (last_char t);
  tok_no_delim : ~ In delimiter t
}.

End Tokenizer.

(** ** Processes and system calls *)

Module Sys.

(** What a descriptor refers to: something the interpreter was started with,
    or one end of the channel number [c]. *)
Inductive file :=
| Inherited (n : nat)
| PipeRead (c : nat)
| PipeWrite (c : nat).

(** The descriptor table of a process, indexed by descriptor number; [None]
    and everything past the end is a closed descriptor. *)
Definition fdtable := list (option file).

Definition fd_get (t : fdtable) (fd : nat) : option file := nth fd t None.

Fixpoint fd_put (t : fdtable) (fd : nat) (v : option file) : fdtable :=
  match fd, t with
  | 0, [] => [v]
  | 0, _ :: t' => v :: t'
  | S fd', [] => None :: fd_put [] fd' v
  | S fd', x :: t' => x :: fd_put t' fd' v
  end.

(** A new descriptor is the lowest-numbered one that is not open. *)
Fixpoint lowest_free (t : fdtable) : nat :=
  match t with
  | [] => 0
  | None :: _ => 0
  | Some _ :: t' => S (lowest_free t')
  end.

Definition STDIN_FILENO := 0.
Definition STDOUT_FILENO := 1.
Definition EXIT_FAILURE := 1%Z.

(** The system calls of one process, in the order it made them, each with
    its result. *)
Inductive event :=
| EvPrompt
| EvPipe (r w : nat)
| EvPipeFailed
| EvFork (pid : nat)
| EvForkFailed
| EvDup2 (oldfd newfd : nat) (ok : bool)
| EvClose (fd : nat) (ok : bool)
| EvExecvp (argv : list str) (ok : bool)
| EvPerror (msg : string)
| EvExit (code : Z)
| EvReaped (pid : nat)
| EvNoChild.

(** Where control is after a piece of code. *)
Inductive ctl (A : Type) :=
| Normal (a : A)            (* falls through to the next statement *)
| Returned                  (* [return;] *)
| Exited (code : Z)         (* [exit(code)] *)
| Replaced (argv : list str) (* [execvp] succeeded: another program runs *)
| Blocked                   (* a wait that never comes back *)
| Undefined.                (* behaviour the language does not define *)

Arguments Normal {A} a.
Arguments Returned {A}.
Arguments Exited {A} code.
Arguments Replaced {A} argv.
Arguments Blocked {A}.
Arguments Undefined {A}.

(** A child as its parent's run leaves it: how its own code ended, with
    which descriptor table and after which system calls. *)
Record child := {
  c_pid : nat;
  c_end : ctl unit;
  c_fds : fdtable;
  c_trace : list event
}.

Record proc := {
  fds : fdtable;
  trace : list event;
  unreaped : list (nat * bool); (* children not waited for; will it terminate *)
  spawned : list child;         (* every child forked so far, oldest first *)
  next_pid : nat;
  next_chan : nat
}.

Definition set_fds (t : fdtable) (p : proc) : proc :=
  {| fds := t; trace := trace p; unreaped := unreaped p;
     spawned := spawned p; next_pid := next_pid p; next_chan := next_chan p |}.

Definition log (e : event) (p : proc) : proc :=
  {| fds := fds p; trace := trace p ++ [e]; unreaped := unreaped p;
     spawned := spawned p; next_pid := next_pid p; next_chan := next_chan p |}.

Definition set_unreaped (u : list (nat * bool)) (p : proc) : proc :=
  {| fds := fds p; trace := trace p; unreaped := u;
     spawned := spawned p; next_pid := next_pid p; next_chan := next_chan p |}.

(** What the environment decides during one call of an executor; the index
    is the loop index at the call ([0] in the single-command executor). *)
Record env := {
  pipe_ok : nat -> bool;     (* [pipe] of channel [i] succeeds *)
  fork_ok : nat -> bool;     (* [fork] of stage [i] succeeds *)
  dup_in_ok : nat -> bool;   (* [dup2] onto standard input in stage [i] *)
  dup_out_ok : nat -> bool;  (* [dup2] onto standard output in stage [i] *)
  exec_ok : nat -> bool;     (* [execvp] of stage [i] succeeds *)
  halts : nat -> bool;       (* the program of stage [i] terminates *)
  pick : list nat -> nat     (* which terminated child [wait] reports *)
}.

(** *** The monad of one process *)

Definition M (A : Type) := proc -> ctl A * proc.

Definition ret {A} (a : A) : M A := fun p => (Normal a, p).

Definition bind {A B} (m : M A) (f : A -> M B) : M B := fun p =>
  match m p with
  | (Normal a, p') => f a p'
  | (Returned, p') => (Returned, p')
  | (Exited c, p') => (Exited c, p')
  | (Replaced argv, p') => (Replaced argv, p')
  | (Blocked, p') => (Blocked, p')
  | (Undefined, p') => (Undefined, p')
  end.

Declare Scope sys_scope.
Delimit Scope sys_scope with sys.
Notation "x <- m ;; k" := (bind m (fun x => k))
  (at level 61, m at next level, right associativity) : sys_scope.
Notation "m ;; k" := (bind m (fun _ => k))
  (at level 61, right associativity) : sys_scope.
Open Scope sys_scope.

Definition return_ {A} : M A := fun p => (Returned, p).
Definition undefined {A} : M A := fun p => (Undefined, p).

(** The end of a function body: a [return] inside it is where the caller
    goes on. *)
Definition call (body : M unit) : M unit := fun p =>
  match body p with
  | (Returned, p') => (Normal tt, p')
  | r => r
  end.

Definition when (c : bool) (m : M unit) : M unit := if c then m else ret tt.

(** [for (int i = lo; i < lo + n; i++) body(i)]. *)
Fixpoint for_ (n i : nat) (body : nat -> M unit) : M unit :=
  match n with
  | 0 => ret tt
  | S n' => body i ;; for_ n' (S i) body
  end.

(** *** System calls *)

Definition emit (e : event) : M unit := fun p => (Normal tt, log e p).

Definition prompt : M unit := emit EvPrompt.

Definition perror (msg : string) : M unit := emit (EvPerror msg).

(** Termination releases every descriptor of the process. *)
Definition exit {A} (code : Z) : M A := fun p =>
  (Exited code, set_fds [] (log (EvExit code) p)).

Definition pipe (ok : bool) : M (option (nat * nat)) := fun p =>
  if ok then
    let c := next_chan p in
    let r := lowest_free (fds p) in
    let t1 := fd_put (fds p) r (Some (PipeRead c)) in
    let w := lowest_free t1 in
    let t2 := fd_put t1 w (Some (PipeWrite c)) in
    (Normal (Some (r, w)),
     {| fds := t2; trace := trace p ++ [EvPipe r w]; unreaped := unreaped p;
        spawned := spawned p; next_pid := next_pid p; next_chan := S c |})
  else (Normal None, log EvPipeFailed p).

(** [dup2(oldfd, newfd)] makes [newfd] refer to what [oldfd] refers to; it
    needs [oldfd] open. *)
Definition dup2 (ok : bool) (oldfd newfd : nat) : M bool := fun p =>
  match fd_get (fds p) oldfd with
  | Some f =>
      if ok then
        (Normal true,
         set_fds (fd_put (fds p) newfd (Some f)) (log (EvDup2 oldfd newfd true) p))
      else (Normal false, log (EvDup2 oldfd newfd false) p)
  | None => (Normal false, log (EvDup2 oldfd newfd false) p)
  end.

(** [close(fd)] fails on a descriptor that is not open. *)
Definition close (fd : nat) : M unit := fun p =>
  match fd_get (fds p) fd with
  | Some _ =>
      (Normal tt, set_fds (fd_put (fds p) fd None) (log (EvClose fd true) p))
  | None => (Normal tt, log (EvClose fd false) p)
  end.

(** [execvp(args[0], args)] with the strings of [args] up to its null
    entry; no program name at all is a null pointer handed to [execvp]. *)
Definition execvp (ok : bool) (argv : list str) : M unit := fun p =>
  match argv with
  | [] => (Undefined, p)
  | _ :: _ =>
      if ok then (Replaced argv, log (EvExecvp argv true) p)
      else (Normal tt, log (EvExecvp argv false) p)
  end.

(** A child that leaves by [exit] has terminated; one that runs another
    program terminates when that program does. *)
Definition terminates {A} (r : ctl A) (program_halts : bool) : bool :=
  match r with
  | Exited _ => true
  | _ => program_halts
  end.

(** [fork()]: the child starts with a copy of the descriptor table and no
    children of its own, and runs [in_child], the branch [pid == 0].  It
    makes neither channels nor processes in this program, so its two
    counters are never read. *)
Definition child_start (t : fdtable) : proc :=
  {| fds := t; trace := []; unreaped := []; spawned := [];
     next_pid := 0; next_chan := 0 |}.

Definition run_child (pid : nat) (in_child : M unit) (t : fdtable) : child :=
  let (r, q) := in_child (child_start t) in
  {| c_pid := pid; c_end := r; c_fds := fds q; c_trace := trace q |}.

Definition fork (ok program_halts : bool) (in_child : M unit)
  : M (option nat) := fun p =>
  if ok then
    let pid := next_pid p in
    let c := run_child pid in_child (fds p) in
    (Normal (Some pid),
     {| fds := fds p; trace := trace p ++ [EvFork pid];
        unreaped := unreaped p ++ [(pid, terminates (c_end c) program_halts)];
        spawned := spawned p ++ [c];
        next_pid := S pid; next_chan := next_chan p |})
  else (Normal None, log EvForkFailed p).

Definition remove_pid (pid : nat) (u : list (nat * bool)) : list (nat * bool) :=
  filter (fun c => negb (Nat.eqb (fst c) pid)) u.

(** [waitpid(pid, &status, 0)]. *)
Definition waitpid (pid : nat) : M unit := fun p =>
  match find (fun c => Nat.eqb (fst c) pid) (unreaped p) with
  | Some (_, true) =>
      (Normal tt, set_unreaped (remove_pid pid (unreaped p)) (log (EvReaped pid) p))
  | Some (_, false) => (Blocked, p)
  | None => (Normal tt, log EvNoChild p)
  end.

(** [wait(NULL)]: any child that has terminated; without children the call
    fails at once, with children none of which terminates it never
    returns. *)
Definition wait (choose : list nat -> nat) : M unit := fun p =>
  match unreaped p with
  | [] => (Normal tt, log EvNoChild p)
  | _ :: _ =>
      let done := map fst (filter snd (unreaped p)) in
      match done with
      | [] => (Blocked, p)
      | d :: _ =>
          let pid := nth (choose done mod length done) done d in
          (Normal tt,
           set_unreaped (remove_pid pid (unreaped p)) (log (EvReaped pid) p))
      end
  end.

End Sys.

(** ** The interpreter *)

Module Shell.
Import Tokenizer Sys.

Definition MAX_ARGS := 64.

(** An entry of [char *args[MAX_ARGS]]: not yet written, a pointer to the
    characters of a token, or the null pointer. *)
Inductive slot :=
| Garbage
| Arg (s : str)
| Null.

(** [parts[i].c_str()] read as a C string: the characters before the first
    zero byte. *)
Fixpoint c_str (s : str) : str :=
  match s with
  | [] => []
  | c :: s' => if Ascii.eqb c zero then [] else c :: c_str s'
  end.

(** [args[i] = v]; [None] is a store outside the array. *)
Definition store (args : list slot) (i : nat) (v : slot)
  : option (list slot) :=
  if i <? length args then Some (firstn i args ++ v :: skipn (S i) args)
  else None.

(** The [for] loop of [get_args], from index [i] on. *)
Fixpoint get_args_loop (parts : list str) (i : nat) (args : list slot)
  : option (list slot) :=
  match parts with
  | [] => Some args
  | part :: parts' =>
      match store args i (Arg (c_str part)) with
      | Some args' => get_args_loop parts' (S i) args'
      | None => None
      end
  end.

Definition get_args (parts : list str) (args : list slot)
  : option (list slot) :=
  match get_args_loop parts 0 args with
  | Some args' => store args' (length parts) Null
  | None => None
  end.

(** The argument vector [execvp] reads from the array: the strings up to
    the first null entry; [None] when it runs into an unwritten entry or
    off the end first. *)
Fixpoint argv_of (args : list slot) : option (list str) :=
  match args with
  | [] => None
  | Garbage :: _ => None
  | Null :: _ => Some []
  | Arg s :: rest => option_map (cons s) (argv_of rest)
  end.

(** The common end of both child branches:
    [char *args[MAX_ARGS]; get_args(tokens, args); execvp(args[0], args);
     perror("Execvp failed"); exit(EXIT_FAILURE);]. *)
Definition exec_tokens (ok : bool) (tokens : list str) : M unit :=
  match get_args tokens (repeat Garbage MAX_ARGS) with
  | None => undefined
  | Some args =>
      match argv_of args with
      | None => undefined
      | Some argv =>
          execvp ok argv ;;
          perror "Execvp failed" ;;
          exit EXIT_FAILURE
      end
  end.

Definition quit : str := lit "quit".

Definition execute_command (e : env) (cmd_tokens : list str) : M unit :=
  call (
    when (Nat.eqb (length cmd_tokens) 0) return_ ;;
    when (str_eqb (nth 0 cmd_tokens []) quit) (exit 0) ;;
    pid <- fork (fork_ok e 0) (halts e 0)
             (exec_tokens (exec_ok e 0) cmd_tokens) ;;
    match pid with
    | None => perror "Fork failed" ;; return_
    | Some pid => waitpid pid
    end).

(** The first loop of [execute_pipeline].  [pipefds] is filled from the
    front, two entries per channel, so appending the pair is the store at
    [pipefds + i * 2]. *)
Fixpoint create_pipes (e : env) (n i : nat) (pipefds : list nat)
  : M (list nat) :=
  match n with
  | 0 => ret pipefds
  | S n' =>
      r <- pipe (pipe_ok e i) ;;
      match r with
      | None => perror "Pipe failed" ;; return_
      | Some (rd, wr) => create_pipes e n' (S i) (pipefds ++ [rd; wr])
      end
  end.

Definition close_all (pipefds : list nat) (num_cmds : nat) : M unit :=
  for_ (2 * (num_cmds - 1)) 0 (fun k => close (nth k pipefds 0)).

(** The branch [pid == 0] of stage [i]. *)
Definition pipeline_child (e : env) (commands : list str)
    (pipefds : list nat) (num_cmds i : nat) : M unit :=
  when (0 <? i) (
    ok <- dup2 (dup_in_ok e i) (nth ((i - 1) * 2) pipefds 0) STDIN_FILENO ;;
    when (negb ok) (perror "dup2 stdin failed" ;; exit EXIT_FAILURE)) ;;
  when (i <? num_cmds - 1) (
    ok <- dup2 (dup_out_ok e i) (nth (i * 2 + 1) pipefds 0) STDOUT_FILENO ;;
    when (negb ok) (perror "dup2 stdout failed" ;; exit EXIT_FAILURE)) ;;
  close_all pipefds num_cmds ;;
  exec_tokens (exec_ok e i) (split (nth i commands []) " ").

Definition spawn_stage (e : env) (commands : list str)
    (pipefds : list nat) (num_cmds i : nat) : M unit :=
  pid <- fork (fork_ok e i) (halts e i)
           (pipeline_child e commands pipefds num_cmds i) ;;
  match pid with
  | None => perror "Fork failed" ;; return_
  | Some _ => ret tt
  end.

(** [int pipefds[2 * (num_cmds - 1)]] has no defined meaning for an empty
    vector of commands (a negative length); the driver never passes fewer
    than two. *)
Definition execute_pipeline (e : env) (commands : list str) : M unit :=
  call (
    let num_cmds := length commands in
    when (Nat.eqb num_cmds 0) undefined ;;
    pipefds <- create_pipes e (num_cmds - 1) 0 [] ;;
    for_ num_cmds 0 (spawn_stage e commands pipefds num_cmds) ;;
    close_all pipefds num_cmds ;;
    for_ num_cmds 0 (fun _ => wait (pick e))).

(** One turn of the [while (true)] loop of [main]; the turn [None] is a
    failed [getline] (end of input). *)
Inductive signal := Continue | Break.

Definition main_body (turn : option (str * env)) : M signal :=
  prompt ;;
  match turn with
  | None => ret Break
  | Some (input, e) =>
      if Nat.eqb (length input) 0 then ret Continue
      else if str_eqb input quit then ret Break
      else
        let commands := split input "|" in
        if Nat.eqb (length commands) 0 then ret Continue
        else
          (if Nat.eqb (length commands) 1
           then execute_command e (split (nth 0 commands []) " ")
           else execute_pipeline e commands) ;;
          ret Continue
  end.

(** [main] on the lines of the input, each with what the environment does
    while it is executed; after the last line [getline] fails.  The value
    is the exit status [main] returns. *)
Fixpoint main (input : list (str * env)) : M Z :=
  match input with
  | [] => main_body None ;; ret 0%Z
  | turn :: rest =>
      s <- main_body (Some turn) ;;
      match s with
      | Break => ret 0%Z
      | Continue => main rest
      end
  end.

(** An interpreter started from a terminal: the three standard streams
    open, nothing logged, no children. *)
Definition boot : proc :=
  {| fds := [Some (Inherited 0); Some (Inherited 1); Some (Inherited 2)];
     trace := []; unreaped := []; spawned := [];
     next_pid := 1; next_chan := 0 |}.

(** An environment in which every call succeeds and every program ends. *)
Definition fair : env :=
  {| pipe_ok := fun _ => true; fork_ok := fun _ => true;
     dup_in_ok := fun _ => true; dup_out_ok := fun _ => true;
     exec_ok := fun _ => true; halts := fun _ => true;
     pick := fun _ => 0 |}.

(** Environments in which one call fails, or one program runs for ever. *)
Definition fork_fails_at (i : nat) : env :=
  {| pipe_ok := fun _ => true; fork_ok := fun j => negb (Nat.eqb j i);
     dup_in_ok := fun _ => true; dup_out_ok := fun _ => true;
     exec_ok := fun _ => true; halts := fun _ => true;
     pick := fun _ => 0 |}.

Definition pipe_fails_at (k : nat) : env :=
  {| pipe_ok := fun j => negb (Nat.eqb j k); fork_ok := fun _ => true;
     dup_in_ok := fun _ => true; dup_out_ok := fun _ => true;
     exec_ok := fun _ => true; halts := fun _ => true;
     pick := fun _ => 0 |}.

Definition never_halting : env :=
  {| pipe_ok := fun _ => true; fork_ok := fun _ => true;
     dup_in_ok := fun _ => true; dup_out_ok := fun _ => true;
     exec_ok := fun _ => true; halts := fun _ => false;
     pick := fun _ => 0 |}.

(** An environment in which no program can be executed: every [execvp]
    fails. *)
Definition exec_fails : env :=
  {| pipe_ok := fun _ => true; fork_ok := fun _ => true;
     dup_in_ok := fun _ => true; dup_out_ok := fun _ => true;
     exec_ok := fun _ => false; halts := fun _ => true;
     pick := fun _ => 0 |}.

End Shell.

(** ** Notions used to state and prove the properties *)

Module Props.
Import Tokenizer Sys Shell.

(** Closing a list of descriptors, one after the other. *)
Definition close_fds (l : list nat) (t : fdtable) : fdtable :=
  fold_left (fun t fd => fd_put t fd None) l t.

(** A property of the final state that holds whatever way control leaves:
    [R] relates the state before to the state after. *)
Definition stable (R : proc -> proc -> Prop) {A} (m : M A) : Prop :=
  forall p, R p (snd (m p)).

(** How control can leave the code of the interpreter itself. *)
Definition stays {A} (r : ctl A) : Prop :=
  match r with
  | Normal _ | Returned | Blocked => True
  | Exited _ | Replaced _ | Undefined => False
  end.

Definition staying {A} (m : M A) : Prop := forall p, stays (fst (m p)).

(** The trace only grows, and by events of the class [Q]. *)
Definition adds (Q : event -> Prop) (p p' : proc) : Prop :=
  exists evs, trace p' = trace p ++ evs /\ Forall Q evs.

(** The events of the allocation loop that filled [pipefds]. *)
Fixpoint pipe_events (pipefds : list nat) : list event :=
  match pipefds with
  | r :: w :: rest => EvPipe r w :: pipe_events rest
  | _ => []
  end.

(** The ends of the channels [c], [c + 1], ..., [c + k - 1] in the order of
    [pipefds]: read end, then write end. *)
Definition ends (c k : nat) : list file :=
  flat_map (fun j => [PipeRead j; PipeWrite j]) (seq c k).

(** [new] are the descriptors of [k] channels made one after the other in
    the process [p], which is [p1] afterwards. *)
Record allocated (k : nat) (p : proc) (new : list nat) (p1 : proc) : Prop := {
  al_length : length new = 2 * k;
  al_nodup : NoDup new;
  al_fresh : Forall (fun fd => fd_get (fds p) fd = None) new;
  al_wired : map (fd_get (fds p1)) new = map Some (ends (next_chan p) k);
  al_frame : forall fd, ~ In fd new -> fd_get (fds p1) fd = fd_get (fds p) fd;
  al_trace : trace p1 = trace p ++ pipe_events new;
  al_unreaped : unreaped p1 = unreaped p;
  al_spawned : spawned p1 = spawned p;
  al_next_pid : next_pid p1 = next_pid p;
  al_next_chan : next_chan p1 = next_chan p + k
}.

(** The children of [k] stages forked one after the other from stage [i]
    on, the first with process number [pid], all from a parent whose
    descriptor table is [t]. *)
Fixpoint kids (e : env) (commands : list str) (pipefds : list nat)
    (num_cmds : nat) (t : fdtable) (k i pid : nat) : list child :=
  match k with
  | 0 => []
  | S k' =>
      run_child pid (pipeline_child e commands pipefds num_cmds i) t
      :: kids e commands pipefds num_cmds t k' (S i) (S pid)
  end.

Fixpoint kids_halt (e : env) (cs : list child) (i : nat)
  : list (nat * bool) :=
  match cs with
  | [] => []
  | c :: cs' =>
      (c_pid c, terminates (c_end c) (halts e i)) :: kids_halt e cs' (S i)
  end.

(** The process after [k] successful forks of the spawning loop, from
    stage [i] on. *)
Definition forked (e : env) (commands : list str) (pipefds : list nat)
    (num_cmds k i : nat) (p : proc) : proc :=
  let cs := kids e commands pipefds num_cmds (fds p) k i (next_pid p) in
  {| fds := fds p;
     trace := trace p ++ map (fun c => EvFork (c_pid c)) cs;
     unreaped := unreaped p ++ kids_halt e cs i;
     spawned := spawned p ++ cs;
     next_pid := next_pid p + k;
     next_chan := next_chan p |}.

(** The process after closing the open descriptors [l] in turn. *)
Definition closed (l : list nat) (p : proc) : proc :=
  {| fds := close_fds l (fds p);
     trace := trace p ++ map (fun fd => EvClose fd true) l;
     unreaped := unreaped p; spawned := spawned p;
     next_pid := next_pid p; next_chan := next_chan p |}.

(** The descriptors stage [i] duplicates. *)
Definition stdin_fd (pipefds : list nat) (i : nat) : nat :=
  nth ((i - 1) * 2) pipefds 0.

Definition stdout_fd (pipefds : list nat) (i : nat) : nat :=
  nth (i * 2 + 1) pipefds 0.

(** The process after a successful [dup2(oldfd, newfd)]. *)
Definition after_dup (oldfd newfd : nat) (p : proc) : proc :=
  set_fds (fd_put (fds p) newfd (fd_get (fds p) oldfd))
    (log (EvDup2 oldfd newfd true) p).

(** The child of stage [i] after its redirections, both successful. *)
Definition redirected (pipefds : list nat) (num_cmds i : nat) (q : proc)
  : proc :=
  let q1 := if 0 <? i then after_dup (stdin_fd pipefds i) STDIN_FILENO q
            else q in
  if i <? num_cmds - 1 then after_dup (stdout_fd pipefds i) STDOUT_FILENO q1
  else q1.

(** The process after a failed [dup2], the report and [exit]. *)
Definition dup_failed (oldfd newfd : nat) (msg : string) (q : proc) : proc :=
  set_fds [] (log (EvExit EXIT_FAILURE)
                (log (EvPerror msg) (log (EvDup2 oldfd newfd false) q))).

(** What a wait leaves alone. *)
Definition same_files (p p' : proc) : Prop :=
  fds p' = fds p /\ spawned p' = spawned p.

(** The parent's descriptors are not touched by running one command. *)
Definition same_fds (p p' : proc) : Prop := fds p' = fds p.

(** The line is a single command whose first token is [quit]. *)
Definition quit_line (input : str) : bool :=
  match split input "|" with
  | [command] =>
      match split command " " with
      | t :: _ => str_eqb t quit
      | [] => false
      end
  | _ => false
  end.

(** Every child not yet waited for terminates. *)
Definition all_terminate (p : proc) : Prop :=
  forall c, In c (unreaped p) -> snd c = true.

Definition opened (t : fdtable) (fd : nat) : Prop := fd_get t fd <> None.

Definition is_dup2 (ev : event) : Prop :=
  match ev with EvDup2 _ _ _ => True | _ => False end.

Definition is_pipe (ev : event) : Prop :=
  match ev with EvPipe _ _ => True | _ => False end.

Definition is_fork (ev : event) : Prop :=
  match ev with EvFork _ => True | _ => False end.

Definition is_close (ev : event) : Prop :=
  match ev with EvClose _ _ => True | _ => False end.

Definition is_reap (ev : event) : Prop :=
  match ev with EvReaped _ | EvNoChild => True | _ => False end.

Definition is_exit (ev : event) : Prop :=
  match ev with EvExit _ => True | _ => False end.

Definition is_exec (ev : event) : Prop :=
  match ev with EvExecvp _ _ => True | _ => False end.

(** The events of closing every descriptor of [pipefds] with success. *)
Definition close_events (pipefds : list nat) : list event :=
  map (fun fd => EvClose fd true) pipefds.

(** The successful redirections stage [i] has to make. *)
Definition stdin_events (pipefds : list nat) (i : nat) : list event :=
  if 0 <? i then [EvDup2 (stdin_fd pipefds i) STDIN_FILENO true] else [].

Definition stdout_events (pipefds : list nat) (num_cmds i : nat)
  : list event :=
  if i <? num_cmds - 1 then [EvDup2 (stdout_fd pipefds i) STDOUT_FILENO true]
  else [].

(** What the end of a child branch can log. *)
Definition exec_event (argv : list str) (ok : bool) (ev : event) : Prop :=
  ev = EvExecvp argv ok
  \/ ev = EvPerror "Execvp failed" \/ ev = EvExit EXIT_FAILURE.

(** The three ways the code of the child of stage [i] can run, started
    with the descriptor table [t]. *)
Inductive stage_shape (e : env) (pipefds : list nat) (num_cmds i : nat)
    (t : fdtable) (tokens : list str) (c : child) : Prop :=
| StdinFailed :
    0 < i -> dup_in_ok e i = false ->
    c_trace c = [EvDup2 (stdin_fd pipefds i) STDIN_FILENO false;
                 EvPerror "dup2 stdin failed"; EvExit EXIT_FAILURE] ->
    c_end c = Exited EXIT_FAILURE ->
    stage_shape e pipefds num_cmds i t tokens c
| StdoutFailed :
    i = 0 \/ dup_in_ok e i = true ->
    i < num_cmds - 1 -> dup_out_ok e i = false ->
    c_trace c = stdin_events pipefds i
                  ++ [EvDup2 (stdout_fd pipefds i) STDOUT_FILENO false;
                      EvPerror "dup2 stdout failed"; EvExit EXIT_FAILURE] ->
    c_end c = Exited EXIT_FAILURE ->
    stage_shape e pipefds num_cmds i t tokens c
| Redirected (tail : list event) :
    i = 0 \/ dup_in_ok e i = true ->
    num_cmds - 1 <= i \/ dup_out_ok e i = true ->
    c_trace c = stdin_events pipefds i ++ stdout_events pipefds num_cmds i
                  ++ close_events pipefds ++ tail ->
    Forall (exec_event (map c_str tokens) (exec_ok e i)) tail ->
    (forall argv, c_end c = Replaced argv ->
       argv = map c_str tokens
       /\ c_fds c = close_fds pipefds
                      (fds (redirected pipefds num_cmds i (child_start t)))) ->
    (forall code, c_end c = Exited code -> code = EXIT_FAILURE) ->
    stage_shape e pipefds num_cmds i t tokens c.

(** The process once the children [pids] have been waited for, in this
    order, and no other child is left. *)
Definition reaped (pids : list nat) (p : proc) : proc :=
  {| fds := fds p; trace := trace p ++ map EvReaped pids;
     unreaped := []; spawned := spawned p;
     next_pid := next_pid p; next_chan := next_chan p |}.

(** An environment in which no channel and no process is refused and
    every program ends. *)
Definition cooperative (e : env) : Prop :=
  (forall j, pipe_ok e j = true)
  /\ (forall j, fork_ok e j = true)
  /\ (forall j, halts e j = true).

(** [arrives lines p q]: the loop of [main], entered in state [p], reads
    and executes [lines] one after the other, every turn coming back to
    the top of the loop, and is there in state [q] after the last. *)
Inductive arrives : list (str * env) -> proc -> proc -> Prop :=
| arrives_nil p : arrives [] p p
| arrives_cons line e lines p q q' :
    main_body (Some (line, e)) p = (Normal Continue, q) ->
    arrives lines q q' ->
    arrives ((line, e) :: lines) p q'.

(** Children that all end are followed by children that all end. *)
Definition keeps_terminating (p p' : proc) : Prop :=
  all_terminate p -> all_terminate p'.

End Props.

(** ** Facts about strings and the tokenizer *)

Lemma str_eqb_eq (a b : str) : str_eqb a b = true <-> a = b.
Proof.
  unfold str_eqb. destruct (list_eq_dec ascii_dec a b); split; congruence.
Qed.

Lemma str_eqb_refl (a : str) : str_eqb a a = true.
Proof. now apply str_eqb_eq. Qed.

Module TokenizerFacts.
Import Tokenizer.

(** *** Reading one piece *)

Lemma read_until_length delimiter s :
  length (snd (read_until delimiter s)) <= pred (length s).
Proof.
  induction s as [|c s IH]; simpl; [lia|].
  destruct (Ascii.eqb c delimiter); simpl; [lia|].
  destruct (read_until delimiter s) as [token rest]; simpl in *.
  destruct s; simpl in *; lia.
Qed.

Lemma read_until_pieces delimiter s :
  let (token, rest) := read_until delimiter s in
  pieces delimiter s = token :: pieces delimiter rest
  \/ (pieces delimiter s = [token] /\ rest = []).
Proof.
  induction s as [|c s IH]; simpl.
  - right; auto.
  - destruct (Ascii.eqb c delimiter); [left; reflexivity|].
    destruct (read_until delimiter s) as [token rest].
    destruct IH as [-> | [-> ->]]; [left | right]; auto.
Qed.

Lemma pieces_no_delim delimiter s :
  Forall (fun p => ~ In delimiter p) (pieces delimiter s).
Proof.
  induction s as [|c s IH]; simpl.
  - constructor; auto.
  - destruct (Ascii.eqb_spec c delimiter) as [->|Hne].
    + constructor; auto.
    + destruct (pieces delimiter s) as [|p ps]; inversion IH; subst;
        constructor; auto; simpl; intuition congruence.
Qed.

Lemma pieces_app_delim delimiter t rest :
  ~ In delimiter t ->
  pieces delimiter (t ++ delimiter :: rest) = t :: pieces delimiter rest.
Proof.
  induction t as [|c t IH]; simpl; intros Hn.
  - now rewrite Ascii.eqb_refl.
  - destruct (Ascii.eqb_spec c delimiter) as [->|_]; [tauto|].
    rewrite IH; tauto.
Qed.

Lemma pieces_single delimiter t :
  ~ In delimiter t -> pieces delimiter t = [t].
Proof.
  induction t as [|c t IH]; simpl; intros Hn; auto.
  destruct (Ascii.eqb_spec c delimiter) as [->|_]; [tauto|].
  rewrite IH; tauto.
Qed.

(** *** Trimming with the string searches is trimming *)

Lemma member_blanks c : member c blanks = is_blank c.
Proof. unfold member, is_blank; simpl. now rewrite orb_false_r. Qed.

Lemma find_first_trim_left token :
  match find_first_not_of token blanks with
  | None => trim_left token = []
  | Some first => skipn first token = trim_left token /\ trim_left token <> []
  end.
Proof.
  induction token as [|c t IH]; cbn [find_first_not_of trim_left]; auto.
  rewrite member_blanks. destruct (is_blank c); cbn [option_map skipn].
  - destruct (find_first_not_of t blanks); cbn [option_map skipn]; auto.
  - split; [reflexivity | discriminate].
Qed.

Lemma find_last_trim_right token :
  match find_last_not_of token blanks with
  | None => trim_right token = []
  | Some last => firstn (S last) token = trim_right token
                 /\ trim_right token <> []
  end.
Proof.
  induction token as [|c t IH]; cbn [find_last_not_of trim_right]; auto.
  rewrite member_blanks.
  destruct (find_last_not_of t blanks) as [k|].
  - destruct IH as [IH Hne]. cbn [firstn] in *. rewrite IH.
    destruct (trim_right t); [congruence | split; [reflexivity | discriminate]].
  - rewrite IH. destruct (is_blank c); auto.
    split; [now destruct t | discriminate].
Qed.

Lemma find_last_skipn token first :
  skipn first token <> [] ->
  trim_left token = skipn first token ->
  match find_last_not_of token blanks with
  | Some last => find_last_not_of (skipn first token) blanks = Some (last - first)
                 /\ first <= last
  | None => True
  end.
Proof.
  revert first; induction token as [|c t IH]; intros first Hne Htl;
    cbn [find_last_not_of]; auto.
  destruct first as [|first].
  - cbn [skipn find_last_not_of].
    destruct (find_last_not_of t blanks) as [k|].
    + split; [f_equal; lia | lia].
    + destruct (member c blanks); auto.
  - cbn [skipn trim_left] in *. destruct (is_blank c) eqn:Hb.
    + specialize (IH first Hne Htl).
      destruct (find_last_not_of t blanks) as [k|].
      * destruct IH; split; [assumption | lia].
      * now rewrite member_blanks, Hb.
    + exfalso. assert (length (c :: t) = length (skipn first t)) by now rewrite Htl.
      simpl in H. rewrite length_skipn in H. lia.
Qed.

Lemma trim_left_trim_right_nil s : trim_left s = [] -> trim_right s = [].
Proof.
  induction s as [|c s IH]; simpl; auto.
  destruct (is_blank c); [|discriminate]. intros H. now rewrite IH.
Qed.

Lemma trim_right_trim_left_nonnil s : trim_left s <> [] -> trim_right s <> [].
Proof.
  induction s as [|c s IH]; simpl; auto.
  destruct (is_blank c); intros H.
  - specialize (IH H). destruct (trim_right s); [congruence | discriminate].
  - destruct (trim_right s); discriminate.
Qed.

Lemma trimmed_trim token :
  trimmed token = if nonempty (trim token) then Some (trim token) else None.
Proof.
  unfold trimmed, trim, substr.
  pose proof (find_first_trim_left token) as Hf.
  destruct (find_first_not_of token blanks) as [first|].
  - destruct Hf as [Hskip Hne]. rewrite Hskip.
    pose proof (@find_last_skipn token first) as Hl.
    rewrite Hskip in Hl. specialize (Hl Hne eq_refl).
    pose proof (find_last_trim_right token) as Ht.
    destruct (find_last_not_of token blanks) as [last|].
    + destruct Hl as [Hl Hle].
      pose proof (find_last_trim_right (trim_left token)) as Hr.
      rewrite Hl in Hr. destruct Hr as [Hr Hrne].
      replace (last - first + 1) with (S (last - first)) by lia.
      rewrite Hr. now destruct (trim_right (trim_left token)).
    + exfalso. now apply (trim_right_trim_left_nonnil token).
  - rewrite Hf. reflexivity.
Qed.

(** *** The loop computes the specification's tokenizer *)

Lemma split_loop_spec delimiter fuel : forall stream tokens,
  length stream < fuel ->
  split_loop fuel stream delimiter tokens
  = tokens ++ tokenize_spec stream delimiter.
Proof.
  unfold tokenize_spec.
  induction fuel as [|fuel IH]; intros stream tokens Hlt; [lia|].
  destruct stream as [|c s].
  - simpl. now rewrite app_nil_r.
  - cbn [split_loop getline].
    pose proof (read_until_length delimiter (c :: s)) as Hlen.
    pose proof (read_until_pieces delimiter (c :: s)) as Hp.
    destruct (read_until delimiter (c :: s)) as [token rest].
    cbn [snd] in Hlen. simpl length in *.
    assert (Hrest : length rest < fuel) by lia.
    rewrite trimmed_trim.
    destruct Hp as [-> | [-> ->]]; cbn [map filter].
    + destruct (nonempty (trim token)); rewrite IH by assumption;
        [now rewrite <- app_assoc | reflexivity].
    + destruct (nonempty (trim token)); rewrite IH by assumption;
        simpl; now rewrite ?app_nil_r.
Qed.

(** More fuel than the length of the line changes nothing: the loop always
    ends because [getline] fails, never because the fuel ran out. *)
Lemma split_loop_fuel delimiter s fuel :
  length s < fuel -> split_loop fuel s delimiter [] = split s delimiter.
Proof.
  intros H. unfold split. rewrite !split_loop_spec; auto.
Qed.

Lemma split_tokenize_spec s delimiter :
  split s delimiter = tokenize_spec s delimiter.
Proof. unfold split. now rewrite split_loop_spec by lia. Qed.

(** *** Every token is well formed *)

Lemma trim_left_incl s c : In c (trim_left s) -> In c s.
Proof.
  induction s as [|a s IH]; simpl; auto.
  destruct (is_blank a); simpl; auto.
Qed.

Lemma trim_right_incl s c : In c (trim_right s) -> In c s.
Proof.
  revert c; induction s as [|a s IH]; simpl; auto. intros c.
  destruct (trim_right s) as [|r rs].
  - destruct (is_blank a); simpl; tauto.
  - intros [H|H]; auto.
Qed.

Lemma trim_left_first s :
  trim_left s <> [] -> not_blank_opt (first_char (trim_left s)).
Proof.
  induction s as [|a s IH]; simpl; [congruence|].
  destruct (is_blank a) eqn:Hb; simpl; auto.
Qed.

Lemma trim_right_first s :
  trim_right s <> [] -> first_char (trim_right s) = first_char s.
Proof.
  destruct s as [|a s]; simpl; [congruence|].
  destruct (trim_right s); [destruct (is_blank a)|]; simpl; congruence.
Qed.

Lemma trim_right_last s :
  trim_right s <> [] -> not_blank_opt (last_char (trim_right s)).
Proof.
  induction s as [|a s IH]; simpl; [congruence|].
  destruct (trim_right s) as [|r rs] eqn:Hr.
  - destruct (is_blank a) eqn:Hb; simpl; congruence.
  - intros _. cbn [last_char]. apply IH. discriminate.
Qed.

Lemma trim_token_ok delimiter p :
  ~ In delimiter p -> nonempty (trim p) = true -> token_ok delimiter (trim p).
Proof.
  intros Hd Hne.
  assert (Hn : trim p <> []) by (destruct (trim p); [discriminate | congruence]).
  unfold trim in *. constructor; auto.
  - rewrite trim_right_first by assumption. apply trim_left_first.
    intros E. apply Hn. rewrite E. reflexivity.
  - now apply trim_right_last.
  - intros Hin. apply Hd. now apply trim_left_incl, trim_right_incl.
Qed.

Lemma tokenize_spec_tokens_ok s delimiter :
  Forall (token_ok delimiter) (tokenize_spec s delimiter).
Proof.
  unfold tokenize_spec.
  pose proof (pieces_no_delim delimiter s) as Hp.
  induction Hp as [|p ps Hd _ IH]; simpl; [constructor|].
  destruct (nonempty (trim p)) eqn:Hne; auto.
  constructor; auto using trim_token_ok.
Qed.

Lemma split_tokens_ok s delimiter :
  Forall (token_ok delimiter) (split s delimiter).
Proof. rewrite split_tokenize_spec. apply tokenize_spec_tokens_ok. Qed.

(** *** Trimming a token again changes nothing *)

Lemma trim_left_id t : not_blank_opt (first_char t) -> trim_left t = t.
Proof. destruct t as [|c t]; simpl; [tauto|]. now intros ->. Qed.

Lemma trim_right_id t : not_blank_opt (last_char t) -> trim_right t = t.
Proof.
  induction t as [|c t IH]; simpl; [tauto|].
  destruct t as [|c' t].
  - simpl. now intros ->.
  - intros H. rewrite IH by assumption. reflexivity.
Qed.

Lemma trim_token delimiter t : token_ok delimiter t -> trim t = t.
Proof.
  intros [_ Hf Hl _]. unfold trim.
  rewrite trim_left_id by assumption. now apply trim_right_id.
Qed.

Lemma nonempty_token delimiter t : token_ok delimiter t -> nonempty t = true.
Proof. intros [Hn _ _ _]. destruct t; [congruence | reflexivity]. Qed.

(** *** Tokenizing a re-serialized token sequence *)

Lemma pieces_tokenize_to_string delimiter t ts :
  Forall (token_ok delimiter) (t :: ts) ->
  pieces delimiter (tokenize_to_string delimiter (t :: ts)) = t :: ts.
Proof.
  revert t; induction ts as [|u ts IH]; intros t Hok.
  - inversion Hok as [|? ? [_ _ _ Hd] _]; subst. now apply pieces_single.
  - inversion Hok as [|? ? [_ _ _ Hd] Hrest]; subst.
    change (tokenize_to_string delimiter (t :: u :: ts))
      with (t ++ delimiter :: tokenize_to_string delimiter (u :: ts)).
    rewrite pieces_app_delim by assumption. now rewrite IH.
Qed.

Lemma filter_trim_tokens delimiter ts :
  Forall (token_ok delimiter) ts ->
  filter nonempty (map (fun p => trim p) ts) = ts.
Proof.
  induction 1 as [|t ts Ht _ IH]; simpl; auto.
  rewrite (trim_token Ht), (nonempty_token Ht), IH. reflexivity.
Qed.

Lemma split_tokenize_to_string delimiter ts :
  Forall (token_ok delimiter) ts ->
  split (tokenize_to_string delimiter ts) delimiter = ts.
Proof.
  intros Hok. rewrite split_tokenize_spec. unfold tokenize_spec.
  destruct ts as [|t ts]; [reflexivity|].
  rewrite pieces_tokenize_to_string by assumption.
  now apply filter_trim_tokens with (delimiter := delimiter).
Qed.

End TokenizerFacts.

(** ** Facts about descriptor tables and the process monad *)

Module SysFacts.
Import Sys Props.

Lemma fd_get_nil fd : fd_get [] fd = None.
Proof. unfold fd_get. now destruct fd. Qed.

Lemma fd_get_put_same fd : forall t v, fd_get (fd_put t fd v) fd = v.
Proof.
  induction fd as [|fd IH]; intros [|x t] v; simpl; auto; apply IH.
Qed.

Lemma fd_get_put_other fd : forall t fd' v,
  fd <> fd' -> fd_get (fd_put t fd v) fd' = fd_get t fd'.
Proof.
  unfold fd_get.
  induction fd as [|fd IH]; intros [|x t] [|fd'] v Hne; simpl; auto;
    try congruence.
  - now destruct fd'.
  - rewrite IH by congruence. now destruct fd'.
Qed.

Lemma lowest_free_closed t : fd_get t (lowest_free t) = None.
Proof.
  induction t as [|[f|] t IH]; simpl; auto.
Qed.

Lemma lowest_free_least t : forall fd,
  fd < lowest_free t -> fd_get t fd <> None.
Proof.
  induction t as [|[f|] t IH]; simpl; intros fd Hlt; try lia.
  destruct fd as [|fd]; simpl; [discriminate|]. apply IH. lia.
Qed.

Lemma fd_get_close_fds_other l : forall t fd,
  ~ In fd l -> fd_get (close_fds l t) fd = fd_get t fd.
Proof.
  induction l as [|a l IH]; simpl; intros t fd Hn; auto.
  unfold close_fds in *. simpl. rewrite IH by tauto.
  apply fd_get_put_other. intros ->. tauto.
Qed.

Lemma fd_get_close_fds_in l : forall t fd,
  In fd l -> fd_get (close_fds l t) fd = None.
Proof.
  induction l as [|a l IH]; simpl; intros t fd Hin; [tauto|].
  unfold close_fds in *. simpl.
  destruct (in_dec Nat.eq_dec fd l) as [Hl|Hl].
  - now apply IH.
  - destruct Hin as [->|]; [|tauto].
    change (fd_get (close_fds l (fd_put t fd None)) fd = None).
    rewrite fd_get_close_fds_other by assumption. apply fd_get_put_same.
Qed.

(** *** Running computations *)

Lemma bind_normal A B (m : M A) (f : A -> M B) p a p' :
  m p = (Normal a, p') -> bind m f p = f a p'.
Proof. unfold bind. now intros ->. Qed.

Lemma bind_exited A B (m : M A) (f : A -> M B) p c p' :
  m p = (Exited c, p') -> bind m f p = (Exited c, p').
Proof. unfold bind. now intros ->. Qed.

Lemma bind_returned A B (m : M A) (f : A -> M B) p p' :
  m p = (Returned, p') -> bind m f p = (Returned, p').
Proof. unfold bind. now intros ->. Qed.

Lemma call_bind_normal A (m : M A) (f : A -> M unit) p a p' :
  m p = (Normal a, p') -> call (bind m f) p = call (f a) p'.
Proof. unfold call, bind. now intros ->. Qed.

Lemma call_bind_returned A (m : M A) (f : A -> M unit) p p' :
  m p = (Returned, p') -> call (bind m f) p = (Normal tt, p').
Proof. unfold call, bind. now intros ->. Qed.

Lemma bind_ret A B (a : A) (f : A -> M B) p : bind (ret a) f p = f a p.
Proof. reflexivity. Qed.

Section Stable.
Variable R : proc -> proc -> Prop.
Hypothesis R_refl : forall p, R p p.
Hypothesis R_trans : forall p q r, R p q -> R q r -> R p r.

Lemma stable_ret A (a : A) : stable R (ret a).
Proof. intros p. apply R_refl. Qed.

Lemma stable_return A : stable R (@return_ A).
Proof. intros p. apply R_refl. Qed.

Lemma stable_undefined A : stable R (@undefined A).
Proof. intros p. apply R_refl. Qed.

Lemma stable_bind A B (m : M A) (f : A -> M B) :
  stable R m -> (forall a, stable R (f a)) -> stable R (bind m f).
Proof.
  intros Hm Hf p. unfold bind. specialize (Hm p).
  destruct (m p) as [[a| |c|argv| |] p']; simpl in *; auto.
  eapply R_trans; [eassumption | apply Hf].
Qed.

Lemma stable_call (m : M unit) : stable R m -> stable R (call m).
Proof.
  intros Hm p. unfold call. specialize (Hm p).
  now destruct (m p) as [[a| |c|argv| |] p'].
Qed.

Lemma stable_when c (m : M unit) : stable R m -> stable R (when c m).
Proof. destruct c; simpl; auto using stable_ret. Qed.

Lemma stable_for body : (forall i, stable R (body i)) ->
  forall n i, stable R (for_ n i body).
Proof.
  intros Hb n; induction n as [|n IH]; intros i; simpl.
  - apply stable_ret.
  - apply stable_bind; auto.
Qed.

End Stable.

Lemma staying_ret A (a : A) : staying (ret a).
Proof. intros p; exact I. Qed.

Lemma staying_return A : staying (@return_ A).
Proof. intros p; exact I. Qed.

Lemma staying_bind A B (m : M A) (f : A -> M B) :
  staying m -> (forall a, staying (f a)) -> staying (bind m f).
Proof.
  intros Hm Hf p. unfold bind. specialize (Hm p).
  destruct (m p) as [[a| |c|argv| |] p']; simpl in *; auto. apply Hf.
Qed.

Lemma staying_when c (m : M unit) : staying m -> staying (when c m).
Proof. destruct c; simpl; auto using staying_ret. Qed.

Lemma staying_for body : (forall i, staying (body i)) ->
  forall n i, staying (for_ n i body).
Proof.
  intros Hb n; induction n as [|n IH]; intros i; simpl.
  - apply staying_ret.
  - apply staying_bind; auto.
Qed.

Lemma staying_call (m : M unit) p :
  staying m -> fst (call m p) = Normal tt \/ fst (call m p) = Blocked.
Proof.
  intros Hm. unfold call. specialize (Hm p).
  destruct (m p) as [[[]| |c|argv| |] p']; simpl in *; tauto.
Qed.

Lemma staying_emit e : staying (emit e).
Proof. intros p; exact I. Qed.

Lemma staying_pipe ok : staying (pipe ok).
Proof. intros p; unfold pipe; destruct ok; exact I. Qed.

Lemma staying_fork ok h c : staying (fork ok h c).
Proof. intros p; unfold fork; destruct ok; exact I. Qed.

Lemma staying_close fd : staying (close fd).
Proof. intros p; unfold close; destruct (fd_get (fds p) fd); exact I. Qed.

Lemma staying_wait ch : staying (wait ch).
Proof.
  intros p; unfold wait. destruct (unreaped p); [exact I|].
  destruct (map fst _); exact I.
Qed.

Lemma staying_waitpid pid : staying (waitpid pid).
Proof.
  intros p; unfold waitpid.
  destruct (find _ (unreaped p)) as [[? []]|]; exact I.
Qed.

(** *** What a computation adds to the trace *)

Lemma adds_refl Q p : adds Q p p.
Proof. exists []. now rewrite app_nil_r. Qed.

Lemma adds_trans Q p q r : adds Q p q -> adds Q q r -> adds Q p r.
Proof.
  intros [e1 [H1 F1]] [e2 [H2 F2]]. exists (e1 ++ e2).
  rewrite H2, H1, app_assoc. split; auto. apply Forall_app; auto.
Qed.

Lemma adds_log (Q : event -> Prop) e p : Q e -> adds Q p (log e p).
Proof. intros H. exists [e]. simpl. auto. Qed.

Lemma adds_same_trace Q p p' : trace p' = trace p -> adds Q p p'.
Proof. intros H. exists []. rewrite H, app_nil_r. auto. Qed.

Section Adds.
Variable Q : event -> Prop.

Lemma adds_emit e : Q e -> stable (adds Q) (emit e).
Proof. intros H p. now apply adds_log. Qed.

Lemma adds_exit A c : Q (EvExit c) -> stable (adds Q) (@exit A c).
Proof. intros H p. exists [EvExit c]. simpl. auto. Qed.

Lemma adds_pipe ok :
  (forall r w, Q (EvPipe r w)) -> Q EvPipeFailed -> stable (adds Q) (pipe ok).
Proof.
  intros H1 H2 p. unfold pipe. destruct ok; simpl.
  - eexists [_]. simpl. auto.
  - now apply adds_log.
Qed.

Lemma adds_fork ok h c :
  (forall pid, Q (EvFork pid)) -> Q EvForkFailed ->
  stable (adds Q) (fork ok h c).
Proof.
  intros H1 H2 p. unfold fork. destruct ok; simpl.
  - eexists [_]. simpl. auto.
  - now apply adds_log.
Qed.

Lemma adds_close fd : (forall ok, Q (EvClose fd ok)) -> stable (adds Q) (close fd).
Proof.
  intros H p. unfold close. destruct (fd_get (fds p) fd); simpl.
  - eexists [_]. simpl. auto.
  - now apply adds_log.
Qed.

Lemma adds_wait ch :
  (forall pid, Q (EvReaped pid)) -> Q EvNoChild -> stable (adds Q) (wait ch).
Proof.
  intros H1 H2 p. unfold wait. destruct (unreaped p); simpl.
  - now apply adds_log.
  - destruct (map fst _); simpl; [apply adds_refl|].
    eexists [_]. simpl. auto.
Qed.

Lemma adds_waitpid pid :
  Q (EvReaped pid) -> Q EvNoChild -> stable (adds Q) (waitpid pid).
Proof.
  intros H1 H2 p. unfold waitpid.
  destruct (find _ (unreaped p)) as [[? []]|]; simpl.
  - eexists [_]. simpl. auto.
  - apply adds_refl.
  - now apply adds_log.
Qed.

End Adds.

End SysFacts.

(** ** Facts about the argument vector *)

Module ArgvFacts.
Import Tokenizer Sys Shell Props SysFacts.

Lemma store_in_range args i v :
  i < length args ->
  store args i v = Some (firstn i args ++ v :: skipn (S i) args).
Proof.
  intros H. unfold store. now apply Nat.ltb_lt in H as ->.
Qed.

Lemma store_out_of_range args i v :
  length args <= i -> store args i v = None.
Proof.
  intros H. unfold store. now apply Nat.ltb_ge in H as ->.
Qed.

(** The loop writes the tokens into consecutive entries, as long as they
    all fall inside the array. *)
Lemma get_args_loop_fits parts : forall done rest,
  length parts <= length rest ->
  get_args_loop parts (length done) (done ++ rest)
  = Some (done ++ map (fun s => Arg (c_str s)) parts
               ++ skipn (length parts) rest).
Proof.
  induction parts as [|part parts IH]; intros done rest Hlen.
  - reflexivity.
  - destruct rest as [|r rest]; simpl in Hlen; [lia|].
    cbn [get_args_loop]. rewrite store_in_range
      by (rewrite length_app; simpl; lia).
    rewrite firstn_app, firstn_all, Nat.sub_diag, app_nil_r.
    replace (skipn (S (length done)) (done ++ r :: rest)) with rest.
    2:{ rewrite skipn_app, skipn_all2 by lia.
        now replace (S (length done) - length done) with 1 by lia. }
    specialize (IH (done ++ [Arg (c_str part)]) rest).
    rewrite length_app, Nat.add_1_r, <- !app_assoc in IH.
    simpl app in IH. rewrite IH by lia. reflexivity.
Qed.

Lemma get_args_loop_length parts : forall i args args',
  get_args_loop parts i args = Some args' -> length args' = length args.
Proof.
  induction parts as [|part parts IH]; intros i args args' H; simpl in *.
  - now inversion H.
  - unfold store in H. destruct (i <? length args) eqn:E; [|discriminate].
    apply Nat.ltb_lt in E. apply IH in H. rewrite H.
    rewrite length_app, length_firstn. cbn [length].
    rewrite length_skipn. lia.
Qed.

Lemma skipn_garbage k : forall n,
  skipn k (repeat Garbage n) = repeat Garbage (n - k).
Proof.
  induction k as [|k IH]; intros [|n]; simpl; auto.
Qed.

Lemma get_args_within n parts :
  length parts < n ->
  get_args parts (repeat Garbage n)
  = Some (map (fun s => Arg (c_str s)) parts
            ++ Null :: repeat Garbage (n - S (length parts))).
Proof.
  intros Hlen. unfold get_args.
  pose proof (@get_args_loop_fits parts [] (repeat Garbage n)) as H.
  cbn [app length] in H. rewrite H by (rewrite repeat_length; lia).
  rewrite store_in_range.
  2:{ rewrite length_app, length_map, length_skipn, repeat_length. lia. }
  f_equal.
  rewrite firstn_app, length_map, Nat.sub_diag, firstn_0, app_nil_r.
  rewrite <- (length_map (fun s => Arg (c_str s)) parts) at 1.
  rewrite firstn_all. f_equal.
  rewrite skipn_app, length_map.
  rewrite skipn_all2 by (rewrite length_map; lia). cbn [app].
  replace (S (length parts) - length parts) with 1 by lia.
  rewrite skipn_skipn. replace (1 + length parts) with (S (length parts)) by lia.
  now rewrite skipn_garbage.
Qed.

Lemma get_args_beyond n parts :
  n <= length parts -> get_args parts (repeat Garbage n) = None.
Proof.
  intros Hlen. unfold get_args.
  destruct (get_args_loop parts 0 (repeat Garbage n)) as [args'|] eqn:E;
    auto.
  apply get_args_loop_length in E. rewrite repeat_length in E.
  apply store_out_of_range. lia.
Qed.

(** [get_args] stays inside [args[MAX_ARGS]] exactly for fewer than
    [MAX_ARGS] tokens: the null entry needs a place as well. *)
Lemma get_args_fits parts :
  length parts < MAX_ARGS ->
  get_args parts (repeat Garbage MAX_ARGS)
  = Some (map (fun s => Arg (c_str s)) parts
            ++ Null :: repeat Garbage (MAX_ARGS - S (length parts))).
Proof. apply get_args_within. Qed.

Lemma get_args_overflow parts :
  MAX_ARGS <= length parts ->
  get_args parts (repeat Garbage MAX_ARGS) = None.
Proof. apply get_args_beyond. Qed.

Lemma argv_of_args parts rest :
  argv_of (map (fun s => Arg (c_str s)) parts ++ Null :: rest)
  = Some (map c_str parts).
Proof.
  induction parts as [|part parts IH]; simpl; auto. now rewrite IH.
Qed.

(** What the end of a child branch does, by the number of tokens. *)
Lemma exec_tokens_fits ok tokens :
  length tokens < MAX_ARGS ->
  exec_tokens ok tokens
  = (execvp ok (map c_str tokens) ;; perror "Execvp failed" ;; exit EXIT_FAILURE).
Proof.
  intros H. unfold exec_tokens. now rewrite get_args_fits, argv_of_args.
Qed.

Lemma exec_tokens_overflow ok tokens :
  MAX_ARGS <= length tokens -> exec_tokens ok tokens = undefined.
Proof.
  intros H. unfold exec_tokens. now rewrite get_args_overflow.
Qed.

(** The events of the end of a child branch. *)
Lemma exec_tokens_adds ok tokens :
  stable (adds (fun ev => ~ is_dup2 ev /\ ~ is_close ev)) (exec_tokens ok tokens).
Proof.
  destruct (Nat.lt_ge_cases (length tokens) MAX_ARGS) as [H|H].
  - rewrite exec_tokens_fits by assumption. intros p.
    unfold bind, execvp. destruct (map c_str tokens) as [|a argv].
    + apply adds_refl.
    + destruct ok; simpl.
      * eexists [_]. simpl. split; [reflexivity|].
        repeat constructor; simpl; tauto.
      * eexists [_; _; _]. simpl. rewrite <- !app_assoc. simpl.
        split; [reflexivity|]. repeat constructor; simpl; tauto.
  - rewrite exec_tokens_overflow by assumption. intros p. apply adds_refl.
Qed.

Lemma exec_tokens_leaves ok tokens p :
  match fst (exec_tokens ok tokens p) with
  | Exited c => c = EXIT_FAILURE | Replaced _ | Undefined => True
  | _ => False
  end.
Proof.
  destruct (Nat.lt_ge_cases (length tokens) MAX_ARGS) as [H|H].
  - rewrite exec_tokens_fits by assumption.
    unfold bind, execvp. destruct (map c_str tokens) as [|a argv]; simpl; auto.
    destruct ok; simpl; auto.
  - rewrite exec_tokens_overflow by assumption. exact I.
Qed.

(** With a program name and fewer than [MAX_ARGS] tokens the child
    reaches [execvp], whatever the name is. *)
Lemma exec_tokens_run ok t ts q :
  length (t :: ts) < MAX_ARGS ->
  exec_tokens ok (t :: ts) q
  = if ok
    then (Replaced (map c_str (t :: ts)),
          log (EvExecvp (map c_str (t :: ts)) true) q)
    else (Exited EXIT_FAILURE,
          set_fds [] (log (EvExit EXIT_FAILURE)
                        (log (EvPerror "Execvp failed")
                           (log (EvExecvp (map c_str (t :: ts)) false) q)))).
Proof.
  intros H. rewrite exec_tokens_fits by assumption.
  cbn [map]. unfold bind, execvp. now destruct ok.
Qed.

(** Everything the end of a child branch does. *)
Lemma exec_tokens_shape ok tokens q :
  exists tail,
    trace (snd (exec_tokens ok tokens q)) = trace q ++ tail
    /\ Forall (exec_event (map c_str tokens) ok) tail
    /\ (forall argv, fst (exec_tokens ok tokens q) = Replaced argv ->
          argv = map c_str tokens
          /\ fds (snd (exec_tokens ok tokens q)) = fds q)
    /\ (forall code, fst (exec_tokens ok tokens q) = Exited code ->
          code = EXIT_FAILURE).
Proof.
  destruct (Nat.lt_ge_cases (length tokens) MAX_ARGS) as [H|H].
  - rewrite exec_tokens_fits by assumption.
    unfold bind, execvp. destruct (map c_str tokens) as [|a argv] eqn:E.
    + exists []. cbn [fst snd]. rewrite app_nil_r.
      repeat split; auto; discriminate.
    + destruct ok; cbn [fst snd perror emit exit log set_fds trace fds].
      * exists [EvExecvp (a :: argv) true]. split; [reflexivity|].
        split; [constructor; [now left | constructor]|]. split; [|discriminate].
        intros argv' Heq. now inversion Heq.
      * exists [EvExecvp (a :: argv) false; EvPerror "Execvp failed";
                EvExit EXIT_FAILURE].
        split; [now rewrite <- !app_assoc|].
        split.
        { unfold exec_event. repeat (constructor; [now auto|]). constructor. }
        split; [discriminate|]. intros code Heq. now inversion Heq.
  - rewrite exec_tokens_overflow by assumption.
    exists []. cbn [fst snd undefined]. rewrite app_nil_r.
    repeat split; auto; discriminate.
Qed.

End ArgvFacts.

(** ** Facts about the pipeline executor *)

Module PipelineFacts.
Import Tokenizer Sys Shell Props SysFacts ArgvFacts.

(** *** Allocating the channels *)

Lemma allocated_nil p : allocated 0 p [] p.
Proof.
  constructor; simpl; auto using NoDup_nil; try lia.
  now rewrite app_nil_r.
Qed.

Lemma pipe_ok_run p :
  let r := lowest_free (fds p) in
  let t1 := fd_put (fds p) r (Some (PipeRead (next_chan p))) in
  let w := lowest_free t1 in
  exists p1,
    pipe true p = (Normal (Some (r, w)), p1)
    /\ allocated 1 p [r; w] p1.
Proof.
  intros r t1 w. eexists; split; [reflexivity|].
  assert (Hr : fd_get (fds p) r = None) by apply lowest_free_closed.
  assert (Hw1 : fd_get t1 w = None) by apply lowest_free_closed.
  assert (Hrw : r <> w).
  { intros E. unfold t1 in Hw1. rewrite <- E, fd_get_put_same in Hw1.
    discriminate. }
  assert (Hw : fd_get (fds p) w = None).
  { unfold t1 in Hw1. now rewrite fd_get_put_other in Hw1 by assumption. }
  constructor; cbn [fds trace unreaped spawned next_pid next_chan]; auto.
  - repeat constructor; simpl; intuition.
  - cbn [map ends seq flat_map app]. fold r. fold t1. fold w.
    rewrite fd_get_put_same.
    rewrite fd_get_put_other by congruence.
    unfold t1. now rewrite fd_get_put_same.
  - intros fd Hn. simpl in Hn. fold r. fold t1. fold w.
    rewrite fd_get_put_other by intuition.
    unfold t1. apply fd_get_put_other. intuition.
  - lia.
Qed.

(** One more channel in front of [k] others. *)
Lemma allocated_cons k p r w pm new p1 :
  allocated 1 p [r; w] pm -> allocated k pm new p1 ->
  allocated (S k) p (r :: w :: new) p1.
Proof.
  intros A1 Ak.
  pose proof (al_wired A1) as W1. cbn [map ends seq flat_map app] in W1.
  injection W1 as Wr Ww.
  assert (Hnew : forall fd, In fd new -> fd <> r /\ fd <> w).
  { intros fd Hin. pose proof (al_fresh Ak) as F.
    rewrite Forall_forall in F. specialize (F fd Hin).
    split; intros ->; congruence. }
  pose proof (al_nodup A1) as N1. inversion N1 as [|? ? Hrw _]; subst.
  constructor.
  - cbn [length]. rewrite (al_length Ak). lia.
  - constructor; [|constructor; [|apply (al_nodup Ak)]].
    + intros [E|Hin]; [apply Hrw; now left | now apply Hnew in Hin].
    + intros Hin. now apply Hnew in Hin.
  - pose proof (al_fresh A1) as F1. inversion F1 as [|? ? Fr F2]; subst.
    inversion F2 as [|? ? Fw _]; subst.
    constructor; [assumption|constructor; [assumption|]].
    rewrite Forall_forall. intros fd Hin.
    pose proof (al_fresh Ak) as F. rewrite Forall_forall in F.
    rewrite <- (al_frame A1); [now apply F|].
    apply Hnew in Hin. simpl. intuition.
  - cbn [map]. unfold ends. cbn [seq flat_map app].
    rewrite !(al_frame Ak), Wr, Ww.
    + f_equal. f_equal. rewrite (al_wired Ak), (al_next_chan A1).
      now replace (next_chan p + 1) with (S (next_chan p)) by lia.
    + intros Hin. now apply Hnew in Hin.
    + intros Hin. now apply Hnew in Hin.
  - intros fd Hn. rewrite (al_frame Ak), (al_frame A1); auto;
      simpl in *; intuition.
  - rewrite (al_trace Ak), (al_trace A1), <- app_assoc. reflexivity.
  - now rewrite (al_unreaped Ak), (al_unreaped A1).
  - now rewrite (al_spawned Ak), (al_spawned A1).
  - now rewrite (al_next_pid Ak), (al_next_pid A1).
  - rewrite (al_next_chan Ak), (al_next_chan A1). lia.
Qed.

(** After [k] successful turns the allocation loop goes on from a state
    in which [k] channels are allocated. *)
Lemma create_pipes_steps e k : forall n i pipefds p,
  k <= n -> (forall j, j < k -> pipe_ok e (i + j) = true) ->
  exists new p1,
    allocated k p new p1
    /\ create_pipes e n i pipefds p
       = create_pipes e (n - k) (i + k) (pipefds ++ new) p1.
Proof.
  induction k as [|k IH]; intros n i pipefds p Hle Hok.
  - exists [], p. split; [apply allocated_nil|].
    now rewrite Nat.sub_0_r, Nat.add_0_r, app_nil_r.
  - destruct n as [|n]; [lia|].
    destruct (pipe_ok_run p) as [pm [Hrun A1]].
    set (r := lowest_free (fds p)) in *.
    set (w := lowest_free (fd_put (fds p) r (Some (PipeRead (next_chan p))))) in *.
    destruct (IH n (S i) (pipefds ++ [r; w]) pm) as [new [p1 [Ak Heq]]].
    + lia.
    + intros j Hj. replace (S i + j) with (i + S j) by lia. apply Hok. lia.
    + exists (r :: w :: new), p1. split; [now apply allocated_cons with pm|].
      cbn [create_pipes]. pose proof (Hok 0 ltac:(lia)) as H0.
      rewrite Nat.add_0_r in H0. rewrite H0.
      erewrite bind_normal by exact Hrun. cbv beta iota. rewrite Heq.
      rewrite <- app_assoc. cbn [app Nat.sub].
      now replace (S i + k) with (i + S k) by lia.
Qed.

Lemma create_pipes_all e n pipefds p :
  (forall j, j < n -> pipe_ok e j = true) ->
  exists new p1,
    allocated n p new p1
    /\ create_pipes e n 0 pipefds p = (Normal (pipefds ++ new), p1).
Proof.
  intros Hok. destruct (@create_pipes_steps e n n 0 pipefds p) as [new [p1 [A H]]];
    auto.
  exists new, p1. split; auto. rewrite H, Nat.sub_diag. reflexivity.
Qed.

Lemma create_pipes_fails e n k pipefds p :
  k < n -> (forall j, j < k -> pipe_ok e j = true) -> pipe_ok e k = false ->
  exists new p1,
    allocated k p new p1
    /\ create_pipes e n 0 pipefds p
       = (Returned, log (EvPerror "Pipe failed") (log EvPipeFailed p1)).
Proof.
  intros Hlt Hok Hfail.
  destruct (@create_pipes_steps e k n 0 pipefds p) as [new [p1 [A H]]];
    auto; [lia|].
  exists new, p1. split; auto. rewrite H.
  destruct (n - k) as [|m] eqn:E; [lia|].
  cbn [create_pipes Nat.add]. rewrite Hfail. reflexivity.
Qed.

(** *** Closing every descriptor of [pipefds] *)

Lemma close_opened fd p :
  opened (fds p) fd ->
  close fd p = (Normal tt, closed [fd] p).
Proof.
  unfold opened, close, closed, close_fds. intros H.
  destruct (fd_get (fds p) fd); [reflexivity | congruence].
Qed.

Lemma closed_cons fd l p : closed l (closed [fd] p) = closed (fd :: l) p.
Proof.
  unfold closed, close_fds. cbn [fds trace unreaped spawned next_pid next_chan
    fold_left map]. now rewrite <- app_assoc.
Qed.

Lemma close_loop_run l : forall pre p,
  NoDup l -> (forall fd, In fd l -> opened (fds p) fd) ->
  for_ (length l) (length pre) (fun k => close (nth k (pre ++ l) 0)) p
  = (Normal tt, closed l p).
Proof.
  induction l as [|a l IH]; intros pre p Hnd Hop.
  - unfold closed, close_fds. destruct p; simpl. now rewrite app_nil_r.
  - inversion Hnd as [|? ? Ha Hnd']; subst.
    cbn [length for_]. rewrite nth_middle.
    erewrite bind_normal by (apply close_opened; apply Hop; now left).
    replace (pre ++ a :: l) with ((pre ++ [a]) ++ l)
      by now rewrite <- app_assoc.
    replace (S (length pre)) with (length (pre ++ [a]))
      by (rewrite length_app; simpl; lia).
    rewrite IH; auto.
    + now rewrite closed_cons.
    + intros fd Hin. unfold opened, closed, close_fds. simpl.
      rewrite fd_get_put_other by (intros ->; tauto).
      apply Hop. now right.
Qed.

Lemma close_all_run pipefds num_cmds p :
  length pipefds = 2 * (num_cmds - 1) -> NoDup pipefds ->
  (forall fd, In fd pipefds -> opened (fds p) fd) ->
  close_all pipefds num_cmds p = (Normal tt, closed pipefds p).
Proof.
  intros Hlen Hnd Hop. unfold close_all. rewrite <- Hlen.
  now apply (@close_loop_run pipefds []).
Qed.

(** *** The spawning loop *)

Lemma c_pid_run_child pid body t : c_pid (run_child pid body t) = pid.
Proof. unfold run_child. now destruct (body (child_start t)). Qed.

Lemma fork_ok_run h body p :
  fork true h body p
  = (Normal (Some (next_pid p)),
     {| fds := fds p; trace := trace p ++ [EvFork (next_pid p)];
        unreaped := unreaped p
          ++ [(next_pid p,
               terminates (c_end (run_child (next_pid p) body (fds p))) h)];
        spawned := spawned p ++ [run_child (next_pid p) body (fds p)];
        next_pid := S (next_pid p); next_chan := next_chan p |}).
Proof. reflexivity. Qed.

Lemma forked_0 e commands pipefds num_cmds i p :
  forked e commands pipefds num_cmds 0 i p = p.
Proof.
  unfold forked. destruct p; simpl. now rewrite !app_nil_r, Nat.add_0_r.
Qed.

Lemma spawn_steps e commands pipefds num_cmds k : forall n i p,
  k <= n -> (forall j, j < k -> fork_ok e (i + j) = true) ->
  for_ n i (spawn_stage e commands pipefds num_cmds) p
  = for_ (n - k) (i + k) (spawn_stage e commands pipefds num_cmds)
      (forked e commands pipefds num_cmds k i p).
Proof.
  induction k as [|k IH]; intros n i p Hle Hok.
  - now rewrite forked_0, Nat.sub_0_r, Nat.add_0_r.
  - destruct n as [|n]; [lia|].
    cbn [for_]. unfold spawn_stage at 1.
    pose proof (Hok 0 ltac:(lia)) as H0. rewrite Nat.add_0_r in H0.
    rewrite H0. unfold bind at 1. unfold bind at 1.
    rewrite fork_ok_run. cbv beta iota. unfold ret at 1. cbv beta iota.
    rewrite IH.
    2: lia.
    2:{ intros j Hj. replace (S i + j) with (i + S j) by lia. apply Hok. lia. }
    cbn [Nat.sub]. replace (S i + k) with (i + S k) by lia.
    f_equal. unfold forked.
    cbn [fds trace unreaped spawned next_pid next_chan kids kids_halt map].
    rewrite c_pid_run_child, <- !app_assoc. cbn [app].
    f_equal. lia.
Qed.

(** *** The child of a stage *)

Lemma dup2_ok_run oldfd newfd q :
  opened (fds q) oldfd ->
  dup2 true oldfd newfd q = (Normal true, after_dup oldfd newfd q).
Proof.
  unfold opened, dup2, after_dup. intros H.
  destruct (fd_get (fds q) oldfd); [reflexivity | congruence].
Qed.

Lemma dup2_fail_run oldfd newfd q :
  dup2 false oldfd newfd q = (Normal false, log (EvDup2 oldfd newfd false) q).
Proof. unfold dup2. now destruct (fd_get (fds q) oldfd). Qed.

Lemma opened_after_dup oldfd newfd q fd :
  opened (fds q) oldfd -> opened (fds q) fd ->
  opened (fds (after_dup oldfd newfd q)) fd.
Proof.
  unfold opened, after_dup. cbn [fds set_fds log]. intros Ho Hf.
  destruct (Nat.eq_dec newfd fd) as [->|Hne].
  - now rewrite fd_get_put_same.
  - now rewrite fd_get_put_other.
Qed.

Section Child.
Variable e : env.
Variable commands : list str.
Variable pipefds : list nat.
Variables num_cmds i : nat.
Hypothesis Hlen : length pipefds = 2 * (num_cmds - 1).
Hypothesis Hnd : NoDup pipefds.
Hypothesis Hi : i < num_cmds.

Lemma stdin_fd_in : 0 < i -> In (stdin_fd pipefds i) pipefds.
Proof. intros H. apply nth_In. lia. Qed.

Lemma stdout_fd_in : i < num_cmds - 1 -> In (stdout_fd pipefds i) pipefds.
Proof. intros H. apply nth_In. lia. Qed.

Lemma opened_redirected q :
  (forall fd, In fd pipefds -> opened (fds q) fd) ->
  forall fd, In fd pipefds -> opened (fds (redirected pipefds num_cmds i q)) fd.
Proof.
  intros Hop fd Hin. unfold redirected.
  assert (H1 : forall fd, In fd pipefds ->
    opened (fds (if 0 <? i
                 then after_dup (stdin_fd pipefds i) STDIN_FILENO q else q)) fd).
  { intros fd' Hin'. destruct (Nat.ltb_spec 0 i); auto.
    apply opened_after_dup; auto using stdin_fd_in. }
  destruct (Nat.ltb_spec i (num_cmds - 1)); auto.
  apply opened_after_dup; auto using stdout_fd_in.
Qed.

(** The redirection of standard input failed. *)
Lemma pipeline_child_stdin_fails q :
  0 < i -> dup_in_ok e i = false ->
  pipeline_child e commands pipefds num_cmds i q
  = (Exited EXIT_FAILURE,
     dup_failed (stdin_fd pipefds i) STDIN_FILENO "dup2 stdin failed" q).
Proof.
  intros H0 Hin. unfold pipeline_child.
  apply Nat.ltb_lt in H0. rewrite H0, Hin. cbn [when].
  apply bind_exited. erewrite bind_normal by apply dup2_fail_run.
  reflexivity.
Qed.

(** Standard input was redirected where it had to be, the redirection of
    standard output failed. *)
Lemma pipeline_child_stdout_fails q :
  (forall fd, In fd pipefds -> opened (fds q) fd) ->
  (i = 0 \/ dup_in_ok e i = true) ->
  i < num_cmds - 1 -> dup_out_ok e i = false ->
  pipeline_child e commands pipefds num_cmds i q
  = (Exited EXIT_FAILURE,
     dup_failed (stdout_fd pipefds i) STDOUT_FILENO "dup2 stdout failed"
       (if 0 <? i then after_dup (stdin_fd pipefds i) STDIN_FILENO q else q)).
Proof.
  intros Hop Hin Hlt Hout. unfold pipeline_child.
  assert (E1 : when (0 <? i)
    (ok <- dup2 (dup_in_ok e i) (nth ((i - 1) * 2) pipefds 0) STDIN_FILENO ;;
     when (negb ok) (perror "dup2 stdin failed" ;; exit EXIT_FAILURE)) q
    = (Normal tt,
       if 0 <? i then after_dup (stdin_fd pipefds i) STDIN_FILENO q else q)).
  { destruct (Nat.ltb_spec 0 i) as [Hp|Hp]; [|reflexivity].
    destruct Hin as [-> | ->]; [lia|]. cbn [when].
    erewrite bind_normal
      by (apply dup2_ok_run, Hop, stdin_fd_in; assumption).
    reflexivity. }
  erewrite bind_normal by exact E1.
  apply Nat.ltb_lt in Hlt. rewrite Hlt, Hout. cbn [when].
  apply bind_exited. erewrite bind_normal by apply dup2_fail_run.
  reflexivity.
Qed.

(** Both redirections were made where they had to be: the child closes
    every descriptor of [pipefds] and goes on to [execvp]. *)
Lemma pipeline_child_redirected q :
  (forall fd, In fd pipefds -> opened (fds q) fd) ->
  (i = 0 \/ dup_in_ok e i = true) ->
  (num_cmds - 1 <= i \/ dup_out_ok e i = true) ->
  pipeline_child e commands pipefds num_cmds i q
  = exec_tokens (exec_ok e i) (split (nth i commands []) " ")
      (closed pipefds (redirected pipefds num_cmds i q)).
Proof.
  intros Hop Hin Hout. unfold pipeline_child.
  set (q1 := if 0 <? i then after_dup (stdin_fd pipefds i) STDIN_FILENO q
             else q).
  assert (E1 : when (0 <? i)
    (ok <- dup2 (dup_in_ok e i) (nth ((i - 1) * 2) pipefds 0) STDIN_FILENO ;;
     when (negb ok) (perror "dup2 stdin failed" ;; exit EXIT_FAILURE)) q
    = (Normal tt, q1)).
  { unfold q1. destruct (Nat.ltb_spec 0 i) as [Hp|Hp]; [|reflexivity].
    destruct Hin as [-> | ->]; [lia|]. cbn [when].
    erewrite bind_normal
      by (apply dup2_ok_run, Hop, stdin_fd_in; assumption).
    reflexivity. }
  assert (Hop1 : forall fd, In fd pipefds -> opened (fds q1) fd).
  { intros fd Hfd. unfold q1. destruct (Nat.ltb_spec 0 i); auto.
    apply opened_after_dup; auto using stdin_fd_in. }
  assert (E2 : when (i <? num_cmds - 1)
    (ok <- dup2 (dup_out_ok e i) (nth (i * 2 + 1) pipefds 0) STDOUT_FILENO ;;
     when (negb ok) (perror "dup2 stdout failed" ;; exit EXIT_FAILURE)) q1
    = (Normal tt, redirected pipefds num_cmds i q)).
  { unfold redirected. fold q1.
    destruct (Nat.ltb_spec i (num_cmds - 1)) as [Hp|Hp]; [|reflexivity].
    destruct Hout as [Hout | ->]; [lia|]. cbn [when].
    erewrite bind_normal
      by (apply dup2_ok_run, Hop1, stdout_fd_in; assumption).
    reflexivity. }
  erewrite bind_normal by exact E1.
  erewrite bind_normal by exact E2.
  erewrite bind_normal
    by (apply close_all_run; auto using opened_redirected).
  reflexivity.
Qed.

End Child.

(** *** The first failure of a call made in a loop *)

Lemma first_false (f : nat -> bool) n :
  (forall j, j < n -> f j = true)
  \/ exists k, k < n /\ (forall j, j < k -> f j = true) /\ f k = false.
Proof.
  induction n as [|n [IH | [k [Hk [Hok Hf]]]]].
  - left. intros j Hj. lia.
  - destruct (f n) eqn:E.
    + left. intros j Hj. destruct (Nat.eq_dec j n) as [->|]; auto.
      apply IH. lia.
    + right. exists n. repeat split; auto.
  - right. exists k. repeat split; auto.
Qed.

Lemma pipe_events_shape k : forall new,
  length new = 2 * k ->
  length (pipe_events new) = k /\ Forall is_pipe (pipe_events new).
Proof.
  induction k as [|k IH]; intros new Hlen.
  - destruct new; [simpl; auto | simpl in Hlen; lia].
  - destruct new as [|r [|w new]]; simpl in Hlen; try lia.
    destruct (IH new ltac:(lia)) as [H1 H2]. cbn [pipe_events length].
    split; [lia|]. constructor; simpl; auto.
Qed.

Lemma run_child_eq pid (body : M unit) t r q :
  body (child_start t) = (r, q) ->
  run_child pid body t
  = {| c_pid := pid; c_end := r; c_fds := fds q; c_trace := trace q |}.
Proof. unfold run_child. now intros ->. Qed.

Lemma trace_redirected pipefds num_cmds i q :
  trace (redirected pipefds num_cmds i q)
  = trace q ++ stdin_events pipefds i ++ stdout_events pipefds num_cmds i.
Proof.
  unfold redirected, stdin_events, stdout_events, after_dup.
  destruct (0 <? i), (i <? num_cmds - 1);
    cbn [trace set_fds log]; rewrite <- ?app_assoc, ?app_nil_r; reflexivity.
Qed.

(** The code of the child of a stage runs in one of three ways. *)
Lemma stage_shape_holds e commands pipefds num_cmds i t pid :
  length pipefds = 2 * (num_cmds - 1) -> NoDup pipefds -> i < num_cmds ->
  (forall fd, In fd pipefds -> opened t fd) ->
  stage_shape e pipefds num_cmds i t (split (nth i commands []) " ")
    (run_child pid (pipeline_child e commands pipefds num_cmds i) t).
Proof.
  intros Hlen Hnd Hi Hop.
  assert (Hin : 0 < i /\ dup_in_ok e i = false
                \/ (i = 0 \/ dup_in_ok e i = true)).
  { destruct i; [now auto|]. destruct (dup_in_ok e (S i)); auto.
    left. split; [lia | reflexivity]. }
  destruct Hin as [[H0 Hin] | Hin].
  { apply StdinFailed; auto;
      erewrite run_child_eq by (now apply pipeline_child_stdin_fails);
      reflexivity. }
  assert (Hout : i < num_cmds - 1 /\ dup_out_ok e i = false
                 \/ (num_cmds - 1 <= i \/ dup_out_ok e i = true)).
  { destruct (Nat.lt_ge_cases i (num_cmds - 1)); [|now auto].
    destruct (dup_out_ok e i); auto. }
  destruct Hout as [[H1 Hout] | Hout].
  { apply StdoutFailed; auto;
      erewrite run_child_eq
        by (apply pipeline_child_stdout_fails with (num_cmds := num_cmds);
            auto); [|reflexivity].
    unfold stdin_events, dup_failed, after_dup.
    destruct (0 <? i); reflexivity. }
  pose proof (@pipeline_child_redirected e commands pipefds num_cmds i
                Hlen Hnd Hi (child_start t) Hop Hin Hout) as Hrun.
  match type of Hrun with
  | _ = exec_tokens ?ok ?tokens ?q =>
      destruct (exec_tokens_shape ok tokens q)
        as [tail [Htr [Htail [Hrep Hex]]]]
  end.
  rewrite <- Hrun in Htr, Hrep, Hex.
  destruct (pipeline_child e commands pipefds num_cmds i (child_start t))
    as [r q] eqn:Er.
  cbn [fst snd] in *.
  erewrite run_child_eq by exact Er.
  apply Redirected with tail; auto; cbn [c_trace c_end c_fds].
  rewrite Htr. unfold closed. cbn [trace].
  rewrite trace_redirected. cbn [child_start trace app].
  now rewrite <- !app_assoc.
Qed.

(** *** The three ways through [execute_pipeline] *)

Lemma allocated_opened k p new p1 :
  allocated k p new p1 -> forall fd, In fd new -> opened (fds p1) fd.
Proof.
  intros A fd Hin. unfold opened.
  pose proof (al_wired A) as W.
  apply (in_map (fd_get (fds p1))) in Hin. rewrite W in Hin.
  apply in_map_iff in Hin as [f [Hf _]]. congruence.
Qed.

Lemma fds_forked e commands pipefds num_cmds k i p :
  fds (forked e commands pipefds num_cmds k i p) = fds p.
Proof. reflexivity. Qed.

Section Ways.
Variable e : env.
Variable commands : list str.
Let num_cmds := length commands.
Hypothesis Hn : 1 <= num_cmds.

Lemma skip_guard (rest : M unit) p :
  call (when (Nat.eqb num_cmds 0) undefined ;; rest) p = call rest p.
Proof.
  destruct (Nat.eqb_spec num_cmds 0) as [E|_]; [lia|]. reflexivity.
Qed.

(** Every [pipe] succeeds: the rest of the body runs with the channels
    allocated. *)
Lemma execute_pipeline_allocates p :
  (forall j, j < num_cmds - 1 -> pipe_ok e j = true) ->
  exists pipefds p1,
    allocated (num_cmds - 1) p pipefds p1
    /\ execute_pipeline e commands p
       = call (for_ num_cmds 0 (spawn_stage e commands pipefds num_cmds) ;;
               close_all pipefds num_cmds ;;
               for_ num_cmds 0 (fun _ => wait (pick e))) p1.
Proof.
  intros Hp.
  destruct (@create_pipes_all e (num_cmds - 1) [] p Hp) as [new [p1 [A Hc]]].
  exists new, p1. split; auto.
  unfold execute_pipeline. fold num_cmds. cbv zeta. rewrite skip_guard.
  erewrite call_bind_normal by exact Hc. reflexivity.
Qed.

(** Every [pipe] and every [fork] succeeds: what is left are the waits. *)
Lemma execute_pipeline_spawns_all p :
  (forall j, j < num_cmds - 1 -> pipe_ok e j = true) ->
  (forall j, j < num_cmds -> fork_ok e j = true) ->
  exists pipefds p1,
    allocated (num_cmds - 1) p pipefds p1
    /\ execute_pipeline e commands p
       = call (for_ num_cmds 0 (fun _ => wait (pick e)))
           (closed pipefds (forked e commands pipefds num_cmds num_cmds 0 p1)).
Proof.
  intros Hp Hf.
  destruct (@create_pipes_all e (num_cmds - 1) [] p Hp) as [new [p1 [A Hc]]].
  exists new, p1. split; auto.
  unfold execute_pipeline. fold num_cmds. cbv zeta. rewrite skip_guard.
  erewrite call_bind_normal by exact Hc. cbn [app].
  pose proof (@spawn_steps e commands new num_cmds num_cmds num_cmds 0 p1
                (le_n _) Hf) as Hs.
  rewrite Nat.sub_diag in Hs. cbn [for_] in Hs.
  erewrite call_bind_normal by exact Hs.
  erewrite call_bind_normal.
  2:{ apply close_all_run.
      - apply (al_length A).
      - apply (al_nodup A).
      - intros fd Hin. rewrite fds_forked. now apply (allocated_opened A). }
  reflexivity.
Qed.

(** The first [pipe] that fails is the one of channel [k]. *)
Lemma execute_pipeline_pipe_fails k p :
  k < num_cmds - 1 ->
  (forall j, j < k -> pipe_ok e j = true) -> pipe_ok e k = false ->
  exists pipefds p1,
    allocated k p pipefds p1
    /\ execute_pipeline e commands p
       = (Normal tt, log (EvPerror "Pipe failed") (log EvPipeFailed p1)).
Proof.
  intros Hk Hp Hfail.
  destruct (@create_pipes_fails e (num_cmds - 1) k [] p Hk Hp Hfail)
    as [new [p1 [A Hc]]].
  exists new, p1. split; auto.
  unfold execute_pipeline. fold num_cmds. cbv zeta. rewrite skip_guard.
  now apply call_bind_returned.
Qed.

(** Every [pipe] succeeds, the first [fork] that fails is the one of stage
    [i]. *)
Lemma execute_pipeline_fork_fails i p :
  i < num_cmds ->
  (forall j, j < num_cmds - 1 -> pipe_ok e j = true) ->
  (forall j, j < i -> fork_ok e j = true) -> fork_ok e i = false ->
  exists pipefds p1,
    allocated (num_cmds - 1) p pipefds p1
    /\ execute_pipeline e commands p
       = (Normal tt,
          log (EvPerror "Fork failed")
            (log EvForkFailed (forked e commands pipefds num_cmds i 0 p1))).
Proof.
  intros Hi Hp Hf Hfail.
  destruct (@create_pipes_all e (num_cmds - 1) [] p Hp) as [new [p1 [A Hc]]].
  exists new, p1. split; auto.
  unfold execute_pipeline. fold num_cmds. cbv zeta. rewrite skip_guard.
  erewrite call_bind_normal by exact Hc. cbn [app].
  apply call_bind_returned.
  rewrite (@spawn_steps e commands new num_cmds i num_cmds 0 p1) by (auto; lia).
  destruct (num_cmds - i) as [|m] eqn:E; [lia|].
  cbn [for_ Nat.add]. apply bind_returned.
  unfold spawn_stage. unfold bind at 1. unfold fork. rewrite Hfail.
  reflexivity.
Qed.

End Ways.

(** *** Waiting changes neither descriptors nor the record of children *)

Lemma same_files_refl p : same_files p p.
Proof. split; reflexivity. Qed.

Lemma same_files_trans p q r :
  same_files p q -> same_files q r -> same_files p r.
Proof. unfold same_files. intros [? ?] [? ?]. split; congruence. Qed.

Lemma same_files_wait ch : stable same_files (wait ch).
Proof.
  intros p. unfold wait. destruct (unreaped p); [split; reflexivity|].
  destruct (map fst _); split; reflexivity.
Qed.

Lemma same_files_waits ch n i :
  stable same_files (call (for_ n i (fun _ => wait ch))).
Proof.
  apply stable_call, stable_for;
    eauto using same_files_refl, same_files_trans, same_files_wait.
Qed.

Lemma reaps_waits ch n i :
  stable (adds is_reap) (call (for_ n i (fun _ => wait ch))).
Proof.
  apply stable_call, stable_for;
    eauto using adds_refl, adds_trans.
  intros _. apply adds_wait; simpl; auto.
Qed.

(** *** What the code after the allocation adds to the trace *)

Section AfterPipes.
Variable Q : event -> Prop.
Hypothesis Q_fork : forall pid, Q (EvFork pid).
Hypothesis Q_fork_failed : Q EvForkFailed.
Hypothesis Q_perror : forall msg, Q (EvPerror msg).
Hypothesis Q_close : forall fd ok, Q (EvClose fd ok).
Hypothesis Q_reaped : forall pid, Q (EvReaped pid).
Hypothesis Q_no_child : Q EvNoChild.

Lemma adds_after_pipes e commands pipefds num_cmds :
  stable (adds Q)
    (call (for_ num_cmds 0 (spawn_stage e commands pipefds num_cmds) ;;
           close_all pipefds num_cmds ;;
           for_ num_cmds 0 (fun _ => wait (pick e)))).
Proof.
  pose proof (@adds_refl Q) as Hr. pose proof (@adds_trans Q) as Ht.
  apply stable_call.
  apply (stable_bind Ht); [|intros _; apply (stable_bind Ht); [|intros _]].
  - apply (stable_for Hr Ht). intros i. unfold spawn_stage.
    apply (stable_bind Ht); [now apply adds_fork|].
    intros [pid|]; [now apply stable_ret|].
    apply (stable_bind Ht); [now apply adds_emit|].
    intros _. now apply stable_return.
  - apply (stable_for Hr Ht). intros k. now apply adds_close.
  - apply (stable_for Hr Ht). intros k. now apply adds_wait.
Qed.

End AfterPipes.

(** *** The children of a pipeline that was spawned completely *)

Lemma kids_nth e commands pipefds num_cmds t k : forall i pid j,
  j < k ->
  nth_error (kids e commands pipefds num_cmds t k i pid) j
  = Some (run_child (pid + j)
            (pipeline_child e commands pipefds num_cmds (i + j)) t).
Proof.
  induction k as [|k IH]; intros i pid j Hj; [lia|].
  destruct j as [|j]; cbn [kids nth_error].
  - now rewrite !Nat.add_0_r.
  - rewrite IH by lia.
    replace (S pid + j) with (pid + S j) by lia.
    now replace (S i + j) with (i + S j) by lia.
Qed.

Lemma kids_length e commands pipefds num_cmds t k : forall i pid,
  length (kids e commands pipefds num_cmds t k i pid) = k.
Proof.
  induction k as [|k IH]; intros i pid; cbn [kids length]; auto.
Qed.

Lemma kids_pids e commands pipefds num_cmds t k : forall i pid,
  map (fun c => EvFork (c_pid c)) (kids e commands pipefds num_cmds t k i pid)
  = map EvFork (seq pid k).
Proof.
  induction k as [|k IH]; intros i pid; cbn [kids map seq]; auto.
  now rewrite c_pid_run_child, IH.
Qed.

Lemma kids_halt_pids e cs : forall i,
  map fst (kids_halt e cs i) = map c_pid cs.
Proof.
  induction cs as [|c cs IH]; intros i; cbn [kids_halt map fst]; auto.
  now rewrite IH.
Qed.

Lemma kids_c_pids e commands pipefds num_cmds t k : forall i pid,
  map c_pid (kids e commands pipefds num_cmds t k i pid) = seq pid k.
Proof.
  induction k as [|k IH]; intros i pid; cbn [kids map seq]; auto.
  now rewrite c_pid_run_child, IH.
Qed.

Lemma kids_halt_length e cs : forall i, length (kids_halt e cs i) = length cs.
Proof.
  induction cs as [|c cs IH]; intros i; cbn [kids_halt length]; auto.
Qed.

Lemma allocated_keeps k p new p1 fd :
  allocated k p new p1 -> opened (fds p) fd ->
  ~ In fd new /\ fd_get (fds p1) fd = fd_get (fds p) fd.
Proof.
  intros A Hop.
  assert (Hn : ~ In fd new).
  { intros Hin. pose proof (al_fresh A) as F. rewrite Forall_forall in F.
    apply Hop. now apply F. }
  split; auto. now apply (al_frame A).
Qed.

(** Every [pipe] and every [fork] succeeds: the whole run. *)
Lemma execute_pipeline_complete e commands p :
  let num_cmds := length commands in
  let p' := snd (execute_pipeline e commands p) in
  1 <= num_cmds ->
  (forall j, j < num_cmds - 1 -> pipe_ok e j = true) ->
  (forall j, j < num_cmds -> fork_ok e j = true) ->
  exists pipefds p1 reaps,
    allocated (num_cmds - 1) p pipefds p1
    /\ trace p' = trace p ++ pipe_events pipefds
                  ++ map EvFork (seq (next_pid p) num_cmds)
                  ++ map (fun fd => EvClose fd true) pipefds
                  ++ reaps
    /\ Forall is_reap reaps
    /\ spawned p' = spawned p
         ++ kids e commands pipefds num_cmds (fds p1) num_cmds 0 (next_pid p)
    /\ fds p' = close_fds pipefds (fds p1)
    /\ (forall fd, fd_get (fds p') fd = fd_get (fds p) fd).
Proof.
  intros num_cmds p' Hn Hp Hf.
  destruct (@execute_pipeline_spawns_all e commands Hn p Hp Hf)
    as [pipefds [p1 [A Hrun]]].
  fold num_cmds in Hrun, A.
  set (pc := closed pipefds (forked e commands pipefds num_cmds num_cmds 0 p1))
    in *.
  assert (Hs : same_files pc p').
  { unfold p'. rewrite Hrun. apply same_files_waits. }
  assert (Ha : adds is_reap pc p').
  { unfold p'. rewrite Hrun. apply reaps_waits. }
  destruct Hs as [Hfds Hsp]. destruct Ha as [reaps [Htr Hre]].
  exists pipefds, p1, reaps.
  split; [exact A|]. split; [|split; [exact Hre|split; [|split]]].
  - rewrite Htr. unfold pc, closed, forked.
    cbn [fds trace unreaped spawned next_pid next_chan].
    rewrite kids_pids, (al_trace A), (al_next_pid A), <- !app_assoc.
    reflexivity.
  - rewrite Hsp. unfold pc, closed, forked.
    cbn [fds trace unreaped spawned next_pid next_chan].
    now rewrite (al_spawned A), (al_next_pid A).
  - rewrite Hfds. reflexivity.
  - intros fd. rewrite Hfds. unfold pc, closed, forked. cbn [fds].
    destruct (in_dec Nat.eq_dec fd pipefds) as [Hin|Hin].
    + rewrite fd_get_close_fds_in by assumption.
      pose proof (al_fresh A) as F. rewrite Forall_forall in F.
      symmetry. now apply F.
    + rewrite fd_get_close_fds_other by assumption. now apply (al_frame A).
Qed.

(** *** Descriptors that were open before stay open *)

Lemma execute_pipeline_keeps_open e commands p fd :
  1 <= length commands -> opened (fds p) fd ->
  fd_get (fds (snd (execute_pipeline e commands p))) fd = fd_get (fds p) fd.
Proof.
  intros Hn Hop.
  destruct (first_false (pipe_ok e) (length commands - 1))
    as [Hp | [k [Hk [Hp Hfail]]]].
  - destruct (first_false (fork_ok e) (length commands))
      as [Hf | [i [Hi [Hf Hffail]]]].
    + destruct (@execute_pipeline_complete e commands p Hn Hp Hf)
        as [pipefds [p1 [reaps [_ [_ [_ [_ [_ H]]]]]]]]. apply H.
    + destruct (@execute_pipeline_fork_fails e commands Hn i p Hi Hp Hf Hffail)
        as [pipefds [p1 [A Hrun]]].
      rewrite Hrun. cbn [snd log fds forked].
      now apply (allocated_keeps A).
  - destruct (@execute_pipeline_pipe_fails e commands Hn k p Hk Hp Hfail)
      as [pipefds [p1 [A Hrun]]].
    rewrite Hrun. cbn [snd log fds].
    now apply (allocated_keeps A).
Qed.

(** *** The interpreter never leaves from inside [execute_pipeline] *)

Lemma staying_create_pipes e n : forall i pipefds,
  staying (create_pipes e n i pipefds).
Proof.
  induction n as [|n IH]; intros i pipefds; cbn [create_pipes].
  - apply staying_ret.
  - apply staying_bind; [apply staying_pipe|].
    intros [[rd wr]|]; [apply IH|].
    apply staying_bind; [apply staying_emit | intros _; apply staying_return].
Qed.

Lemma staying_spawn_stage e commands pipefds num_cmds i :
  staying (spawn_stage e commands pipefds num_cmds i).
Proof.
  unfold spawn_stage. apply staying_bind; [apply staying_fork|].
  intros [pid|]; [apply staying_ret|].
  apply staying_bind; [apply staying_emit | intros _; apply staying_return].
Qed.

Lemma execute_pipeline_stays e commands p :
  1 <= length commands ->
  fst (execute_pipeline e commands p) = Normal tt
  \/ fst (execute_pipeline e commands p) = Blocked.
Proof.
  intros Hn. unfold execute_pipeline. cbv zeta.
  rewrite (skip_guard commands Hn).
  apply staying_call.
  apply staying_bind; [apply staying_create_pipes|]. intros pipefds.
  apply staying_bind;
    [apply staying_for; intros; apply staying_spawn_stage|]. intros _.
  apply staying_bind;
    [apply staying_for; intros; apply staying_close|]. intros _.
  apply staying_for; intros; apply staying_wait.
Qed.

(** *** What the whole executor adds to the trace *)

Section Whole.
Variable Q : event -> Prop.
Hypothesis Q_pipe : forall r w, Q (EvPipe r w).
Hypothesis Q_pipe_failed : Q EvPipeFailed.
Hypothesis Q_fork : forall pid, Q (EvFork pid).
Hypothesis Q_fork_failed : Q EvForkFailed.
Hypothesis Q_perror : forall msg, Q (EvPerror msg).
Hypothesis Q_close : forall fd ok, Q (EvClose fd ok).
Hypothesis Q_reaped : forall pid, Q (EvReaped pid).
Hypothesis Q_no_child : Q EvNoChild.

Lemma adds_create_pipes e n : forall i pipefds,
  stable (adds Q) (create_pipes e n i pipefds).
Proof.
  pose proof (@adds_refl Q) as Hr. pose proof (@adds_trans Q) as Ht.
  induction n as [|n IH]; intros i pipefds; cbn [create_pipes].
  - now apply stable_ret.
  - apply (stable_bind Ht); [now apply adds_pipe|].
    intros [[rd wr]|]; [apply IH|].
    apply (stable_bind Ht); [now apply adds_emit|].
    intros _. now apply stable_return.
Qed.

Lemma adds_execute_pipeline e commands :
  stable (adds Q) (execute_pipeline e commands).
Proof.
  pose proof (@adds_refl Q) as Hr. pose proof (@adds_trans Q) as Ht.
  unfold execute_pipeline. cbv zeta. apply stable_call.
  apply (stable_bind Ht).
  { apply (stable_when Hr). apply (@stable_undefined _ Hr). }
  intros _. apply (stable_bind Ht); [apply adds_create_pipes|].
  intros pipefds p.
  pose proof (@adds_after_pipes Q Q_fork Q_fork_failed Q_perror Q_close
                Q_reaped Q_no_child e commands pipefds (length commands) p)
    as H.
  unfold call in H.
  destruct ((for_ (length commands) 0
               (spawn_stage e commands pipefds (length commands)) ;;
             close_all pipefds (length commands) ;;
             for_ (length commands) 0 (fun _ => wait (pick e))) p)
    as [[[]| |c|argv| |] p']; exact H.
Qed.

End Whole.

(** *** Waits that come back *)

Lemma wait_returns ch p :
  all_terminate p ->
  fst (wait ch p) = Normal tt /\ all_terminate (snd (wait ch p)).
Proof.
  unfold all_terminate, wait. intros Hall.
  destruct (unreaped p) as [|c u] eqn:E; [split; [reflexivity|]|].
  - cbn [snd log unreaped]. now rewrite E.
  - cbn [filter]. rewrite (Hall c (or_introl eq_refl)). cbn [map].
    split; [reflexivity|]. cbn [snd set_unreaped log unreaped].
    intros c' Hin. unfold remove_pid in Hin.
    apply filter_In in Hin as [Hin _]. now apply Hall.
Qed.

Lemma waits_return ch n : forall i p,
  all_terminate p -> fst (for_ n i (fun _ => wait ch) p) = Normal tt.
Proof.
  induction n as [|n IH]; intros i p Hall; cbn [for_]; [reflexivity|].
  destruct (wait_returns ch Hall) as [Hr Ha]. unfold bind.
  destruct (wait ch p) as [r q]. cbn [fst snd] in *. subst r.
  now apply IH.
Qed.

Lemma terminates_halting A (r : ctl A) : terminates r true = true.
Proof. now destruct r. Qed.

Lemma kids_halt_all e cs : forall i,
  (forall j, halts e j = true) ->
  forall c, In c (kids_halt e cs i) -> snd c = true.
Proof.
  induction cs as [|k cs IH]; intros i Hh c Hin; [destruct Hin|].
  cbn [kids_halt] in Hin. destruct Hin as [<-|Hin]; [|now apply (IH (S i) Hh)].
  cbn [snd]. rewrite Hh. apply terminates_halting.
Qed.

(** When every program ends, the executor returns. *)
Lemma execute_pipeline_returns e commands p :
  1 <= length commands ->
  (forall i, halts e i = true) -> all_terminate p ->
  fst (execute_pipeline e commands p) = Normal tt.
Proof.
  intros Hn Hh Hall.
  destruct (first_false (pipe_ok e) (length commands - 1))
    as [Hp | [k [Hk [Hp Hfail]]]].
  - destruct (first_false (fork_ok e) (length commands))
      as [Hf | [i [Hi [Hf Hffail]]]].
    + destruct (@execute_pipeline_spawns_all e commands Hn p Hp Hf)
        as [pipefds [p1 [A Hrun]]].
      rewrite Hrun. unfold call.
      match goal with
      | |- fst (match ?m ?q with _ => _ end) = _ =>
          assert (Hw : fst (m q) = Normal tt)
      end.
      { apply waits_return. unfold all_terminate, closed, forked.
        cbn [unreaped]. intros c Hin. apply in_app_or in Hin as [Hin|Hin].
        - apply Hall. now rewrite <- (al_unreaped A).
        - eapply kids_halt_all; eassumption. }
      match goal with
      | |- fst (match ?m ?q with _ => _ end) = _ =>
          destruct (m q) as [[[]| |c|argv| |] q']; cbn [fst] in *;
            try discriminate; reflexivity
      end.
    + destruct (@execute_pipeline_fork_fails e commands Hn i p Hi Hp Hf Hffail)
        as [pipefds [p1 [A Hrun]]]. now rewrite Hrun.
  - destruct (@execute_pipeline_pipe_fails e commands Hn k p Hk Hp Hfail)
      as [pipefds [p1 [A Hrun]]]. now rewrite Hrun.
Qed.

End PipelineFacts.

(** ** Facts about the child of one stage *)

Module StageFacts.
Import Tokenizer Sys Shell Props SysFacts ArgvFacts PipelineFacts.

(** *** Which channel end a descriptor of [pipefds] is *)

Lemma ends_length n : forall c, length (ends c n) = 2 * n.
Proof.
  unfold ends. induction n as [|n IH]; intros c; cbn [seq flat_map app length].
  - reflexivity.
  - rewrite IH. lia.
Qed.

Lemma ends_nth_read n : forall c j d,
  j < n -> nth (j * 2) (ends c n) d = PipeRead (c + j).
Proof.
  unfold ends. induction n as [|n IH]; intros c j d Hj; [lia|].
  cbn [seq flat_map app]. destruct j as [|j]; cbn [Nat.mul Nat.add nth].
  - now rewrite Nat.add_0_r.
  - rewrite IH by lia. f_equal. lia.
Qed.

Lemma ends_nth_write n : forall c j d,
  j < n -> nth (j * 2 + 1) (ends c n) d = PipeWrite (c + j).
Proof.
  unfold ends. induction n as [|n IH]; intros c j d Hj; [lia|].
  cbn [seq flat_map app]. destruct j as [|j]; cbn [Nat.mul Nat.add nth].
  - now rewrite Nat.add_0_r.
  - rewrite IH by lia. f_equal. lia.
Qed.

Lemma wired_nth t pipefds c n k :
  map (fd_get t) pipefds = map Some (ends c n) ->
  k < length pipefds ->
  fd_get t (nth k pipefds 0) = Some (nth k (ends c n) (Inherited 0)).
Proof.
  intros Hw Hk.
  assert (Hl : length (ends c n) = length pipefds).
  { apply (f_equal (@length _)) in Hw. now rewrite !length_map in Hw. }
  apply (f_equal (fun l => nth_error l k)) in Hw.
  rewrite !nth_error_map in Hw.
  rewrite (nth_error_nth' pipefds 0 Hk) in Hw.
  rewrite (nth_error_nth' (ends c n) (Inherited 0)) in Hw by lia.
  cbn [option_map] in Hw. congruence.
Qed.

Section Wired.
Variables (t : fdtable) (pipefds : list nat) (c0 num_cmds i : nat).
Hypothesis Hlen : length pipefds = 2 * (num_cmds - 1).
Hypothesis Hwired : map (fd_get t) pipefds = map Some (ends c0 (num_cmds - 1)).
Hypothesis Hi : i < num_cmds.

Lemma stdin_fd_read :
  0 < i -> fd_get t (stdin_fd pipefds i) = Some (PipeRead (c0 + (i - 1))).
Proof.
  intros H0. unfold stdin_fd.
  rewrite (@wired_nth t pipefds c0 (num_cmds - 1) _ Hwired) by lia.
  now rewrite ends_nth_read by lia.
Qed.

Lemma stdout_fd_write :
  i < num_cmds - 1 -> fd_get t (stdout_fd pipefds i) = Some (PipeWrite (c0 + i)).
Proof.
  intros H1. unfold stdout_fd.
  rewrite (@wired_nth t pipefds c0 (num_cmds - 1) _ Hwired) by lia.
  now rewrite ends_nth_write by lia.
Qed.

End Wired.

(** *** Reading the three shapes *)

Lemma exec_event_not_dup2 argv ok ev : exec_event argv ok ev -> ~ is_dup2 ev.
Proof. intros [-> | [-> | ->]]; simpl; tauto. Qed.

Lemma exec_event_not_close argv ok ev : exec_event argv ok ev -> ~ is_close ev.
Proof. intros [-> | [-> | ->]]; simpl; tauto. Qed.

Lemma close_events_are_closes pipefds ev :
  In ev (close_events pipefds) -> exists fd, ev = EvClose fd true.
Proof.
  unfold close_events. intros H. apply in_map_iff in H as [fd [<- _]]. eauto.
Qed.

Lemma app_split_at A (pre : list A) : forall tail before after x,
  pre ++ tail = before ++ x :: after -> ~ In x pre ->
  exists mid, before = pre ++ mid /\ tail = mid ++ x :: after.
Proof.
  induction pre as [|a pre IH]; intros tail before after x Heq Hn.
  - exists before. auto.
  - destruct before as [|b before]; cbn [app] in Heq.
    + inversion Heq; subst. exfalso. apply Hn. now left.
    + inversion Heq; subst.
      destruct (IH tail before after x) as [mid [-> ->]]; auto.
      * intros Hin. apply Hn. now right.
      * exists mid. auto.
Qed.

Section Shape.
Variables (e : env) (pipefds : list nat) (num_cmds i : nat).
Variables (t : fdtable) (tokens : list str) (c : child).
Hypothesis S : stage_shape e pipefds num_cmds i t tokens c.

(** Every [dup2] of the child is one of the two redirections. *)
Lemma dup2_in_trace oldfd newfd ok :
  In (EvDup2 oldfd newfd ok) (c_trace c) ->
  (newfd = STDIN_FILENO /\ oldfd = stdin_fd pipefds i /\ 0 < i
   /\ ok = dup_in_ok e i)
  \/ (newfd = STDOUT_FILENO /\ oldfd = stdout_fd pipefds i
      /\ i < num_cmds - 1 /\ ok = dup_out_ok e i
      /\ (i = 0 \/ dup_in_ok e i = true)).
Proof.
  intros Hin.
  assert (Hsin : In (EvDup2 oldfd newfd ok) (stdin_events pipefds i) ->
                 newfd = STDIN_FILENO /\ oldfd = stdin_fd pipefds i
                 /\ 0 < i /\ ok = true).
  { unfold stdin_events. destruct (Nat.ltb_spec 0 i) as [Hlt|Hge];
      [|intros []].
    intros [H|[]]. inversion H; subst. auto. }
  destruct S as [H0 Hf Htr _ | Hok H1 Hf Htr _ | tail Hok Hout Htr Htail _ _];
    rewrite Htr in Hin.
  - destruct Hin as [H|[H|[H|[]]]]; try discriminate.
    inversion H; subst. left. auto.
  - apply in_app_or in Hin as [Hin|Hin].
    + apply Hsin in Hin as [-> [-> [H0 ->]]]. left.
      repeat split; auto. destruct Hok; [lia | congruence].
    + destruct Hin as [H|[H|[H|[]]]]; try discriminate.
      inversion H; subst. right. auto.
  - apply in_app_or in Hin as [Hin|Hin].
    + apply Hsin in Hin as [-> [-> [H0 ->]]]. left.
      repeat split; auto. destruct Hok; [lia | congruence].
    + apply in_app_or in Hin as [Hin|Hin].
      * unfold stdout_events in Hin.
        destruct (Nat.ltb_spec i (num_cmds - 1)) as [Hlt|Hge];
          [|destruct Hin].
        destruct Hin as [H|[]]. inversion H; subst. right.
        repeat split; auto. destruct Hout; [lia | congruence].
      * apply in_app_or in Hin as [Hin|Hin].
        -- apply close_events_are_closes in Hin as [fd Hfd]. discriminate.
        -- rewrite Forall_forall in Htail. apply Htail in Hin.
           apply exec_event_not_dup2 in Hin. simpl in Hin. tauto.
Qed.

(** The redirection of standard input is attempted in every stage but the
    first. *)
Lemma dup2_stdin_made :
  0 < i ->
  In (EvDup2 (stdin_fd pipefds i) STDIN_FILENO (dup_in_ok e i)) (c_trace c).
Proof.
  intros H0. apply Nat.ltb_lt in H0 as Hb.
  destruct S as [_ Hf Htr _ | Hok H1 Hf Htr _ | tail Hok Hout Htr Htail _ _];
    rewrite Htr.
  - rewrite Hf. now left.
  - destruct Hok as [-> | ->]; [lia|]. apply in_or_app. left.
    unfold stdin_events. rewrite Hb. now left.
  - destruct Hok as [-> | ->]; [lia|]. apply in_or_app. left.
    unfold stdin_events. rewrite Hb. now left.
Qed.

(** The redirection of standard output is attempted in every stage but the
    last, unless the child is already over. *)
Lemma dup2_stdout_made :
  i = 0 \/ dup_in_ok e i = true -> i < num_cmds - 1 ->
  In (EvDup2 (stdout_fd pipefds i) STDOUT_FILENO (dup_out_ok e i)) (c_trace c).
Proof.
  intros Hin H1. apply Nat.ltb_lt in H1 as Hb.
  destruct S as [H0 Hf Htr _ | Hok _ Hf Htr _ | tail Hok Hout Htr Htail _ _];
    rewrite Htr.
  - destruct Hin as [-> | Hin]; [lia | congruence].
  - apply in_or_app. right. rewrite Hf. now left.
  - destruct Hout as [Hout | ->]; [lia|].
    apply in_or_app. right. apply in_or_app. left.
    unfold stdout_events. rewrite Hb. now left.
Qed.

Lemma stdin_events_dup2 : Forall is_dup2 (stdin_events pipefds i).
Proof.
  unfold stdin_events. destruct (0 <? i); repeat constructor.
Qed.

Lemma stdout_events_dup2 : Forall is_dup2 (stdout_events pipefds num_cmds i).
Proof.
  unfold stdout_events. destruct (i <? num_cmds - 1); repeat constructor.
Qed.

(** A failed duplication is reported and ends the child with a non-zero
    status, before anything else is done. *)
Lemma dup2_failure oldfd newfd :
  In (EvDup2 oldfd newfd false) (c_trace c) ->
  c_end c = Exited EXIT_FAILURE
  /\ exists before msg,
       c_trace c = before ++ [EvDup2 oldfd newfd false; EvPerror msg;
                              EvExit EXIT_FAILURE]
       /\ Forall is_dup2 before.
Proof.
  intros Hin.
  destruct S as [H0 Hf Htr He | Hok H1 Hf Htr He
                 | tail Hok Hout Htr Htail _ _]; rewrite Htr in *.
  - split; auto. destruct Hin as [H|[H|[H|[]]]]; try discriminate.
    inversion H; subst. exists [], "dup2 stdin failed"%string. auto.
  - split; auto. apply in_app_or in Hin as [Hin|Hin].
    + unfold stdin_events in Hin. destruct (0 <? i); [|destruct Hin].
      destruct Hin as [H|[]]. discriminate.
    + destruct Hin as [H|[H|[H|[]]]]; try discriminate.
      inversion H; subst.
      exists (stdin_events pipefds i), "dup2 stdout failed"%string.
      split; auto using stdin_events_dup2.
  - exfalso. apply in_app_or in Hin as [Hin|Hin].
    + unfold stdin_events in Hin. destruct (0 <? i); [|destruct Hin].
      destruct Hin as [H|[]]. discriminate.
    + apply in_app_or in Hin as [Hin|Hin].
      * unfold stdout_events in Hin.
        destruct (i <? num_cmds - 1); [|destruct Hin].
        destruct Hin as [H|[]]. discriminate.
      * apply in_app_or in Hin as [Hin|Hin].
        -- apply close_events_are_closes in Hin as [fd Hfd]. discriminate.
        -- rewrite Forall_forall in Htail. apply Htail in Hin.
           apply exec_event_not_dup2 in Hin. simpl in Hin. tauto.
Qed.

(** [execvp] comes after the redirections, with the tokens of the
    stage. *)
Lemma exec_after_redirections before argv ok after :
  c_trace c = before ++ EvExecvp argv ok :: after ->
  argv = map c_str tokens
  /\ Forall (fun ev => ~ is_dup2 ev) after
  /\ (forall ev, In ev (c_trace c) -> is_dup2 ev -> In ev before).
Proof.
  intros Heq.
  assert (Hin : In (EvExecvp argv ok) (c_trace c)).
  { rewrite Heq. apply in_elt. }
  destruct S as [H0 Hf Htr He | Hok H1 Hf Htr He
                 | tail Hok Hout Htr Htail _ _]; rewrite Htr in *.
  - destruct Hin as [H|[H|[H|[]]]]; discriminate.
  - apply in_app_or in Hin as [Hin|Hin].
    + pose proof stdin_events_dup2 as F. rewrite Forall_forall in F.
      apply F in Hin. destruct Hin.
    + destruct Hin as [H|[H|[H|[]]]]; discriminate.
  - clear Hin.
    set (pre := (stdin_events pipefds i ++ stdout_events pipefds num_cmds i)
                ++ close_events pipefds).
    assert (E : stdin_events pipefds i ++ stdout_events pipefds num_cmds i
                  ++ close_events pipefds ++ tail = pre ++ tail)
      by (unfold pre; now rewrite <- !app_assoc).
    rewrite E in *. clear E.
    assert (Hpre : forall ev, In ev pre -> is_dup2 ev \/ is_close ev).
    { intros ev Hev. unfold pre in Hev.
      apply in_app_or in Hev as [Hev|Hev].
      - left. apply in_app_or in Hev as [Hev|Hev].
        + pose proof stdin_events_dup2 as F. rewrite Forall_forall in F. auto.
        + pose proof stdout_events_dup2 as F. rewrite Forall_forall in F. auto.
      - right. apply close_events_are_closes in Hev as [fd ->]. exact I. }
    destruct (@app_split_at _ pre tail before after (EvExecvp argv ok) Heq)
      as [mid [-> Htl]].
    { intros Hev. apply Hpre in Hev. simpl in Hev. tauto. }
    rewrite Forall_forall in Htail.
    split; [|split].
    + assert (Hx : In (EvExecvp argv ok) tail) by (rewrite Htl; apply in_elt).
      apply Htail in Hx. destruct Hx as [H|[H|H]]; try discriminate.
      now inversion H.
    + rewrite Forall_forall. intros ev Hev.
      apply (@exec_event_not_dup2 (map c_str tokens) (exec_ok e i)).
      apply Htail. rewrite Htl. apply in_or_app. right. now right.
    + intros ev Hev Hd.
      apply in_app_or in Hev as [Hev|Hev]; [apply in_or_app; now left|].
      apply Htail, exec_event_not_dup2 in Hev. contradiction.
Qed.

(** What the program of the stage finds at its standard input and output,
    when no descriptor of [pipefds] is one of these two. *)
Lemma started_with argv :
  length pipefds = 2 * (num_cmds - 1) ->
  ~ In STDIN_FILENO pipefds -> ~ In STDOUT_FILENO pipefds ->
  c_end c = Replaced argv ->
  fd_get (c_fds c) STDIN_FILENO
  = (if 0 <? i then fd_get t (stdin_fd pipefds i) else fd_get t STDIN_FILENO)
  /\ fd_get (c_fds c) STDOUT_FILENO
     = (if i <? num_cmds - 1 then fd_get t (stdout_fd pipefds i)
        else fd_get t STDOUT_FILENO).
Proof.
  intros Hlen Hn0 Hn1 Hend.
  destruct S as [H0 Hf Htr He | Hok H1 Hf Htr He
                 | tail Hok Hout Htr Htail Hrep _]; try congruence.
  destruct (Hrep argv Hend) as [_ ->].
  rewrite !fd_get_close_fds_other by assumption.
  unfold redirected, after_dup, STDIN_FILENO, STDOUT_FILENO in *.
  destruct (Nat.ltb_spec 0 i) as [Hp|Hp];
    destruct (Nat.ltb_spec i (num_cmds - 1)) as [Hq|Hq];
    cbn [fds set_fds log child_start].
  - rewrite fd_get_put_other by discriminate. rewrite !fd_get_put_same.
    split; auto. rewrite fd_get_put_other; auto.
    intros E. apply Hn0. rewrite E. apply nth_In. lia.
  - rewrite fd_get_put_same. split; auto.
    now rewrite fd_get_put_other by discriminate.
  - rewrite fd_get_put_same. split; auto.
    now rewrite fd_get_put_other by discriminate.
  - auto.
Qed.

End Shape.

(** The child of stage [i], once the channels and the processes of the
    stages up to [i] were created. *)
Lemma stage_child e commands p i :
  let num_cmds := length commands in
  (forall j, j < num_cmds - 1 -> pipe_ok e j = true) ->
  (forall j, j <= i -> fork_ok e j = true) ->
  i < num_cmds ->
  exists pipefds p1,
    allocated (num_cmds - 1) p pipefds p1
    /\ nth_error (spawned (snd (execute_pipeline e commands p)))
         (length (spawned p) + i)
       = Some (run_child (next_pid p + i)
                 (pipeline_child e commands pipefds num_cmds i) (fds p1)).
Proof.
  intros num_cmds Hp Hf Hi.
  assert (Hn : 1 <= length commands) by (fold num_cmds; lia).
  destruct (first_false (fork_ok e) num_cmds) as [Hall | [k [Hk [Hok Hfail]]]].
  - destruct (@execute_pipeline_complete e commands p Hn Hp Hall)
      as [pipefds [p1 [reaps [A [_ [_ [Hsp _]]]]]]].
    exists pipefds, p1. split; auto.
    rewrite Hsp, nth_error_app2 by lia.
    replace (length (spawned p) + i - length (spawned p)) with i by lia.
    now rewrite kids_nth by assumption.
  - assert (Hik : i < k).
    { destruct (Nat.lt_ge_cases i k) as [H|H]; auto.
      rewrite Hf in Hfail by assumption. discriminate. }
    destruct (@execute_pipeline_fork_fails e commands Hn k p Hk Hp Hok Hfail)
      as [pipefds [p1 [A Hrun]]].
    exists pipefds, p1. split; auto.
    rewrite Hrun. unfold forked. cbn [snd log spawned].
    rewrite (al_spawned A), (al_next_pid A), nth_error_app2 by lia.
    replace (length (spawned p) + i - length (spawned p)) with i by lia.
    now rewrite kids_nth by assumption.
Qed.

End StageFacts.

(** ** Facts about the single-command executor and the driver loop *)

Module DriverFacts.
Import Tokenizer Sys Shell Props SysFacts ArgvFacts PipelineFacts.

Lemma execute_command_empty e p : execute_command e [] p = (Normal tt, p).
Proof. reflexivity. Qed.

Lemma execute_command_quit e ts p :
  execute_command e (quit :: ts) p
  = (Exited 0, set_fds [] (log (EvExit 0) p)).
Proof.
  unfold execute_command. cbn [length Nat.eqb when nth].
  rewrite str_eqb_refl. reflexivity.
Qed.

(** Any other command is forked and waited for. *)
Lemma execute_command_spawns e t ts p :
  t <> quit ->
  execute_command e (t :: ts) p
  = call (pid <- fork (fork_ok e 0) (halts e 0)
                   (exec_tokens (exec_ok e 0) (t :: ts)) ;;
          match pid with
          | None => perror "Fork failed" ;; return_
          | Some pid => waitpid pid
          end) p.
Proof.
  intros Hne. unfold execute_command. cbn [length Nat.eqb when nth].
  destruct (str_eqb t quit) eqn:E; [|reflexivity].
  apply str_eqb_eq in E. contradiction.
Qed.

Lemma execute_command_stays e t ts p :
  t <> quit ->
  fst (execute_command e (t :: ts) p) = Normal tt
  \/ fst (execute_command e (t :: ts) p) = Blocked.
Proof.
  intros Hne. rewrite execute_command_spawns by assumption.
  apply staying_call. apply staying_bind; [apply staying_fork|].
  intros [pid|]; [apply staying_waitpid|].
  apply staying_bind; [apply staying_emit | intros _; apply staying_return].
Qed.

Lemma execute_command_same_fds e t ts p :
  t <> quit -> fds (snd (execute_command e (t :: ts) p)) = fds p.
Proof.
  intros Hne. rewrite execute_command_spawns by assumption.
  change (same_fds p
    (snd (call (pid <- fork (fork_ok e 0) (halts e 0)
                         (exec_tokens (exec_ok e 0) (t :: ts)) ;;
                match pid with
                | None => perror "Fork failed" ;; return_
                | Some pid => waitpid pid
                end) p))).
  assert (Hr : forall q, same_fds q q) by reflexivity.
  assert (Ht : forall a b c, same_fds a b -> same_fds b c -> same_fds a c).
  { unfold same_fds. congruence. }
  revert p. apply stable_call. apply (stable_bind Ht).
  - intros p. unfold fork. now destruct (fork_ok e 0).
  - intros [pid|].
    + intros p. unfold waitpid.
      now destruct (find _ (unreaped p)) as [[? []]|].
    + apply (stable_bind Ht); [now intros p|].
      intros _. now apply stable_return.
Qed.

(** *** One turn of the driver loop *)

Lemma quit_line_quit : quit_line quit = true.
Proof. reflexivity. Qed.

Lemma bind_then_ret A B (m : M A) (b : B) p :
  snd (bind m (fun _ => ret b) p) = snd (m p)
  /\ match fst (m p) with
     | Normal _ => fst (bind m (fun _ => ret b) p) = Normal b
     | Returned => fst (bind m (fun _ => ret b) p) = Returned
     | Exited c => fst (bind m (fun _ => ret b) p) = Exited c
     | Replaced a => fst (bind m (fun _ => ret b) p) = Replaced a
     | Blocked => fst (bind m (fun _ => ret b) p) = Blocked
     | Undefined => fst (bind m (fun _ => ret b) p) = Undefined
     end.
Proof.
  unfold bind, ret. destruct (m p) as [[a| |c|argv| |] p']; simpl; auto.
Qed.

(** *** A pipeline of one stage *)

Lemma fork_ext ok h (body body' : M unit) p :
  body (child_start (fds p)) = body' (child_start (fds p)) ->
  fork ok h body p = fork ok h body' p.
Proof.
  intros H. unfold fork, run_child. now rewrite H.
Qed.

(** With a single child to wait for, [wait(NULL)] is [waitpid] for it. *)
Lemma wait_only_child ch pid h p :
  unreaped p = [(pid, h)] -> wait ch p = waitpid pid p.
Proof.
  intros H. unfold wait, waitpid. rewrite H.
  cbn [find fst snd filter map]. rewrite Nat.eqb_refl.
  destruct h; [|reflexivity].
  cbn [map fst length]. rewrite Nat.mod_1_r. reflexivity.
Qed.

Lemma single_stage_child e command q :
  pipeline_child e [command] [] 1 0 q
  = exec_tokens (exec_ok e 0) (split command " ") q.
Proof. reflexivity. Qed.

Lemma single_stage_run e command p :
  unreaped p = [] ->
  execute_pipeline e [command] p
  = call (pid <- fork (fork_ok e 0) (halts e 0)
                   (exec_tokens (exec_ok e 0) (split command " ")) ;;
          match pid with
          | None => perror "Fork failed" ;; return_
          | Some pid => waitpid pid
          end) p.
Proof.
  intros Hu. unfold execute_pipeline. cbv zeta.
  rewrite (@skip_guard [command] (le_n 1)).
  erewrite call_bind_normal by reflexivity.
  cbn [length for_]. unfold spawn_stage.
  unfold call, bind.
  rewrite (@fork_ext _ _ _ (exec_tokens (exec_ok e 0) (split command " ")))
    by apply single_stage_child.
  unfold fork. destruct (fork_ok e 0); [|reflexivity].
  cbv beta iota. unfold ret at 1 2. cbv beta iota.
  unfold close_all. cbn [Nat.sub Nat.mul Nat.add for_]. unfold ret at 1.
  cbv beta iota.
  erewrite wait_only_child by (cbn [unreaped]; rewrite Hu; reflexivity).
  match goal with
  | |- context [waitpid ?pid ?q] =>
      destruct (waitpid pid q) as [[[]| |c|argv| |] q']
  end; reflexivity.
Qed.

(** The body of the loop, by the number of commands on the line. *)
Lemma main_body_line input e p :
  main_body (Some (input, e)) p
  = (if Nat.eqb (length input) 0 then ret Continue
     else if str_eqb input quit then ret Break
     else match split input "|" with
          | [] => ret Continue
          | [command] =>
              execute_command e (split command " ") ;; ret Continue
          | commands => execute_pipeline e commands ;; ret Continue
          end) (log EvPrompt p).
Proof.
  unfold main_body. unfold bind at 1. cbn [prompt emit].
  destruct (Nat.eqb (length input) 0); [reflexivity|].
  destruct (str_eqb input quit); [reflexivity|].
  now destruct (split input "|") as [|command [|c2 rest]].
Qed.

(** The turn ends the interpreter: the loop is left or [exit] is called. *)
Lemma main_body_ends turn p :
  match turn with
  | None => main_body turn p = (Normal Break, log EvPrompt p)
  | Some (input, e) =>
      quit_line input = true ->
      (main_body turn p = (Normal Break, log EvPrompt p)
       \/ main_body turn p
          = (Exited 0, set_fds [] (log (EvExit 0) (log EvPrompt p))))
  end.
Proof.
  destruct turn as [[input e]|]; [|reflexivity].
  rewrite main_body_line. unfold quit_line.
  destruct (Nat.eqb_spec (length input) 0) as [E|E].
  { destruct input; [|discriminate]. discriminate. }
  destruct (str_eqb input quit); [now left|].
  destruct (split input "|") as [|command [|c2 rest]]; try discriminate.
  destruct (split command " ") as [|t ts]; [discriminate|].
  intros Hq. apply str_eqb_eq in Hq. subst t. right.
  unfold bind. now rewrite execute_command_quit.
Qed.

(** The turn does not end the interpreter, whatever the environment does:
    the loop goes on or waits for a child, and the descriptors that were
    open are still open. *)
Lemma main_body_goes_on input e p :
  quit_line input = false ->
  (fst (main_body (Some (input, e)) p) = Normal Continue
   \/ fst (main_body (Some (input, e)) p) = Blocked)
  /\ forall fd, opened (fds p) fd ->
       fd_get (fds (snd (main_body (Some (input, e)) p))) fd
       = fd_get (fds p) fd.
Proof.
  rewrite main_body_line. unfold quit_line.
  destruct (Nat.eqb_spec (length input) 0) as [E|E]; [now auto|].
  destruct (str_eqb input quit) eqn:Eq.
  { apply str_eqb_eq in Eq. subst input. discriminate. }
  destruct (split input "|") as [|command [|c2 rest]] eqn:Es; [now auto| |].
  - destruct (split command " ") as [|t ts] eqn:Et; [now auto|].
    intros Hq. unfold bind.
    assert (Hne : t <> quit).
    { intros ->. now rewrite str_eqb_refl in Hq. }
    pose proof (@execute_command_stays e t ts (log EvPrompt p) Hne) as Hs.
    pose proof (@execute_command_same_fds e t ts (log EvPrompt p) Hne) as Hf.
    destruct (execute_command e (t :: ts) (log EvPrompt p))
      as [[[]| |c|argv| |] p'] eqn:Er; cbn [fst snd] in *;
      destruct Hs as [Hs|Hs]; try discriminate; (split; [auto|]);
      intros fd _; unfold ret; cbn [snd]; now rewrite Hf.
  - intros _. unfold bind.
    assert (Hn : 1 <= length (command :: c2 :: rest)) by (simpl; lia).
    pose proof (@execute_pipeline_stays e _ (log EvPrompt p) Hn) as Hs.
    pose proof (fun fd =>
      @execute_pipeline_keeps_open e _ (log EvPrompt p) fd Hn) as Hf.
    destruct (execute_pipeline e (command :: c2 :: rest) (log EvPrompt p))
      as [[[]| |c|argv| |] p'] eqn:Er; cbn [fst snd] in *;
      destruct Hs as [Hs|Hs]; try discriminate; (split; [auto|]);
      intros fd Hop; unfold ret; cbn [snd]; now apply Hf.
Qed.

(** As long as the interpreter has not called [exit], it still holds every
    descriptor it held. *)
Lemma main_keeps_open input : forall p fd,
  opened (fds p) fd ->
  (forall c, fst (main input p) <> Exited c) ->
  fd_get (fds (snd (main input p))) fd = fd_get (fds p) fd.
Proof.
  induction input as [|[line e] rest IH]; intros p fd Hop Hne.
  - reflexivity.
  - cbn [main] in *. unfold bind in *.
    destruct (quit_line line) eqn:Hq.
    + pose proof (main_body_ends (Some (line, e)) p Hq) as [H|H];
        rewrite H in *; cbn [fst snd] in *; [reflexivity|].
      exfalso. now apply (Hne 0%Z).
    + destruct (@main_body_goes_on line e p Hq) as [Hs Hf].
      specialize (Hf fd Hop).
      destruct (main_body (Some (line, e)) p) as [[[]| |c|argv| |] p'];
        cbn [fst snd] in *; destruct Hs as [Hs|Hs]; try discriminate; auto.
      rewrite <- Hf. apply IH; auto.
      unfold opened. now rewrite Hf.
Qed.

End DriverFacts.

(** * The properties of the specification *)

Import Tokenizer Sys Shell Props.
Import TokenizerFacts SysFacts ArgvFacts PipelineFacts StageFacts DriverFacts.

(** ** Tokenizer *)

(** C6.  For every input string and delimiter, [split] is the tokenizer of
    the specification: the line is cut at every occurrence of the
    delimiter, each piece is trimmed of leading and trailing spaces and
    tabs, and the pieces that are empty after trimming are dropped.  Every
    token it returns is non-empty, neither starts nor ends with a space or
    a tab, and holds no delimiter.  On the line ["  a   |   | b  "] with
    delimiter ['|'] the tokens are exactly ["a"] and ["b"]. *)
Theorem split_trims_and_drops (s : str) (delimiter : ascii) :
  split s delimiter = tokenize_spec s delimiter
  /\ Forall (token_ok delimiter) (split s delimiter)
  /\ split (lit "  a   |   | b  ") "|" = [lit "a"; lit "b"].
Proof.
  split; [apply split_tokenize_spec|].
  split; [apply split_tokens_ok | reflexivity].
Qed.

(** C8.  Tokenizing is idempotent under re-serialization: joining the
    tokens of [split s d] with [d] between neighbours and tokenizing the
    result with [d] again gives the same tokens, for every string [s] and
    every delimiter [d]. *)
Theorem split_reserialized_idempotent (s : str) (d : ascii) :
  split (tokenize_to_string d (split s d)) d = split s d.
Proof.
  apply split_tokenize_to_string, split_tokens_ok.
Qed.

(** ** Allocation of the channels *)

(** C3.  [execute_pipeline] with [N >= 1] commands creates exactly [N - 1]
    channels before it forks any child: when no [pipe] fails, the first
    [N - 1] system calls of the run are the successful [pipe] calls and no
    later call creates or tries to create a channel.  When a [pipe]
    fails, the failure is reported with [perror] and the function
    returns at once, without having spawned any process. *)
Theorem channels_first_or_nothing
    (e : env) (commands : list str) (p : proc) :
  1 <= length commands ->
  let N := length commands in
  let r := fst (execute_pipeline e commands p) in
  let p' := snd (execute_pipeline e commands p) in
  ((forall j, j < N - 1 -> pipe_ok e j = true) ->
   exists pipes rest,
     trace p' = trace p ++ pipes ++ rest
     /\ length pipes = N - 1
     /\ Forall is_pipe pipes
     /\ Forall (fun ev => ~ is_pipe ev /\ ev <> EvPipeFailed) rest)
  /\ (forall k, k < N - 1 ->
      (forall j, j < k -> pipe_ok e j = true) -> pipe_ok e k = false ->
      r = Normal tt
      /\ (exists pipes,
            trace p' = trace p ++ pipes ++ [EvPipeFailed; EvPerror "Pipe failed"]
            /\ length pipes = k /\ Forall is_pipe pipes)
      /\ spawned p' = spawned p
      /\ unreaped p' = unreaped p).
Proof.
  intros Hn N r p'. split.
  - intros Hok.
    destruct (@execute_pipeline_allocates e commands Hn p Hok)
      as [pipefds [p1 [A Hrun]]].
    set (Q := fun ev => ~ is_pipe ev /\ ev <> EvPipeFailed).
    assert (Hadd : adds Q p1 p').
    { unfold p'. rewrite Hrun.
      apply adds_after_pipes; unfold Q; simpl; intros;
        (split; [tauto | discriminate]). }
    destruct Hadd as [rest [Htr Hrest]].
    destruct (@pipe_events_shape _ _ (al_length A)) as [Hl Hp].
    exists (pipe_events pipefds), rest. repeat split; auto.
    rewrite Htr, (al_trace A), <- app_assoc. reflexivity.
  - intros k Hk Hok Hfail.
    destruct (@execute_pipeline_pipe_fails e commands Hn k p Hk Hok Hfail)
      as [pipefds [p1 [A Hrun]]].
    unfold r, p'. rewrite Hrun. cbn [fst snd log trace spawned unreaped].
    destruct (@pipe_events_shape _ _ (al_length A)) as [Hl Hp].
    repeat split.
    + exists (pipe_events pipefds). repeat split; auto.
      rewrite (al_trace A), <- !app_assoc. reflexivity.
    + apply (al_spawned A).
    + apply (al_unreaped A).
Qed.

Lemma channels_first_or_nothing_witness :
  1 <= length [lit "ls"; lit "wc"]
  /\ (exists pipes rest,
        trace (snd (execute_pipeline fair [lit "ls"; lit "wc"] boot))
        = trace boot ++ pipes ++ rest
        /\ length pipes = 1
        /\ Forall is_pipe pipes
        /\ Forall (fun ev => ~ is_pipe ev /\ ev <> EvPipeFailed) rest)
  /\ fst (execute_pipeline (pipe_fails_at 0) [lit "ls"; lit "wc"] boot)
     = Normal tt
  /\ spawned (snd (execute_pipeline (pipe_fails_at 0) [lit "ls"; lit "wc"]
                     boot))
     = spawned boot.
Proof.
  assert (H1 : 1 <= length [lit "ls"; lit "wc"]) by (simpl; lia).
  destruct (@channels_first_or_nothing fair [lit "ls"; lit "wc"] boot H1)
    as [Hall _].
  destruct (@channels_first_or_nothing (pipe_fails_at 0) [lit "ls"; lit "wc"]
              boot H1) as [_ Hfail].
  assert (H0 : 0 < length [lit "ls"; lit "wc"] - 1) by (simpl; lia).
  destruct (Hfail 0 H0 (fun j (H : j < 0) => match Nat.nlt_0_r j H with end)
              eq_refl) as [Hr [_ [Hs _]]].
  split; [exact H1|]. split; [exact (Hall (fun _ _ => eq_refl))|].
  split; [exact Hr | exact Hs].
Defined.

(** ** Failures while the pipeline is set up *)

(** C9.  In a pipeline of at least two commands, when a [pipe] fails after
    [k > 0] channels were created (then no child exists, [i = 0]), or when
    every [pipe] succeeded ([k = N - 1]) and the [fork] of stage [i] fails,
    [execute_pipeline] reports the failure and returns at once: the last
    two events of the run are the failed call and its report, no
    descriptor was closed and no child was reaped, the [2 * k] descriptors
    of the channels created so far are open in the interpreter, the [i]
    children spawned so far are still not waited for, and whatever lines
    the interpreter executes afterwards, it holds these descriptors for as
    long as it runs. *)
Theorem setup_failure_leaves_channels_open
    (e : env) (commands : list str) (p : proc) (k i : nat) :
  2 <= length commands ->
  let N := length commands in
  let r := fst (execute_pipeline e commands p) in
  let p' := snd (execute_pipeline e commands p) in
  (0 < k < N - 1 /\ (forall j, j < k -> pipe_ok e j = true)
     /\ pipe_ok e k = false /\ i = 0)
  \/ (k = N - 1 /\ (forall j, j < k -> pipe_ok e j = true)
      /\ i < N /\ (forall j, j < i -> fork_ok e j = true)
      /\ fork_ok e i = false) ->
  exists pipefds,
    r = Normal tt
    /\ length pipefds = 2 * k
    /\ NoDup pipefds
    /\ Forall (fun fd => fd_get (fds p) fd = None) pipefds
    /\ map (fd_get (fds p')) pipefds = map Some (ends (next_chan p) k)
    /\ (exists failed msg,
          trace p' = trace p ++ pipe_events pipefds
                       ++ map EvFork (seq (next_pid p) i)
                       ++ [failed; EvPerror msg])
    /\ (forall ev, In ev (trace p') -> is_close ev \/ is_reap ev ->
          In ev (trace p))
    /\ (exists new, unreaped p' = unreaped p ++ new
                    /\ map fst new = seq (next_pid p) i)
    /\ (forall input, (forall c, fst (main input p') <> Exited c) ->
          forall fd, In fd pipefds ->
          fd_get (fds (snd (main input p'))) fd = fd_get (fds p') fd).
Proof.
  intros HN N r p' Hcase.
  assert (Hn : 1 <= length commands) by lia.
  assert (Hgen : exists pipefds p1 failed msg q,
    allocated k p pipefds p1
    /\ execute_pipeline e commands p
       = (Normal tt, log (EvPerror msg) (log failed q))
    /\ fds q = fds p1
    /\ trace q = trace p1 ++ map EvFork (seq (next_pid p) i)
    /\ (exists new, unreaped q = unreaped p ++ new
                    /\ map fst new = seq (next_pid p) i)
    /\ ~ is_close failed /\ ~ is_reap failed).
  { destruct Hcase as [[Hk [Hok [Hfail ->]]] | [-> [Hok [Hi [Hfok Hffail]]]]].
    - destruct (@execute_pipeline_pipe_fails e commands Hn k p) as
        [pipefds [p1 [A Hrun]]]; auto; [fold N; lia|].
      exists pipefds, p1, EvPipeFailed, "Pipe failed"%string, p1.
      repeat (split; [now auto|]). split.
      + cbn [seq map]. now rewrite app_nil_r.
      + split; [|simpl; tauto]. exists []. rewrite app_nil_r.
        split; [apply (al_unreaped A) | reflexivity].
    - destruct (@execute_pipeline_fork_fails e commands Hn i p) as
        [pipefds [p1 [A Hrun]]]; auto.
      exists pipefds, p1, EvForkFailed, "Fork failed"%string,
        (forked e commands pipefds (length commands) i 0 p1).
      split; [exact A|]. split; [exact Hrun|]. split; [reflexivity|].
      unfold forked. cbn [trace unreaped]. split.
      + now rewrite kids_pids, (al_next_pid A).
      + split; [|simpl; tauto]. eexists. rewrite (al_unreaped A).
        split; [reflexivity|].
        rewrite kids_halt_pids, (al_next_pid A). apply kids_c_pids. }
  destruct Hgen
    as [pipefds [p1 [failed [msg [q [A [Hrun [Hfds [Htr [Hun [Hc Hr]]]]]]]]]]].
  exists pipefds. unfold r, p'. rewrite Hrun.
  cbn [fst snd log fds trace unreaped].
  split; [reflexivity|].
  split; [apply (al_length A)|].
  split; [apply (al_nodup A)|].
  split; [apply (al_fresh A)|].
  split; [rewrite Hfds; apply (al_wired A)|].
  assert (Htrace : (trace q ++ [failed]) ++ [EvPerror msg]
                   = trace p ++ pipe_events pipefds
                       ++ map EvFork (seq (next_pid p) i)
                       ++ [failed; EvPerror msg]).
  { rewrite Htr, (al_trace A), <- !app_assoc. reflexivity. }
  split; [now exists failed, msg|].
  split.
  { rewrite Htrace. intros ev Hin Hev.
    apply in_app_or in Hin as [Hin|Hin]; [assumption|]. exfalso.
    apply in_app_or in Hin as [Hin|Hin].
    - destruct (@pipe_events_shape _ _ (al_length A)) as [_ Hp].
      rewrite Forall_forall in Hp. apply Hp in Hin.
      destruct ev; simpl in *; tauto.
    - apply in_app_or in Hin as [Hin|Hin].
      + apply in_map_iff in Hin as [pid [<- _]]. simpl in Hev. tauto.
      + destruct Hin as [<-|[<-|[]]]; simpl in Hev; tauto. }
  split; [exact Hun|].
  intros input Hne fd Hin.
  rewrite main_keeps_open; [reflexivity | | exact Hne].
  cbn [fds log]. rewrite Hfds. now apply (allocated_opened A).
Qed.

Lemma setup_failure_leaves_channels_open_witness :
  2 <= length [lit "ls"; lit "wc"]
  /\ fork_ok (fork_fails_at 1) 1 = false
  /\ (exists pipefds,
        fst (execute_pipeline (fork_fails_at 1) [lit "ls"; lit "wc"] boot)
        = Normal tt
        /\ length pipefds = 2 * 1
        /\ map (fd_get (fds (snd (execute_pipeline (fork_fails_at 1)
                                    [lit "ls"; lit "wc"] boot)))) pipefds
           = map Some (ends 0 1))
  /\ pipe_ok (pipe_fails_at 1) 1 = false
  /\ (exists pipefds,
        fst (execute_pipeline (pipe_fails_at 1)
               [lit "ls"; lit "sort"; lit "wc"] boot) = Normal tt
        /\ length pipefds = 2 * 1
        /\ map (fd_get (fds (snd (execute_pipeline (pipe_fails_at 1)
                                    [lit "ls"; lit "sort"; lit "wc"] boot))))
             pipefds
           = map Some (ends 0 1)).
Proof.
  assert (H2 : 2 <= length [lit "ls"; lit "wc"]) by (simpl; lia).
  assert (H3 : 2 <= length [lit "ls"; lit "sort"; lit "wc"]) by (simpl; lia).
  assert (Hlt1 : forall (f : nat -> bool), f 0 = true ->
                 forall j, j < 1 -> f j = true).
  { intros f Hf j Hj. assert (j = 0) as -> by lia. exact Hf. }
  split; [exact H2|]. split; [reflexivity|]. split.
  - destruct (@setup_failure_leaves_channels_open (fork_fails_at 1)
                [lit "ls"; lit "wc"] boot 1 1 H2) as [pipefds H].
    + right. split; [reflexivity|]. split; [apply Hlt1; reflexivity|].
      split; [simpl; lia|]. split; [apply Hlt1; reflexivity | reflexivity].
    + exists pipefds. destruct H as [Hr [Hl [_ [_ [Hw _]]]]]. auto.
  - split; [reflexivity|].
    destruct (@setup_failure_leaves_channels_open (pipe_fails_at 1)
                [lit "ls"; lit "sort"; lit "wc"] boot 1 0 H3) as [pipefds H].
    + left. split; [simpl; lia|]. split; [apply Hlt1; reflexivity|].
      split; reflexivity.
    + exists pipefds. destruct H as [Hr [Hl [_ [_ [Hw _]]]]]. auto.
Defined.

(** ** Redirections of a stage *)

(** C2.  Once the channels of a pipeline and the processes of its stages
    up to [i] were created, the child [c] of stage [i < N] calls [dup2]
    onto standard input if and only if [i > 0], and then with the read
    end of channel [i - 1]; unless that call failed, it calls [dup2] onto
    standard output if and only if [i < N - 1], and then with the write
    end of channel [i].  A
    failed duplication is followed by its report and by [exit] with the
    non-zero status [EXIT_FAILURE], and by nothing else.  Every [dup2]
    comes before [execvp], which gets the tokens of stage [i]'s command;
    and when standard input and output were open in the interpreter, the
    program that replaces the child finds at descriptors 0 and 1 the
    channel ends it was redirected to, and otherwise what the interpreter
    had there. *)
Theorem stage_redirections
    (e : env) (commands : list str) (p : proc) (i : nat) :
  let N := length commands in
  let p' := snd (execute_pipeline e commands p) in
  let c0 := next_chan p in
  (forall j, j < N - 1 -> pipe_ok e j = true) ->
  (forall j, j <= i -> fork_ok e j = true) ->
  i < N ->
  exists c pipefds t,
    nth_error (spawned p') (length (spawned p) + i) = Some c
    /\ c = run_child (next_pid p + i) (pipeline_child e commands pipefds N i) t
    /\ length pipefds = 2 * (N - 1)
    /\ map (fd_get t) pipefds = map Some (ends c0 (N - 1))
    /\ ((exists oldfd ok, In (EvDup2 oldfd STDIN_FILENO ok) (c_trace c))
        <-> 0 < i)
    /\ (forall oldfd ok, In (EvDup2 oldfd STDIN_FILENO ok) (c_trace c) ->
          ok = dup_in_ok e i
          /\ fd_get t oldfd = Some (PipeRead (c0 + (i - 1))))
    /\ (i = 0 \/ dup_in_ok e i = true ->
        ((exists oldfd ok, In (EvDup2 oldfd STDOUT_FILENO ok) (c_trace c))
         <-> i < N - 1))
    /\ (forall oldfd ok, In (EvDup2 oldfd STDOUT_FILENO ok) (c_trace c) ->
          ok = dup_out_ok e i
          /\ fd_get t oldfd = Some (PipeWrite (c0 + i)))
    /\ (forall oldfd newfd, In (EvDup2 oldfd newfd false) (c_trace c) ->
          c_end c = Exited EXIT_FAILURE
          /\ EXIT_FAILURE <> 0%Z
          /\ exists before msg,
               c_trace c = before ++ [EvDup2 oldfd newfd false; EvPerror msg;
                                      EvExit EXIT_FAILURE]
               /\ Forall is_dup2 before)
    /\ (forall before argv ok after,
          c_trace c = before ++ EvExecvp argv ok :: after ->
          argv = map c_str (split (nth i commands []) " ")
          /\ Forall (fun ev => ~ is_dup2 ev) after
          /\ (forall ev, In ev (c_trace c) -> is_dup2 ev -> In ev before))
    /\ (opened (fds p) STDIN_FILENO -> opened (fds p) STDOUT_FILENO ->
        forall argv, c_end c = Replaced argv ->
        fd_get (c_fds c) STDIN_FILENO
        = (if 0 <? i then Some (PipeRead (c0 + (i - 1)))
           else fd_get (fds p) STDIN_FILENO)
        /\ fd_get (c_fds c) STDOUT_FILENO
           = (if i <? N - 1 then Some (PipeWrite (c0 + i))
              else fd_get (fds p) STDOUT_FILENO)).
Proof.
  intros N p' c0 Hp Hf Hi.
  destruct (@stage_child e commands p i Hp Hf Hi) as [pipefds [p1 [A Hc]]].
  fold N in A, Hc.
  set (c := run_child (next_pid p + i)
              (pipeline_child e commands pipefds N i) (fds p1)) in *.
  assert (S : stage_shape e pipefds N i (fds p1)
                (split (nth i commands []) " ") c).
  { apply stage_shape_holds; auto.
    - apply (al_length A).
    - apply (al_nodup A).
    - apply (allocated_opened A). }
  pose proof (al_length A) as Hlen. pose proof (al_wired A) as Hw.
  fold c0 in Hw.
  exists c, pipefds, (fds p1).
  split; [exact Hc|]. split; [reflexivity|]. split; [exact Hlen|].
  split; [exact Hw|].
  split; [|split; [|split; [|split; [|split; [|split]]]]].
  - split.
    + intros [oldfd [ok Hin]].
      destruct (dup2_in_trace S _ _ _ Hin) as [[_ [_ [H0 _]]] | [H _]];
        [assumption | discriminate].
    + intros H0. eauto using dup2_stdin_made.
  - intros oldfd ok Hin.
    destruct (dup2_in_trace S _ _ _ Hin) as [[_ [-> [H0 ->]]] | [H _]];
      [|discriminate].
    split; auto. now apply stdin_fd_read with (num_cmds := N).
  - intros Hin. split.
    + intros [oldfd [ok Hd]].
      destruct (dup2_in_trace S _ _ _ Hd) as [[H _] | [_ [_ [H1 _]]]];
        [discriminate | assumption].
    + intros H1. eauto using dup2_stdout_made.
  - intros oldfd ok Hin.
    destruct (dup2_in_trace S _ _ _ Hin) as [[H _] | [_ [-> [H1 [-> _]]]]];
      [discriminate|].
    split; auto. now apply stdout_fd_write with (num_cmds := N).
  - intros oldfd newfd Hin.
    destruct (dup2_failure S _ _ Hin) as [He Hb].
    split; [exact He|]. split; [discriminate | exact Hb].
  - intros before argv ok after Heq.
    apply (exec_after_redirections S _ _ _ _ Heq).
  - intros H0 H1 argv Hend.
    destruct (allocated_keeps A H0) as [Hn0 Hg0].
    destruct (allocated_keeps A H1) as [Hn1 Hg1].
    destruct (started_with S Hlen Hn0 Hn1 Hend) as [E0 E1].
    rewrite E0, E1. split.
    + destruct (Nat.ltb_spec 0 i); [|exact Hg0].
      now apply stdin_fd_read with (num_cmds := N).
    + destruct (Nat.ltb_spec i (N - 1)); [|exact Hg1].
      now apply stdout_fd_write with (num_cmds := N).
Qed.

Lemma stage_redirections_witness :
  1 < length [lit "ls"; lit "grep x"; lit "wc"]
  /\ exists c,
       nth_error (spawned (snd (execute_pipeline fair
                    [lit "ls"; lit "grep x"; lit "wc"] boot))) 1 = Some c
       /\ ((exists oldfd ok, In (EvDup2 oldfd STDIN_FILENO ok) (c_trace c))
           <-> 0 < 1)
       /\ ((exists oldfd ok, In (EvDup2 oldfd STDOUT_FILENO ok) (c_trace c))
           <-> 1 < 3 - 1)
       /\ (forall argv, c_end c = Replaced argv ->
           fd_get (c_fds c) STDIN_FILENO = Some (PipeRead 0)
           /\ fd_get (c_fds c) STDOUT_FILENO = Some (PipeWrite 1)).
Proof.
  assert (H1 : 1 < length [lit "ls"; lit "grep x"; lit "wc"])
    by (simpl; lia).
  split; [exact H1|].
  destruct (@stage_redirections fair [lit "ls"; lit "grep x"; lit "wc"] boot 1
              (fun _ _ => eq_refl) (fun _ _ => eq_refl) H1)
    as [c [pipefds [t [Hc [_ [_ [_ [Hin [_ [Hout [_ [_ [_ Hstart]]]]]]]]]]]]].
  exists c. split; [exact Hc|]. split; [exact Hin|].
  split; [exact (Hout (or_intror eq_refl))|].
  intros argv Hend.
  apply (Hstart ltac:(discriminate) ltac:(discriminate) argv Hend).
Defined.

(** ** Descriptors after a failed fork *)

(** C1, at an input where it fails.  A pipeline of two commands whose
    second [fork] fails: [execute_pipeline] returns after the report, and
    both descriptors of the channel, which this call created, are still
    open in the interpreter; it has closed nothing. *)
Theorem failed_fork_leaks_the_channel :
  let run := execute_pipeline (fork_fails_at 1) [lit "ls"; lit "wc"] boot in
  fst run = Normal tt
  /\ trace (snd run)
     = [EvPipe 3 4; EvFork 1; EvForkFailed; EvPerror "Fork failed"]
  /\ fd_get (fds boot) 3 = None
  /\ fd_get (fds boot) 4 = None
  /\ fd_get (fds (snd run)) 3 = Some (PipeRead 0)
  /\ fd_get (fds (snd run)) 4 = Some (PipeWrite 0).
Proof. vm_compute. repeat split. Qed.

(** X10.  Where every [pipe] and every [fork] succeeds, the invariant holds:
    the parent closes each of the [2 * (N - 1)] descriptors once, with
    success, after the forks and before the first wait, and holds
    afterwards exactly the descriptors it held before; a child that made
    its redirections closes each of them once, with success, before
    [execvp]. *)
Lemma complete_pipeline_closes_each_end_once
    (e : env) (commands : list str) (p : proc) :
  let N := length commands in
  let p' := snd (execute_pipeline e commands p) in
  1 <= N ->
  (forall j, j < N - 1 -> pipe_ok e j = true) ->
  (forall j, j < N -> fork_ok e j = true) ->
  exists pipefds reaps,
    length pipefds = 2 * (N - 1)
    /\ NoDup pipefds
    /\ trace p' = trace p ++ pipe_events pipefds
                    ++ map EvFork (seq (next_pid p) N)
                    ++ close_events pipefds ++ reaps
    /\ Forall is_reap reaps
    /\ (forall fd, fd_get (fds p') fd = fd_get (fds p) fd)
    /\ (forall i, i < N ->
        (i = 0 \/ dup_in_ok e i = true) ->
        (N - 1 <= i \/ dup_out_ok e i = true) ->
        exists c tail,
          nth_error (spawned p') (length (spawned p) + i) = Some c
          /\ c_trace c = stdin_events pipefds i ++ stdout_events pipefds N i
                           ++ close_events pipefds ++ tail
          /\ Forall (fun ev => ~ is_close ev) tail).
Proof.
  intros N p' Hn Hp Hf.
  destruct (@execute_pipeline_complete e commands p Hn Hp Hf)
    as [pipefds [p1 [reaps [A [Htr [Hre [Hsp [_ Hfd]]]]]]]].
  fold N in A, Htr, Hsp. fold p' in Htr, Hsp, Hfd.
  exists pipefds, reaps.
  split; [apply (al_length A)|]. split; [apply (al_nodup A)|].
  split; [exact Htr|]. split; [exact Hre|]. split; [exact Hfd|].
  intros i Hi Hin Hout.
  set (c := run_child (next_pid p + i)
              (pipeline_child e commands pipefds N i) (fds p1)).
  assert (Hc : nth_error (spawned p') (length (spawned p) + i) = Some c).
  { unfold c. rewrite Hsp, nth_error_app2 by lia.
    replace (length (spawned p) + i - length (spawned p)) with i by lia.
    now rewrite kids_nth by assumption. }
  assert (S : stage_shape e pipefds N i (fds p1)
                (split (nth i commands []) " ") c).
  { apply stage_shape_holds; auto.
    - apply (al_length A).
    - apply (al_nodup A).
    - apply (allocated_opened A). }
  destruct S as [H0 Hfail _ _ | _ H1 Hfail _ _ | tail _ _ Htrc Htail _ _].
  - destruct Hin as [-> | Hin]; [lia | congruence].
  - destruct Hout as [Hout | Hout]; [lia | congruence].
  - exists c, tail. split; [exact Hc|]. split; [exact Htrc|].
    eapply Forall_impl; [|exact Htail].
    intros ev. apply exec_event_not_close.
Qed.

(** ** The capacity of the argument array *)

(** C4, at an input where it fails.  A command of 65 tokens given to the
    single-command executor: no error is reported, a child is forked as
    for any other command, and in it [get_args] stores outside
    [args[MAX_ARGS]], after which nothing is defined. *)
Theorem too_many_tokens_overflow_in_a_child :
  let tokens := lit "echo" :: repeat (lit "a") 64 in
  let run := execute_command fair tokens boot in
  length tokens = 65
  /\ get_args tokens (repeat Garbage MAX_ARGS) = None
  /\ trace (snd run) = [EvFork 1; EvReaped 1]
  /\ map c_end (spawned (snd run)) = [Undefined].
Proof. vm_compute. repeat split. Qed.

(** ** When the interpreter ends *)

Lemma main_status input : forall q,
  match fst (main input q) with
  | Normal status => status = 0%Z
  | Exited code => code = 0%Z
  | Blocked => True
  | _ => False
  end.
Proof.
  induction input as [|[line e] rest IH]; intros q.
  - reflexivity.
  - cbn [main]. unfold bind.
    destruct (quit_line line) eqn:Hq.
    + pose proof (main_body_ends (Some (line, e)) q Hq) as [H|H];
        rewrite H; reflexivity.
    + destruct (@main_body_goes_on line e q Hq) as [Hs _].
      destruct (main_body (Some (line, e)) q) as [[[]| |c|argv| |] q'];
        cbn [fst] in *; destruct Hs as [Hs|Hs]; try discriminate;
        [apply IH | exact I].
Qed.

(** One turn.  A turn of the driver loop ends the interpreter (the loop
    is left, after which [main] returns 0, or [exit] is called) exactly
    when the
    input is exhausted or the line is a single command whose first token
    is [quit]; the status is then 0 and no child was spawned in that
    turn, and [main] is over with status 0 whatever lines follow.  On
    every other line, whatever fails while it is executed, the loop goes
    on or waits for a child.  Whenever [main] is over, its status is
    0. *)
Lemma turn_ends_on_quit_or_end_of_input
    (turn : option (str * env)) (p : proc) :
  let r := fst (main_body turn p) in
  let p' := snd (main_body turn p) in
  ((r = Normal Break \/ exists code, r = Exited code)
   <-> (turn = None
        \/ exists input e, turn = Some (input, e) /\ quit_line input = true))
  /\ (forall code, r = Exited code -> code = 0%Z)
  /\ (r = Normal Break \/ (exists code, r = Exited code) ->
      spawned p' = spawned p /\ unreaped p' = unreaped p)
  /\ (forall input e, turn = Some (input, e) -> quit_line input = false ->
      r = Normal Continue \/ r = Blocked)
  /\ (r = Normal Break \/ (exists code, r = Exited code) ->
      forall rest,
      let over := fst (main (match turn with
                             | Some t => t :: rest
                             | None => []
                             end) p) in
      over = Normal 0%Z \/ over = Exited 0%Z)
  /\ (forall input q,
      match fst (main input q) with
      | Normal status => status = 0%Z
      | Exited code => code = 0%Z
      | Blocked => True
      | _ => False
      end).
Proof.
  intros r p'.
  assert (Hend : turn = None
                 \/ (exists input e, turn = Some (input, e)
                                     /\ quit_line input = true) ->
                 (r = Normal Break \/ r = Exited 0%Z)
                 /\ spawned p' = spawned p /\ unreaped p' = unreaped p).
  { unfold r, p'. pose proof (main_body_ends turn p) as H.
    intros [-> | [input [e [-> Hq]]]].
    - rewrite H. auto.
    - destruct (H Hq) as [E|E]; rewrite E; auto. }
  assert (Hgo : forall input e, turn = Some (input, e) ->
                  quit_line input = false ->
                  r = Normal Continue \/ r = Blocked).
  { intros input e -> Hq. apply (@main_body_goes_on input e p Hq). }
  assert (Hiff : (r = Normal Break \/ exists code, r = Exited code)
                 -> turn = None
                    \/ exists input e, turn = Some (input, e)
                                       /\ quit_line input = true).
  { intros Hr. destruct turn as [[input e]|]; [|now left]. right.
    exists input, e. split; auto.
    destruct (quit_line input) eqn:Hq; auto.
    destruct (Hgo input e eq_refl Hq) as [E|E]; rewrite E in Hr;
      destruct Hr as [Hr|[code Hr]]; discriminate. }
  split; [split; [exact Hiff|]|].
  - intros H. destruct (Hend H) as [[E|E] _]; eauto.
  - split; [|split; [|split; [exact Hgo|split;
                                        [|intros; apply main_status]]]].
    + intros code Hr.
      destruct (Hend (Hiff (or_intror (ex_intro _ code Hr)))) as [[E|E] _];
        congruence.
    + intros Hr. now destruct (Hend (Hiff Hr)) as [_ H].
    + intros Hr rest. destruct (Hend (Hiff Hr)) as [[E|E] _];
        unfold r in E; destruct turn as [t|]; cbn [main]; unfold bind;
        destruct (main_body _ p) as [r0 q0]; cbn [fst] in E; subst r0;
        cbn; auto.
Qed.

(** *** Children that all end *)

Lemma keeps_terminating_refl p : keeps_terminating p p.
Proof. intros H. exact H. Qed.

Lemma keeps_terminating_trans p q r :
  keeps_terminating p q -> keeps_terminating q r -> keeps_terminating p r.
Proof. unfold keeps_terminating. auto. Qed.

Lemma keeps_terminating_same p q :
  unreaped q = unreaped p -> keeps_terminating p q.
Proof. unfold keeps_terminating, all_terminate. now intros ->. Qed.

Lemma terminating_fork ok body :
  stable keeps_terminating (fork ok true body).
Proof.
  intros p. unfold fork. destruct ok; [|now apply keeps_terminating_same].
  cbn [snd]. intros Hall c Hin. cbn [unreaped] in Hin.
  apply in_app_or in Hin as [Hin|[<-|[]]]; [now apply Hall|].
  apply terminates_halting.
Qed.

Lemma terminating_pipe ok : stable keeps_terminating (pipe ok).
Proof.
  intros p. unfold pipe. destruct ok; now apply keeps_terminating_same.
Qed.

Lemma terminating_close fd : stable keeps_terminating (close fd).
Proof.
  intros p. unfold close.
  destruct (fd_get (fds p) fd); now apply keeps_terminating_same.
Qed.

Lemma terminating_wait ch : stable keeps_terminating (wait ch).
Proof. intros p Hall. now apply wait_returns. Qed.

Lemma terminating_waitpid pid : stable keeps_terminating (waitpid pid).
Proof.
  intros p. unfold waitpid.
  destruct (find _ (unreaped p)) as [[q []]|];
    try now apply keeps_terminating_same.
  cbn [snd]. intros Hall c Hin. cbn [unreaped set_unreaped] in Hin.
  apply filter_In in Hin as [Hin _]. now apply Hall.
Qed.

Lemma terminating_report msg A :
  stable keeps_terminating (perror msg ;; @return_ A).
Proof. intros p. now apply keeps_terminating_same. Qed.

Lemma terminating_create_pipes e n : forall i pipefds,
  stable keeps_terminating (create_pipes e n i pipefds).
Proof.
  pose proof keeps_terminating_refl as Hr.
  pose proof keeps_terminating_trans as Ht.
  induction n as [|n IH]; intros i pipefds; cbn [create_pipes].
  - now apply stable_ret.
  - apply (stable_bind Ht); [apply terminating_pipe|].
    intros [[rd wr]|]; [apply IH | apply terminating_report].
Qed.

(** Neither executor leaves a child that never ends, when the programs
    it starts all end. *)
Lemma terminating_execute_command e tokens :
  halts e 0 = true -> stable keeps_terminating (execute_command e tokens).
Proof.
  pose proof keeps_terminating_refl as Hr.
  pose proof keeps_terminating_trans as Ht.
  intros Hh. unfold execute_command. rewrite Hh. apply stable_call.
  apply (stable_bind Ht).
  { apply (stable_when Hr). now apply stable_return. }
  intros _. apply (stable_bind Ht).
  { apply (stable_when Hr). intros p. now apply keeps_terminating_same. }
  intros _. apply (stable_bind Ht); [apply terminating_fork|].
  intros [pid|]; [apply terminating_waitpid | apply terminating_report].
Qed.

Lemma terminating_execute_pipeline e commands :
  (forall j, halts e j = true) ->
  stable keeps_terminating (execute_pipeline e commands).
Proof.
  pose proof keeps_terminating_refl as Hr.
  pose proof keeps_terminating_trans as Ht.
  intros Hh. unfold execute_pipeline. cbv zeta. apply stable_call.
  apply (stable_bind Ht).
  { apply (stable_when Hr). apply (@stable_undefined _ Hr). }
  intros _. apply (stable_bind Ht); [apply terminating_create_pipes|].
  intros pipefds. apply (stable_bind Ht).
  { apply (stable_for Hr Ht). intros i. unfold spawn_stage. rewrite Hh.
    apply (stable_bind Ht); [apply terminating_fork|].
    intros [pid|]; [now apply stable_ret | apply terminating_report]. }
  intros _. apply (stable_bind Ht).
  { apply (stable_for Hr Ht). intros k. apply terminating_close. }
  intros _. apply (stable_for Hr Ht). intros i. apply terminating_wait.
Qed.

Lemma waitpid_returns pid p :
  all_terminate p -> fst (waitpid pid p) = Normal tt.
Proof.
  intros Hall. unfold waitpid.
  destruct (find _ (unreaped p)) as [[q b]|] eqn:E; [|reflexivity].
  apply find_some in E as [Hin _]. apply Hall in Hin. cbn [snd] in Hin.
  now subst b.
Qed.

(** When its program ends, and every child left over does, the
    single-command executor returns. *)
Lemma execute_command_returns e t ts p :
  t <> quit -> halts e 0 = true -> all_terminate p ->
  fst (execute_command e (t :: ts) p) = Normal tt.
Proof.
  intros Hne Hh Hall. rewrite execute_command_spawns by assumption.
  rewrite Hh. unfold call, bind.
  pose proof (@terminating_fork (fork_ok e 0)
                (exec_tokens (exec_ok e 0) (t :: ts)) p Hall) as Hall'.
  destruct (fork (fork_ok e 0) true (exec_tokens (exec_ok e 0) (t :: ts)) p)
    as [r q] eqn:Ef.
  unfold fork in Ef. destruct (fork_ok e 0); inversion Ef; subst r q;
    [|reflexivity].
  cbn [snd] in Hall'.
  pose proof (waitpid_returns (next_pid p) Hall') as Hw.
  destruct (waitpid (next_pid p) _) as [r q]. cbn [fst] in Hw. now subst r.
Qed.

(** A turn on a line that does not end the interpreter, with programs
    that all end: the loop goes on, whatever else fails. *)
Lemma main_body_returns line e p :
  quit_line line = false -> (forall j, halts e j = true) ->
  all_terminate p ->
  fst (main_body (Some (line, e)) p) = Normal Continue
  /\ all_terminate (snd (main_body (Some (line, e)) p)).
Proof.
  intros Hq Hh Hall. rewrite main_body_line. unfold quit_line in Hq.
  assert (Hall' : all_terminate (log EvPrompt p)) by exact Hall.
  destruct (Nat.eqb (length line) 0); [now split|].
  destruct (str_eqb line quit) eqn:Eq.
  { apply str_eqb_eq in Eq. subst line. discriminate. }
  destruct (split line "|") as [|command [|c2 rest]]; [now split| |].
  - destruct (split command " ") as [|t ts]; [now split|].
    assert (Hne : t <> quit).
    { intros ->. now rewrite str_eqb_refl in Hq. }
    pose proof (@execute_command_returns e t ts (log EvPrompt p) Hne (Hh 0)
                  Hall') as Hr.
    pose proof (@terminating_execute_command e (t :: ts) (Hh 0)
                  (log EvPrompt p) Hall') as Ha.
    unfold bind.
    destruct (execute_command e (t :: ts) (log EvPrompt p)) as [r q].
    cbn [fst snd] in *. subst r. now split.
  - assert (Hn : 1 <= length (command :: c2 :: rest)) by (simpl; lia).
    pose proof (@execute_pipeline_returns e (command :: c2 :: rest)
                  (log EvPrompt p) Hn Hh Hall') as Hr.
    pose proof (@terminating_execute_pipeline e (command :: c2 :: rest) Hh
                  (log EvPrompt p) Hall') as Ha.
    unfold bind.
    destruct (execute_pipeline e (command :: c2 :: rest) (log EvPrompt p))
      as [r q].
    cbn [fst snd] in *. subst r. now split.
Qed.

(** *** The whole run of the interpreter *)

(** Once the loop is back at its top, [main] goes on with the lines that
    are left. *)
Lemma arrives_main before p q :
  arrives before p q -> forall rest, main (before ++ rest) p = main rest q.
Proof.
  induction 1 as [p|line e lines p q q' Hb _ IH]; intros rest; [reflexivity|].
  cbn [app main]. unfold bind. rewrite Hb. apply IH.
Qed.

Lemma arrives_snoc before p q :
  arrives before p q -> forall line e q',
  main_body (Some (line, e)) q = (Normal Continue, q') ->
  arrives (before ++ [(line, e)]) p q'.
Proof.
  induction 1 as [p|l0 e0 lines p q q0 Hb _ IH]; intros line e q' Hn.
  - cbn [app]. eapply arrives_cons; [exact Hn | constructor].
  - cbn [app]. eapply arrives_cons; [exact Hb | now apply IH].
Qed.

(** [main] is over only at the end of the input or on a line that is the
    command [quit], every line before having been executed. *)
Lemma main_over input : forall p,
  (exists status, fst (main input p) = Normal status)
  \/ (exists code, fst (main input p) = Exited code) ->
  exists before rest q,
    input = before ++ rest /\ arrives before p q
    /\ (rest = []
        \/ exists line e tl, rest = (line, e) :: tl /\ quit_line line = true)
    /\ spawned (snd (main input p)) = spawned q
    /\ unreaped (snd (main input p)) = unreaped q.
Proof.
  induction input as [|[line e] tl IH]; intros p Hover.
  - exists [], [], p. split; [reflexivity|]. split; [constructor|].
    split; [now left|]. split; reflexivity.
  - destruct (quit_line line) eqn:Hq.
    + exists [], ((line, e) :: tl), p. split; [reflexivity|].
      split; [constructor|]. split; [right; eauto|].
      cbn [main]. unfold bind.
      destruct (main_body_ends (Some (line, e)) p Hq) as [E|E]; rewrite E;
        split; reflexivity.
    + destruct (@main_body_goes_on line e p Hq) as [Hs _].
      cbn [main] in *. unfold bind in *.
      destruct (main_body (Some (line, e)) p) as [[[]| |c|argv| |] q] eqn:E;
        cbn [fst] in Hs; destruct Hs as [Hs|Hs]; try discriminate.
      * destruct (IH q Hover) as [before [rest [q' [-> [Ha [Hr Hsp]]]]]].
        exists ((line, e) :: before), rest, q'. split; [reflexivity|].
        split; [eapply arrives_cons; eassumption|]. split; assumption.
      * exfalso. cbn [fst] in Hover.
        destruct Hover as [[s Ho]|[c Ho]]; discriminate.
Qed.

(** Lines none of which ends the interpreter, with programs that all
    end, are all executed. *)
Lemma session_arrives input : forall p,
  Forall (fun turn => quit_line (fst turn) = false
                      /\ forall j, halts (snd turn) j = true) input ->
  all_terminate p ->
  exists q, arrives input p q.
Proof.
  induction input as [|[line e] tl IH]; intros p Hall Hp.
  - exists p. constructor.
  - inversion Hall as [|? ? [Hq Hh] Htl]; subst. cbn [fst snd] in *.
    destruct (@main_body_returns line e p Hq Hh Hp) as [Hr Ha].
    destruct (main_body (Some (line, e)) p) as [r q] eqn:E.
    cbn [fst snd] in *. subst r.
    destruct (IH q Htl Ha) as [q' Hq'].
    exists q'. eapply arrives_cons; eassumption.
Qed.

(** C5.  The interpreter process, on any input and from any state.  Once
    it has read and executed some lines of the input, each turn coming
    back to the top of the loop: at the end of the input [main] returns
    0; on a line that is a single command whose first token is [quit],
    [main] returns 0 or [exit(0)] is called, nothing else having been
    done in that turn; on any other line the interpreter is not over,
    whatever fails while the line is executed: it comes back to the top
    of the loop for the next line, or stays in a wait for a child.
    Conversely, when the interpreter is over, its status is 0, and it has
    executed every line before the end of the input or before a [quit]
    command, and spawned no child since.  The process never ends in
    another way.  And when the programs it starts all end, lines none of
    which is a [quit] command are all executed, whichever calls of
    [pipe], [fork], [dup2] and [execvp] fail, and [main] returns 0 at
    the end of the input. *)
Theorem interpreter_ends_on_quit_or_end_of_input
    (input : list (str * env)) (p : proc) :
  let r := fst (main input p) in
  let p' := snd (main input p) in
  (forall before rest q, input = before ++ rest -> arrives before p q ->
     match rest with
     | [] => main input p = (Normal 0%Z, log EvPrompt q)
     | (line, e) :: _ =>
         if quit_line line
         then main input p = (Normal 0%Z, log EvPrompt q)
              \/ main input p
                 = (Exited 0%Z,
                    set_fds [] (log (EvExit 0%Z) (log EvPrompt q)))
         else (exists q', arrives (before ++ [(line, e)]) p q')
              \/ (fst (main_body (Some (line, e)) q) = Blocked
                  /\ main input p
                     = (Blocked, snd (main_body (Some (line, e)) q)))
     end)
  /\ ((exists status, r = Normal status) \/ (exists code, r = Exited code) ->
      (r = Normal 0%Z \/ r = Exited 0%Z)
      /\ exists before rest q,
           input = before ++ rest /\ arrives before p q
           /\ (rest = []
               \/ exists line e tl,
                    rest = (line, e) :: tl /\ quit_line line = true)
           /\ spawned p' = spawned q /\ unreaped p' = unreaped q)
  /\ (r = Normal 0%Z \/ r = Exited 0%Z \/ r = Blocked)
  /\ (Forall (fun turn => quit_line (fst turn) = false
                          /\ forall j, halts (snd turn) j = true) input ->
      all_terminate p ->
      exists q, arrives input p q
                /\ main input p = (Normal 0%Z, log EvPrompt q)).
Proof.
  intros r p'.
  assert (Hstatus : r = Normal 0%Z \/ r = Exited 0%Z \/ r = Blocked).
  { unfold r. pose proof (main_status input p) as H.
    destruct (fst (main input p)) as [s| |c|argv| |];
      try contradiction; subst; auto. }
  split; [|split; [|split; [exact Hstatus|]]].
  - intros before rest q -> Ha. rewrite (arrives_main Ha).
    destruct rest as [|[line e] tl]; [reflexivity|].
    destruct (quit_line line) eqn:Hq.
    + cbn [main]. unfold bind.
      destruct (main_body_ends (Some (line, e)) q Hq) as [E|E]; rewrite E;
        auto.
    + destruct (@main_body_goes_on line e q Hq) as [Hs _].
      cbn [main]. unfold bind.
      destruct (main_body (Some (line, e)) q) as [s q'] eqn:E.
      cbn [fst snd] in *. destruct Hs as [-> | ->].
      * left. exists q'. eapply arrives_snoc; eassumption.
      * right. split; reflexivity.
  - intros Hover. split.
    + destruct Hstatus as [H|[H|H]]; auto.
      rewrite H in Hover. destruct Hover as [[s Ho]|[c Ho]]; discriminate.
    + now apply main_over.
  - intros Hall Hp. destruct (session_arrives Hall Hp) as [q Hq].
    exists q. split; [exact Hq|].
    pose proof (arrives_main Hq []) as Hm. rewrite app_nil_r in Hm.
    rewrite Hm. reflexivity.
Qed.

Lemma interpreter_ends_on_quit_or_end_of_input_witness :
  Forall (fun turn => quit_line (fst turn) = false
                      /\ forall j, halts (snd turn) j = true)
    [(lit "ls", fork_fails_at 0); (lit "nosuch | wc", exec_fails);
     (lit "ls | wc", pipe_fails_at 0)]
  /\ all_terminate boot
  /\ exists q,
       arrives [(lit "ls", fork_fails_at 0); (lit "nosuch | wc", exec_fails);
                (lit "ls | wc", pipe_fails_at 0)] boot q
       /\ main [(lit "ls", fork_fails_at 0); (lit "nosuch | wc", exec_fails);
                (lit "ls | wc", pipe_fails_at 0)] boot
          = (Normal 0%Z, log EvPrompt q).
Proof.
  assert (Hall : Forall (fun turn => quit_line (fst turn) = false
                                     /\ forall j, halts (snd turn) j = true)
                   [(lit "ls", fork_fails_at 0);
                    (lit "nosuch | wc", exec_fails);
                    (lit "ls | wc", pipe_fails_at 0)]).
  { repeat constructor. }
  assert (Hp : all_terminate boot) by (intros c []).
  split; [exact Hall|]. split; [exact Hp|].
  exact (proj2 (proj2 (proj2
           (interpreter_ends_on_quit_or_end_of_input
              [(lit "ls", fork_fails_at 0); (lit "nosuch | wc", exec_fails);
               (lit "ls | wc", pipe_fails_at 0)] boot))) Hall Hp).
Defined.

(** ** A pipeline of one stage *)

(** C7 fails for the command [quit]: the single-command executor ends
    the interpreter, the pipeline executor runs a program called [quit].
    It also fails in an interpreter that still has a child of an earlier,
    failed pipeline to wait for: [wait] in the pipeline executor can
    return for that child, [waitpid] in the single-command executor only
    for the new one. *)
Lemma one_stage_quit_differs :
  execute_pipeline fair [quit] boot
  <> execute_command fair (split quit " ") boot
  /\ (let earlier :=
        snd (execute_pipeline (fork_fails_at 1) [lit "ls"; lit "wc"] boot) in
      unreaped earlier = [(1, true)]
      /\ execute_pipeline fair [lit "ls"] earlier
         <> execute_command fair (split (lit "ls") " ") earlier).
Proof.
  split; [vm_compute; discriminate|].
  split; [reflexivity | vm_compute; discriminate].
Qed.

(** C7, amended.  For a command whose first token is not [quit], given to
    an interpreter that has no child left to wait for, the pipeline
    executor on the pipeline of that one command and the single-command
    executor on its tokens end in the same way and in the same state:
    the same system calls with the same results, the same child, the
    same descriptors. *)
Theorem one_stage_pipeline_is_single_command
    (e : env) (command : str) (p : proc) (t : str) (ts : list str) :
  split command " " = t :: ts -> t <> quit -> unreaped p = [] ->
  execute_pipeline e [command] p = execute_command e (split command " ") p.
Proof.
  intros Hs Hne Hu. rewrite single_stage_run by assumption.
  rewrite Hs. now rewrite execute_command_spawns by assumption.
Qed.

Lemma one_stage_pipeline_is_single_command_witness :
  split (lit "ls -l") " " = [lit "ls"; lit "-l"]
  /\ lit "ls" <> quit
  /\ unreaped boot = []
  /\ execute_pipeline fair [lit "ls -l"] boot
     = execute_command fair (split (lit "ls -l") " ") boot.
Proof.
  assert (H1 : split (lit "ls -l") " " = [lit "ls"; lit "-l"])
    by reflexivity.
  assert (H2 : lit "ls" <> quit) by (vm_compute; discriminate).
  split; [exact H1|]. split; [exact H2|]. split; [reflexivity|].
  exact (@one_stage_pipeline_is_single_command fair (lit "ls -l") boot
           (lit "ls") [lit "-l"] H1 H2 eq_refl).
Defined.

(** ** [quit] inside a pipeline *)

(** C10 fails where it says that [execute_pipeline] always returns: with
    a stage whose program never ends, the interpreter stays in [wait]. *)
Lemma pipeline_blocks_on_endless_stage :
  fst (execute_pipeline never_halting [lit "quit"; lit "cat"] boot) = Blocked
  /\ fst (execute_pipeline never_halting [lit "quit"; lit "cat"] boot)
     <> Normal tt.
Proof. vm_compute. split; [reflexivity | discriminate]. Qed.

(** C10, amended.  In a pipeline of at least two stages nothing treats
    [quit] specially.  The interpreter never ends inside
    [execute_pipeline]: the call returns or is blocked in a wait, and it
    returns whenever every program of the pipeline ends and every child
    left over from earlier ends; no [exit] is among its system calls.
    The child of a stage that made its redirections and has fewer than
    [MAX_ARGS] tokens hands them to [execvp], whatever the first token
    [t] is, [quit] included, and then is that program, or reports the
    failure of [execvp] and ends with [EXIT_FAILURE]. *)
Theorem pipeline_never_quits (e : env) (commands : list str) (p : proc) :
  2 <= length commands ->
  let N := length commands in
  let r := fst (execute_pipeline e commands p) in
  let p' := snd (execute_pipeline e commands p) in
  (r = Normal tt \/ r = Blocked)
  /\ ((forall i, halts e i = true) ->
      (forall c, In c (unreaped p) -> snd c = true) -> r = Normal tt)
  /\ (forall ev, In ev (trace p') -> is_exit ev -> In ev (trace p))
  /\ (forall i t ts,
      i < N ->
      (forall j, j < N - 1 -> pipe_ok e j = true) ->
      (forall j, j <= i -> fork_ok e j = true) ->
      i = 0 \/ dup_in_ok e i = true ->
      N - 1 <= i \/ dup_out_ok e i = true ->
      split (nth i commands []) " " = t :: ts ->
      length (t :: ts) < MAX_ARGS ->
      exists c,
        nth_error (spawned p') (length (spawned p) + i) = Some c
        /\ In (EvExecvp (map c_str (t :: ts)) (exec_ok e i)) (c_trace c)
        /\ c_end c = (if exec_ok e i then Replaced (map c_str (t :: ts))
                      else Exited EXIT_FAILURE)).
Proof.
  intros HN N r p'.
  assert (Hn : 1 <= length commands) by lia.
  split; [apply execute_pipeline_stays; assumption|].
  split; [intros Hh Hall; now apply execute_pipeline_returns|].
  split.
  - intros ev Hin Hex.
    destruct (@adds_execute_pipeline (fun ev => ~ is_exit ev)) with
      (e := e) (commands := commands) (p := p) as [evs [Htr Hevs]];
      simpl; auto.
    fold p' in Htr. rewrite Htr in Hin.
    apply in_app_or in Hin as [Hin|Hin]; [assumption|].
    rewrite Forall_forall in Hevs. now apply Hevs in Hin.
  - intros i t ts Hi Hp Hf Hin Hout Hs Hlen.
    destruct (@stage_child e commands p i Hp Hf Hi) as [pipefds [p1 [A Hc]]].
    fold N in A, Hc. fold p' in Hc.
    eexists. split; [exact Hc|].
    pose proof (@pipeline_child_redirected e commands pipefds N i
                  (al_length A) (al_nodup A) Hi (child_start (fds p1))
                  (allocated_opened A) Hin Hout) as Hrun.
    rewrite Hs, exec_tokens_run in Hrun by assumption.
    destruct (exec_ok e i);
      erewrite run_child_eq by exact Hrun; cbn [c_trace c_end].
    + split; [|reflexivity]. cbn [log trace]. apply in_or_app. right.
      now left.
    + split; [|reflexivity]. cbn [log set_fds trace].
      rewrite <- !app_assoc. apply in_or_app. right. now left.
Qed.

Lemma pipeline_never_quits_witness :
  2 <= length [lit "quit"; lit "cat"]
  /\ (fst (execute_pipeline fair [lit "quit"; lit "cat"] boot) = Normal tt
      \/ fst (execute_pipeline fair [lit "quit"; lit "cat"] boot) = Blocked)
  /\ exists c,
       nth_error (spawned (snd (execute_pipeline fair [lit "quit"; lit "cat"]
                                  boot))) 0 = Some c
       /\ In (EvExecvp [quit] true) (c_trace c)
       /\ c_end c = Replaced [quit].
Proof.
  assert (H2 : 2 <= length [lit "quit"; lit "cat"]) by (simpl; lia).
  destruct (@pipeline_never_quits fair [lit "quit"; lit "cat"] boot H2)
    as [Hr [_ [_ Hq]]].
  split; [exact H2|]. split; [exact Hr|].
  assert (H0 : 0 < length [lit "quit"; lit "cat"]) by (simpl; lia).
  assert (H64 : length [quit] < MAX_ARGS) by (vm_compute; lia).
  destruct (Hq 0 quit [] H0 (fun _ _ => eq_refl) (fun _ _ => eq_refl)
              (or_introl eq_refl) (or_intror eq_refl) eq_refl H64)
    as [c Hc].
  exists c. exact Hc.
Defined.

(** * Further properties of the code *)

(** ** The tokenizer *)

Lemma pieces_nonnil d s : pieces d s <> [].
Proof.
  destruct s as [|c s]; simpl; [discriminate|].
  destruct (Ascii.eqb c d); [discriminate|].
  destruct (pieces d s); discriminate.
Qed.

Lemma trim_left_nil_iff p :
  trim_left p = [] <-> Forall (fun c => is_blank c = true) p.
Proof.
  induction p as [|c p IH]; simpl.
  - split; auto.
  - destruct (is_blank c) eqn:E.
    + rewrite IH. split; [intros H; constructor; auto|].
      intros H. now inversion H.
    + split; [discriminate|]. intros H. inversion H. congruence.
Qed.

Lemma trim_nil_iff p : trim p = [] <-> Forall (fun c => is_blank c = true) p.
Proof.
  rewrite <- trim_left_nil_iff. unfold trim. split.
  - intros H. destruct (trim_left p) as [|c r] eqn:E; auto. exfalso.
    assert (Hc : not_blank_opt (first_char (trim_left p))).
    { apply trim_left_first. rewrite E. discriminate. }
    rewrite E in Hc. simpl in Hc, H.
    destruct (trim_right r); [rewrite Hc in H|]; discriminate.
  - intros ->. reflexivity.
Qed.

Lemma tokenize_spec_nil_iff d s :
  tokenize_spec s d = [] <-> Forall (fun p => trim p = []) (pieces d s).
Proof.
  unfold tokenize_spec. induction (pieces d s) as [|p ps IH]; simpl.
  - split; auto.
  - destruct (trim p) eqn:E; simpl.
    + rewrite IH. split; [intros H; constructor; auto|].
      intros H. now inversion H.
    + split; [discriminate|]. intros H. inversion H. congruence.
Qed.

Lemma pieces_blank_iff d s :
  Forall (fun p => trim p = []) (pieces d s)
  <-> Forall (fun c => c = d \/ is_blank c = true) s.
Proof.
  induction s as [|c s IH]; simpl.
  - split; intros _; repeat constructor.
  - destruct (Ascii.eqb_spec c d) as [->|Hne].
    + split; intros H; inversion H; subst; constructor; auto; now apply IH.
    + assert (Hc : forall p, trim (c :: p) = []
                             <-> is_blank c = true /\ trim p = []).
      { intros p. rewrite !trim_nil_iff. split.
        - intros H. now inversion H.
        - intros [H1 H2]. now constructor. }
      destruct (pieces d s) as [|p ps] eqn:E.
      * exfalso. now apply (@pieces_nonnil d s).
      * split; intros H; inversion H as [|? ? H1 H2]; subst.
        -- apply Hc in H1 as [Hb Hp]. constructor; [now right|].
           apply IH. now constructor.
        -- destruct H1 as [H1|H1]; [contradiction|].
           apply IH in H2. inversion H2; subst.
           constructor; auto. apply Hc. auto.
Qed.

(** X1.  [split] returns no token at all exactly for the strings that
    hold nothing but delimiters, spaces and tabs (the empty string
    among them). *)
Theorem split_nothing_iff (s : str) (d : ascii) :
  split s d = [] <-> Forall (fun c => c = d \/ is_blank c = true) s.
Proof.
  rewrite split_tokenize_spec, tokenize_spec_nil_iff. apply pieces_blank_iff.
Qed.

Lemma pieces_app d a b :
  pieces d (a ++ d :: b) = pieces d a ++ pieces d b.
Proof.
  induction a as [|c a IH]; simpl.
  - now rewrite Ascii.eqb_refl.
  - destruct (Ascii.eqb c d); [now rewrite IH|].
    rewrite IH. destruct (pieces d a) as [|p ps] eqn:E; [|reflexivity].
    exfalso. now apply (@pieces_nonnil d a).
Qed.

(** X2.  [split] works piece by piece: the tokens of two strings put
    together with a delimiter between them are the tokens of the first
    followed by the tokens of the second; and a string without the
    delimiter gives its trimmed self as the only token, or nothing when
    it is blank. *)
Theorem split_piecewise (a b : str) (d : ascii) :
  split (a ++ d :: b) d = split a d ++ split b d
  /\ (~ In d a ->
      split a d = if nonempty (trim a) then [trim a] else []).
Proof.
  rewrite !split_tokenize_spec. unfold tokenize_spec. split.
  - now rewrite pieces_app, map_app, filter_app.
  - intros Hn. rewrite pieces_single by assumption. reflexivity.
Qed.

Lemma pieces_length d s :
  length (pieces d s) = S (count_occ ascii_dec s d).
Proof.
  induction s as [|c s IH]; simpl; auto.
  destruct (Ascii.eqb_spec c d) as [->|Hne].
  - destruct (ascii_dec d d); [|contradiction]. simpl. now rewrite IH.
  - destruct (ascii_dec c d); [contradiction|].
    destruct (pieces d s); simpl in *; lia.
Qed.

Lemma pieces_chars d s :
  forall p, In p (pieces d s) -> forall c, In c p -> In c s.
Proof.
  induction s as [|c s IH]; simpl; intros p Hp x Hx.
  - destruct Hp as [<-|[]]. destruct Hx.
  - destruct (Ascii.eqb c d).
    + destruct Hp as [<-|Hp]; [destruct Hx|]. right. eapply IH; eauto.
    + destruct (pieces d s) as [|q qs].
      * destruct Hp as [<-|[]]. destruct Hx as [<-|[]]. now left.
      * destruct Hp as [<-|Hp].
        -- destruct Hx as [<-|Hx]; [now left|]. right.
           apply (IH q); simpl; auto.
        -- right. apply (IH p); simpl; auto.
Qed.

Lemma filter_length_bound A (f : A -> bool) l :
  length (filter f l) <= length l.
Proof.
  induction l as [|a l IH]; simpl; auto. destruct (f a); simpl; lia.
Qed.

(** X3.  [split] returns at most one token more than the string has
    delimiters, and a token holds only characters of the string. *)
Theorem split_bounds (s : str) (d : ascii) :
  length (split s d) <= S (count_occ ascii_dec s d)
  /\ forall t, In t (split s d) -> forall c, In c t -> In c s.
Proof.
  rewrite split_tokenize_spec. unfold tokenize_spec. split.
  - etransitivity; [apply filter_length_bound|].
    now rewrite length_map, pieces_length.
  - intros t Ht c Hc. apply filter_In in Ht as [Ht _].
    apply in_map_iff in Ht as [p [<- Hp]].
    apply (pieces_chars d s p Hp). unfold trim in Hc.
    now apply trim_left_incl, trim_right_incl.
Qed.

(** X4.  A stage that the driver cuts out of a line at the pipe signs is
    never without arguments: cut at the spaces, it gives at least one
    token, so no executor is handed a command without a program name by
    [main]. *)
Theorem stage_has_a_program (input command : str) :
  In command (split input "|") -> split command " " <> [].
Proof.
  intros Hin.
  pose proof (split_tokens_ok input "|") as Hok.
  rewrite Forall_forall in Hok. destruct (Hok command Hin) as [Hne Hf _ _].
  destruct command as [|c r]; [congruence|]. cbn in Hf.
  intros H.
  rewrite split_tokenize_spec, tokenize_spec_nil_iff, pieces_blank_iff in H.
  inversion H as [|? ? [Hc|Hc] _]; subst.
  - discriminate.
  - congruence.
Qed.

Lemma stage_has_a_program_witness :
  In (lit "ls -l") (split (lit "ls -l | wc") "|")
  /\ split (lit "ls -l") " " <> [].
Proof.
  assert (H : In (lit "ls -l") (split (lit "ls -l | wc") "|"))
    by (vm_compute; left; reflexivity).
  split; [exact H|].
  exact (@stage_has_a_program (lit "ls -l | wc") (lit "ls -l") H).
Defined.

(** ** The argument vector *)

Lemma c_str_without_zero s : ~ In zero s -> c_str s = s.
Proof.
  induction s as [|c s IH]; simpl; auto. intros Hn.
  destruct (Ascii.eqb_spec c zero) as [->|_]; [tauto|].
  rewrite IH; tauto.
Qed.

(** X5.  With fewer than [MAX_ARGS] tokens [get_args] stays inside the
    array and what [execvp] reads back from it, up to the null entry, are
    the tokens as C strings, in order; they are the tokens themselves
    when none holds a zero byte. *)
Theorem get_args_round_trip (parts : list str) :
  length parts < MAX_ARGS ->
  exists args,
    get_args parts (repeat Garbage MAX_ARGS) = Some args
    /\ length args = MAX_ARGS
    /\ argv_of args = Some (map c_str parts)
    /\ (Forall (fun s => ~ In zero s) parts -> argv_of args = Some parts).
Proof.
  intros Hlen. eexists. split; [now apply get_args_fits|].
  split; [|split].
  - rewrite length_app, length_map. cbn [length]. rewrite repeat_length. lia.
  - apply argv_of_args.
  - intros Hz. rewrite argv_of_args. f_equal. clear Hlen.
    induction Hz as [|s l Hs _ IH]; simpl; auto.
    rewrite IH, c_str_without_zero by assumption. reflexivity.
Qed.

Lemma get_args_round_trip_witness :
  length [lit "ls"; lit "-l"] < MAX_ARGS
  /\ exists args,
       get_args [lit "ls"; lit "-l"] (repeat Garbage MAX_ARGS) = Some args
       /\ argv_of args = Some [lit "ls"; lit "-l"].
Proof.
  assert (H : length [lit "ls"; lit "-l"] < MAX_ARGS) by (vm_compute; lia).
  split; [exact H|].
  destruct (@get_args_round_trip [lit "ls"; lit "-l"] H)
    as [args [Hg [_ [Ha _]]]].
  exists args. split; [exact Hg | exact Ha].
Defined.

(** X6.  [get_args] stores outside [args[MAX_ARGS]] exactly when it is
    given [MAX_ARGS] tokens or more: the null entry takes the place after
    the last token. *)
Theorem get_args_overflows_iff (parts : list str) :
  get_args parts (repeat Garbage MAX_ARGS) = None
  <-> MAX_ARGS <= length parts.
Proof.
  split.
  - intros H. destruct (Nat.lt_ge_cases (length parts) MAX_ARGS) as [Hl|Hl];
      auto.
    rewrite get_args_fits in H by assumption. discriminate.
  - apply get_args_overflow.
Qed.

(** ** The single-command executor *)

(** X7.  When [fork] fails for a command that is not [quit], the
    single-command executor reports it and returns: the two events are
    all it does, there is no child and nothing to wait for. *)
Theorem single_command_fork_failure
    (e : env) (t : str) (ts : list str) (p : proc) :
  t <> quit -> fork_ok e 0 = false ->
  execute_command e (t :: ts) p
  = (Normal tt, log (EvPerror "Fork failed") (log EvForkFailed p)).
Proof.
  intros Hne Hf. rewrite execute_command_spawns by assumption.
  unfold call, bind, fork. rewrite Hf. reflexivity.
Qed.

Lemma single_command_fork_failure_witness :
  lit "ls" <> quit
  /\ fork_ok (fork_fails_at 0) 0 = false
  /\ execute_command (fork_fails_at 0) [lit "ls"] boot
     = (Normal tt, log (EvPerror "Fork failed") (log EvForkFailed boot)).
Proof.
  assert (H : lit "ls" <> quit) by (vm_compute; discriminate).
  split; [exact H|]. split; [reflexivity|].
  exact (@single_command_fork_failure (fork_fails_at 0) (lit "ls") [] boot
           H eq_refl).
Defined.

Lemma find_fresh pid h (u : list (nat * bool)) :
  ~ In pid (map fst u) ->
  find (fun c => Nat.eqb (fst c) pid) (u ++ [(pid, h)]) = Some (pid, h).
Proof.
  induction u as [|[q b] u IH]; simpl; intros Hn.
  - now rewrite Nat.eqb_refl.
  - destruct (Nat.eqb_spec q pid) as [->|_]; [tauto|]. apply IH. tauto.
Qed.

Lemma remove_fresh pid h (u : list (nat * bool)) :
  ~ In pid (map fst u) -> remove_pid pid (u ++ [(pid, h)]) = u.
Proof.
  unfold remove_pid. induction u as [|[q b] u IH]; simpl; intros Hn.
  - now rewrite Nat.eqb_refl.
  - destruct (Nat.eqb_spec q pid) as [->|_]; [tauto|]. simpl.
    rewrite IH; tauto.
Qed.

(** X8.  A command of fewer than [MAX_ARGS] tokens that is not [quit],
    once forked: the child hands the tokens to [execvp] and, with the
    descriptors of the interpreter unchanged, is that program, or reports
    the failure of [execvp] and ends with [EXIT_FAILURE]; the interpreter
    keeps its descriptors, waits for this child and no other, and returns
    with it reaped, unless the program never ends, in which case it stays
    in [waitpid]. *)
Theorem single_command_runs
    (e : env) (t : str) (ts : list str) (p : proc) :
  t <> quit -> length (t :: ts) < MAX_ARGS -> fork_ok e 0 = true ->
  ~ In (next_pid p) (map fst (unreaped p)) ->
  let pid := next_pid p in
  let argv := map c_str (t :: ts) in
  let r := fst (execute_command e (t :: ts) p) in
  let p' := snd (execute_command e (t :: ts) p) in
  fds p' = fds p
  /\ (exists c,
        spawned p' = spawned p ++ [c] /\ c_pid c = pid
        /\ if exec_ok e 0
           then c_end c = Replaced argv /\ c_fds c = fds p
                /\ c_trace c = [EvExecvp argv true]
           else c_end c = Exited EXIT_FAILURE
                /\ c_trace c = [EvExecvp argv false;
                                EvPerror "Execvp failed";
                                EvExit EXIT_FAILURE])
  /\ if exec_ok e 0 && negb (halts e 0)
     then r = Blocked /\ trace p' = trace p ++ [EvFork pid]
          /\ unreaped p' = unreaped p ++ [(pid, false)]
     else r = Normal tt /\ trace p' = trace p ++ [EvFork pid; EvReaped pid]
          /\ unreaped p' = unreaped p.
Proof.
  intros Hne Hlen Hf Hfresh pid argv r p'.
  unfold r, p'. rewrite execute_command_spawns by assumption.
  unfold call, bind. rewrite Hf, fork_ok_run.
  pose proof (@exec_tokens_run (exec_ok e 0) t ts (child_start (fds p)) Hlen)
    as Hrun.
  fold pid. fold argv in Hrun.
  destruct (exec_ok e 0); erewrite run_child_eq by exact Hrun;
    cbn [c_end terminates]; unfold waitpid; cbn [unreaped];
    [destruct (halts e 0)|]; rewrite find_fresh by assumption;
    cbn [fst snd andb negb fds set_unreaped log trace spawned unreaped];
    rewrite ?remove_fresh by assumption;
    (split; [reflexivity|]); (split; [|rewrite <- ?app_assoc; auto]);
    eexists; (split; [reflexivity|]); cbn [c_pid c_end c_fds c_trace];
    auto.
Qed.

Lemma single_command_runs_witness :
  lit "ls" <> quit
  /\ length [lit "ls"; lit "-l"] < MAX_ARGS
  /\ ~ In (next_pid boot) (map fst (unreaped boot))
  /\ fst (execute_command fair [lit "ls"; lit "-l"] boot) = Normal tt
  /\ unreaped (snd (execute_command fair [lit "ls"; lit "-l"] boot)) = [].
Proof.
  assert (H1 : lit "ls" <> quit) by (vm_compute; discriminate).
  assert (H2 : length [lit "ls"; lit "-l"] < MAX_ARGS) by (vm_compute; lia).
  assert (H3 : ~ In (next_pid boot) (map fst (unreaped boot)))
    by (intros []).
  split; [exact H1|]. split; [exact H2|]. split; [exact H3|].
  destruct (@single_command_runs fair (lit "ls") [lit "-l"] boot H1 H2
              eq_refl H3) as [_ [_ [Hr [_ Hu]]]].
  split; [exact Hr | exact Hu].
Defined.

(** What the single-command executor does to the interpreter, whatever
    its tokens. *)
Lemma execute_command_footprint
    (e : env) (cmd_tokens : list str) (p : proc) :
  let r := fst (execute_command e cmd_tokens p) in
  let p' := snd (execute_command e cmd_tokens p) in
  (exists evs,
     trace p' = trace p ++ evs
     /\ Forall (fun ev => ~ is_pipe ev /\ ev <> EvPipeFailed
                          /\ ~ is_dup2 ev /\ ~ is_close ev) evs)
  /\ (fds p' = fds p \/ r = Exited 0%Z)
  /\ length (spawned p') <= S (length (spawned p))
  /\ next_chan p' = next_chan p.
Proof.
  intros r p'. unfold r, p'. clear r p'.
  assert (Hq : forall ev : event,
             (ev = EvForkFailed \/ (exists m, ev = EvPerror m)
              \/ (exists c, ev = EvExit c) \/ (exists c, ev = EvFork c)
              \/ (exists c, ev = EvReaped c) \/ ev = EvNoChild) ->
             ~ is_pipe ev /\ ev <> EvPipeFailed
             /\ ~ is_dup2 ev /\ ~ is_close ev).
  { intros ev [->|[[m ->]|[[c ->]|[[c ->]|[[c ->]| ->]]]]]; simpl;
      repeat split; auto; discriminate. }
  destruct cmd_tokens as [|t ts].
  - rewrite execute_command_empty. cbn [fst snd].
    split; [exists []; now rewrite app_nil_r|]. auto.
  - destruct (str_eqb t quit) eqn:Eq.
    + apply str_eqb_eq in Eq. subst t. rewrite execute_command_quit.
      cbn [fst snd set_fds log trace spawned next_chan].
      split; [exists [EvExit 0%Z]; split; [reflexivity|]|auto].
      constructor; [|constructor]. apply Hq. eauto 7.
    + assert (Hne : t <> quit).
      { intros ->. now rewrite str_eqb_refl in Eq. }
      rewrite execute_command_spawns by assumption.
      unfold call, bind, fork.
      destruct (fork_ok e 0).
      * unfold waitpid. cbn [unreaped].
        destruct (find _ _) as [[q []]|];
          cbn [fst snd set_unreaped log trace fds spawned next_chan];
          rewrite ?length_app; cbn [length];
          (split; [|split; [now left|split; [lia | reflexivity]]]);
          rewrite <- ?app_assoc; eexists; (split; [reflexivity|]);
          repeat (constructor; [apply Hq; eauto 9|]); constructor.
      * cbn [fst snd perror emit return_ log trace fds spawned next_chan].
        split; [|auto].
        rewrite <- app_assoc. eexists; split; [reflexivity|].
        repeat (constructor; [apply Hq; eauto 9|]); constructor.
Qed.

(** X9.  Whatever its tokens and whatever the environment does, the
    single-command executor makes no channel, duplicates and closes no
    descriptor, forks at most one child, and leaves the descriptors of
    the interpreter as they were unless it ends it with status 0. *)
Theorem single_command_footprint
    (e : env) (cmd_tokens : list str) (p : proc) :
  let r := fst (execute_command e cmd_tokens p) in
  let p' := snd (execute_command e cmd_tokens p) in
  (exists evs,
     trace p' = trace p ++ evs
     /\ Forall (fun ev => ~ is_pipe ev /\ ev <> EvPipeFailed
                          /\ ~ is_dup2 ev /\ ~ is_close ev) evs)
  /\ (fds p' = fds p \/ r = Exited 0%Z)
  /\ length (spawned p') <= S (length (spawned p))
  /\ next_chan p' = next_chan p.
Proof. exact (execute_command_footprint e cmd_tokens p). Qed.

(** ** The pipeline executor *)

Lemma complete_pipeline_closes_each_end_once_witness :
  1 <= length [lit "ls"; lit "wc"]
  /\ exists pipefds reaps,
       length pipefds = 2 * (2 - 1)
       /\ NoDup pipefds
       /\ trace (snd (execute_pipeline fair [lit "ls"; lit "wc"] boot))
          = trace boot ++ pipe_events pipefds
              ++ map EvFork (seq (next_pid boot) 2)
              ++ close_events pipefds ++ reaps
       /\ forall fd,
            fd_get (fds (snd (execute_pipeline fair [lit "ls"; lit "wc"]
                                boot))) fd
            = fd_get (fds boot) fd.
Proof.
  assert (H1 : 1 <= length [lit "ls"; lit "wc"]) by (simpl; lia).
  split; [exact H1|].
  destruct (@complete_pipeline_closes_each_end_once fair [lit "ls"; lit "wc"]
              boot H1 (fun _ _ => eq_refl) (fun _ _ => eq_refl))
    as [pipefds [reaps [Hl [Hn [Ht [_ [Hf _]]]]]]].
  exists pipefds, reaps. auto.
Defined.

Lemma filter_all_terminate (u : list (nat * bool)) :
  (forall c, In c u -> snd c = true) -> filter snd u = u.
Proof.
  induction u as [|c u IH]; simpl; intros H; auto.
  rewrite (H c (or_introl eq_refl)), IH; auto.
Qed.

Lemma remove_pid_absent pid (u : list (nat * bool)) :
  ~ In pid (map fst u) -> remove_pid pid u = u.
Proof.
  unfold remove_pid. induction u as [|[q b] u IH]; simpl; intros Hn; auto.
  destruct (Nat.eqb_spec q pid) as [->|_]; [tauto|]. simpl.
  rewrite IH; tauto.
Qed.

Lemma remove_pid_once pid (u : list (nat * bool)) :
  NoDup (map fst u) -> In pid (map fst u) ->
  Permutation (pid :: map fst (remove_pid pid u)) (map fst u)
  /\ S (length (remove_pid pid u)) = length u
  /\ NoDup (map fst (remove_pid pid u)).
Proof.
  induction u as [|[q b] u IH]; simpl; intros Hnd Hin; [tauto|].
  inversion Hnd as [|? ? Hq Hnd']; subst.
  unfold remove_pid in *. cbn [filter fst].
  destruct (Nat.eqb_spec q pid) as [->|Hne]; cbn [negb].
  - fold (remove_pid pid u). rewrite remove_pid_absent by assumption.
    auto.
  - destruct Hin as [Hin|Hin]; [contradiction|].
    destruct (IH Hnd' Hin) as [Hp [Hl Hn]]. cbn [map fst length].
    split; [|split; [lia|]].
    + eapply perm_trans; [apply perm_swap|]. now apply perm_skip.
    + constructor; auto. intros Hc. apply Hq.
      apply in_map_iff in Hc as [[q' b'] [Hf Hc]]. simpl in Hf. subst q'.
      apply filter_In in Hc as [Hc _].
      apply in_map_iff. now exists (q, b').
Qed.

(** A wait with children that all terminate reaps one of them. *)
Lemma wait_reaps ch p :
  all_terminate p -> unreaped p <> [] ->
  exists pid,
    In pid (map fst (unreaped p))
    /\ wait ch p
       = (Normal tt,
          set_unreaped (remove_pid pid (unreaped p)) (log (EvReaped pid) p)).
Proof.
  unfold all_terminate, wait. intros Hall Hne.
  destruct (unreaped p) as [|c u] eqn:E; [congruence|].
  rewrite filter_all_terminate by assumption. cbn [map].
  eexists. split; [|reflexivity].
  apply nth_In. apply Nat.mod_upper_bound. discriminate.
Qed.

Lemma waits_reap_all ch n : forall i p,
  all_terminate p -> NoDup (map fst (unreaped p)) ->
  length (unreaped p) = n ->
  exists pids,
    Permutation pids (map fst (unreaped p))
    /\ for_ n i (fun _ => wait ch) p
       = (Normal tt, reaped pids p).
Proof.
  induction n as [|n IH]; intros i p Hall Hnd Hlen.
  - exists []. destruct p as [f t u s np nc]. cbn in *.
    destruct u; [|discriminate]. split; [constructor|].
    unfold ret, reaped. cbn. now rewrite app_nil_r.
  - assert (Hne : unreaped p <> []) by (destruct (unreaped p); discriminate).
    destruct (wait_reaps ch Hall Hne) as [pid [Hin Hw]].
    destruct (@remove_pid_once pid (unreaped p) Hnd Hin) as [Hp [Hl Hn]].
    cbn [for_]. erewrite bind_normal by exact Hw.
    destruct (IH (S i)
                (set_unreaped (remove_pid pid (unreaped p))
                   (log (EvReaped pid) p))) as [pids [Hperm Hrun]].
    + intros c Hc. cbn [unreaped set_unreaped] in Hc.
      apply filter_In in Hc as [Hc _]. now apply Hall.
    + exact Hn.
    + cbn [unreaped set_unreaped]. lia.
    + exists (pid :: pids). split.
      * eapply perm_trans; [apply perm_skip, Hperm | exact Hp].
      * rewrite Hrun. unfold reaped.
        cbn [fds trace spawned next_pid next_chan set_unreaped log map].
        now rewrite <- app_assoc.
Qed.

(** The whole run of a pipeline for which nothing is refused and whose
    programs all end, by an interpreter without children. *)
Lemma execute_pipeline_waits e commands p :
  let N := length commands in
  1 <= N -> unreaped p = [] ->
  (forall j, j < N - 1 -> pipe_ok e j = true) ->
  (forall j, j < N -> fork_ok e j = true) ->
  (forall j, halts e j = true) ->
  exists pipefds p1 pids,
    allocated (N - 1) p pipefds p1
    /\ Permutation pids (seq (next_pid p) N)
    /\ execute_pipeline e commands p
       = (Normal tt,
          reaped pids (closed pipefds (forked e commands pipefds N N 0 p1))).
Proof.
  intros N Hn Hu Hp Hf Hh.
  destruct (@execute_pipeline_spawns_all e commands Hn p Hp Hf)
    as [pipefds [p1 [A Hrun]]].
  fold N in A, Hrun.
  set (cs := kids e commands pipefds N (fds p1) N 0 (next_pid p1)).
  set (pc := closed pipefds (forked e commands pipefds N N 0 p1)) in *.
  assert (Hun : unreaped pc = kids_halt e cs 0).
  { unfold pc, closed, forked. cbn [unreaped]. fold cs.
    now rewrite (al_unreaped A), Hu. }
  assert (Hpids : map fst (unreaped pc) = seq (next_pid p) N).
  { rewrite Hun, kids_halt_pids. unfold cs.
    now rewrite kids_c_pids, (al_next_pid A). }
  destruct (@waits_reap_all (pick e) N 0 pc) as [pids [Hperm Hw]].
  - intros c Hc. rewrite Hun in Hc. eapply kids_halt_all; eassumption.
  - rewrite Hpids. apply seq_NoDup.
  - rewrite Hun, kids_halt_length. apply kids_length.
  - exists pipefds, p1, pids. split; [exact A|].
    split; [now rewrite <- Hpids|].
    rewrite Hrun. unfold call. now rewrite Hw.
Qed.

(** X11.  A pipeline whose channels and processes were all created, whose
    programs all end, run by an interpreter with no child left over: the
    executor returns after waiting once for each of its [N] children,
    with no child left to wait for. *)
Theorem complete_pipeline_reaps_each_child_once
    (e : env) (commands : list str) (p : proc) :
  let N := length commands in
  let r := fst (execute_pipeline e commands p) in
  let p' := snd (execute_pipeline e commands p) in
  1 <= N -> unreaped p = [] ->
  (forall j, j < N - 1 -> pipe_ok e j = true) ->
  (forall j, j < N -> fork_ok e j = true) ->
  (forall j, halts e j = true) ->
  exists pipefds pids,
    r = Normal tt
    /\ unreaped p' = []
    /\ Permutation pids (seq (next_pid p) N)
    /\ trace p' = trace p ++ pipe_events pipefds
                    ++ map EvFork (seq (next_pid p) N)
                    ++ close_events pipefds ++ map EvReaped pids
    /\ length (spawned p') = length (spawned p) + N.
Proof.
  intros N r p' Hn Hu Hp Hf Hh.
  destruct (@execute_pipeline_waits e commands p Hn Hu Hp Hf Hh)
    as [pipefds [p1 [pids [A [Hperm Hrun]]]]].
  fold N in A, Hrun.
  exists pipefds, pids. unfold r, p'. rewrite Hrun.
  cbn [fst snd reaped unreaped trace spawned].
  split; [reflexivity|]. split; [reflexivity|]. split; [exact Hperm|].
  unfold closed, forked. cbn [trace spawned]. split.
  - rewrite kids_pids, (al_trace A), (al_next_pid A).
    unfold close_events. now rewrite <- !app_assoc.
  - rewrite length_app, kids_length, (al_spawned A). reflexivity.
Qed.

Lemma complete_pipeline_reaps_each_child_once_witness :
  1 <= length [lit "ls"; lit "wc"]
  /\ unreaped boot = []
  /\ fst (execute_pipeline fair [lit "ls"; lit "wc"] boot) = Normal tt
  /\ unreaped (snd (execute_pipeline fair [lit "ls"; lit "wc"] boot)) = [].
Proof.
  assert (H1 : 1 <= length [lit "ls"; lit "wc"]) by (simpl; lia).
  split; [exact H1|]. split; [reflexivity|].
  destruct (@complete_pipeline_reaps_each_child_once fair
              [lit "ls"; lit "wc"] boot H1 eq_refl (fun _ _ => eq_refl)
              (fun _ _ => eq_refl) (fun _ => eq_refl))
    as [pipefds [pids [Hr [Hu _]]]].
  split; [exact Hr | exact Hu].
Defined.

(** ** The driver loop *)

(** X12.  A line that holds nothing but pipe signs, spaces and tabs is
    answered by the next prompt: no executor is called, nothing is
    created, and the loop goes on. *)
Theorem blank_line_only_prompts (input : str) (e : env) (p : proc) :
  Forall (fun c => c = "|"%char \/ is_blank c = true) input ->
  main_body (Some (input, e)) p = (Normal Continue, log EvPrompt p).
Proof.
  intros H. rewrite main_body_line.
  destruct (Nat.eqb (length input) 0); [reflexivity|].
  destruct (str_eqb input quit) eqn:Eq.
  { apply str_eqb_eq in Eq. subst input. exfalso.
    assert (Hq : quit = "q"%char :: lit "uit") by reflexivity.
    rewrite Hq in H. inversion H as [|? ? [Hc|Hc] _]; discriminate. }
  assert (Hs : split input "|" = []).
  { now rewrite split_tokenize_spec, tokenize_spec_nil_iff, pieces_blank_iff. }
  rewrite Hs. reflexivity.
Qed.

Lemma blank_line_only_prompts_witness :
  Forall (fun c => c = "|"%char \/ is_blank c = true) (lit " | |  ")
  /\ main_body (Some (lit " | |  ", never_halting)) boot
     = (Normal Continue, log EvPrompt boot).
Proof.
  assert (H : Forall (fun c => c = "|"%char \/ is_blank c = true)
                (lit " | |  ")).
  { repeat constructor; (now left) || (now right). }
  split; [exact H|].
  exact (@blank_line_only_prompts (lit " | |  ") never_halting boot H).
Defined.

(** The single-command executor in a cooperative environment, called
    without a child left over. *)
Lemma execute_command_clean e tokens p :
  unreaped p = [] -> fork_ok e 0 = true -> halts e 0 = true ->
  let r := fst (execute_command e tokens p) in
  let p' := snd (execute_command e tokens p) in
  (r = Normal tt \/ r = Exited 0%Z)
  /\ unreaped p' = []
  /\ (r = Normal tt -> fds p' = fds p)
  /\ (r = Exited 0%Z -> fds p' = []).
Proof.
  intros Hu Hf Hh r p'. unfold r, p'. clear r p'.
  destruct tokens as [|t ts].
  - rewrite execute_command_empty. cbn [fst snd].
    split; [now left|]. split; [exact Hu|]. split; [reflexivity|discriminate].
  - destruct (str_eqb t quit) eqn:Eq.
    + apply str_eqb_eq in Eq. subst t. rewrite execute_command_quit.
      cbn [fst snd set_fds log unreaped fds].
      split; [now right|]. split; [exact Hu|]. split; [discriminate|reflexivity].
    + assert (Hne : t <> quit).
      { intros ->. now rewrite str_eqb_refl in Eq. }
      rewrite execute_command_spawns by assumption.
      unfold call, bind. rewrite Hf, Hh, fork_ok_run.
      unfold waitpid. cbn [unreaped]. rewrite Hu. cbn [app find fst].
      rewrite Nat.eqb_refl, terminates_halting.
      cbn [fst snd set_unreaped log unreaped fds]. unfold remove_pid.
      cbn [filter fst]. rewrite Nat.eqb_refl. cbn [negb].
      split; [now left|]. split; [reflexivity|].
      split; [reflexivity|discriminate].
Qed.

(** One turn of the loop in a cooperative environment, begun without a
    child left over. *)
Lemma turn_clean line e p :
  unreaped p = [] -> cooperative e ->
  let r := fst (main_body (Some (line, e)) p) in
  let p' := snd (main_body (Some (line, e)) p) in
  ((exists s, r = Normal s) \/ r = Exited 0%Z)
  /\ unreaped p' = []
  /\ ((exists s, r = Normal s) ->
      forall fd, fd_get (fds p') fd = fd_get (fds p) fd)
  /\ (r = Exited 0%Z -> fds p' = []).
Proof.
  intros Hu [Hp [Hf Hh]] r p'. unfold r, p'. clear r p'.
  rewrite main_body_line.
  assert (Hret : forall s : signal,
    ((exists s', fst (ret s (log EvPrompt p)) = Normal s')
     \/ fst (ret s (log EvPrompt p)) = Exited 0%Z)
    /\ unreaped (snd (ret s (log EvPrompt p))) = []
    /\ ((exists s', fst (ret s (log EvPrompt p)) = Normal s') ->
        forall fd, fd_get (fds (snd (ret s (log EvPrompt p)))) fd
                   = fd_get (fds p) fd)
    /\ (fst (ret s (log EvPrompt p)) = Exited 0%Z ->
        fds (snd (ret s (log EvPrompt p))) = [])).
  { intros s. unfold ret. cbn [fst snd log unreaped fds].
    split; [left; eauto|]. split; [exact Hu|].
    split; [reflexivity|discriminate]. }
  destruct (Nat.eqb (length line) 0); [apply Hret|].
  destruct (str_eqb line quit); [apply Hret|].
  destruct (split line "|") as [|command [|c2 rest]]; [apply Hret| |].
  - unfold bind.
    destruct (@execute_command_clean e (split command " ") (log EvPrompt p)
                Hu (Hf 0) (Hh 0)) as [Hr [Hu2 [Hfd Hex]]].
    destruct (execute_command e (split command " ") (log EvPrompt p))
      as [[[]| |c|argv| |] q]; cbn [fst snd] in *;
      destruct Hr as [Hr|Hr]; try discriminate.
    + unfold ret. cbn [fst snd].
      split; [left; eauto|]. split; [exact Hu2|].
      split; [|discriminate]. intros _ fd. now rewrite Hfd.
    + inversion Hr; subst c.
      split; [right; reflexivity|]. split; [exact Hu2|].
      split; [intros [s Hs]; discriminate|]. intros _. now apply Hex.
  - unfold bind.
    assert (Hn : 1 <= length (command :: c2 :: rest)) by (simpl; lia).
    destruct (@execute_pipeline_waits e (command :: c2 :: rest)
                (log EvPrompt p) Hn Hu (fun j _ => Hp j) (fun j _ => Hf j) Hh)
      as [pipefds [p1 [pids [_ [_ Hrun]]]]].
    destruct (@execute_pipeline_complete e (command :: c2 :: rest)
                (log EvPrompt p) Hn (fun j _ => Hp j) (fun j _ => Hf j))
      as [pf [q1 [reaps [_ [_ [_ [_ [_ Hfd]]]]]]]].
    rewrite Hrun in *. unfold ret. cbn [fst snd] in *.
    split; [left; eauto|]. split; [reflexivity|].
    split; [|discriminate]. intros _ fd. now rewrite Hfd.
Qed.

(** X13.  A whole session in which no channel and no process is refused
    and every program ends, begun without children: [main] is over
    with status 0 (it never stays in a wait), no child is left unwaited
    for, and the interpreter either returns from [main] with every
    descriptor as it was at the start, or has called [exit] and holds
    none. *)
Theorem cooperative_session (input : list (str * env)) (p : proc) :
  let r := fst (main input p) in
  let p' := snd (main input p) in
  unreaped p = [] ->
  Forall (fun turn => cooperative (snd turn)) input ->
  (r = Normal 0%Z \/ r = Exited 0%Z)
  /\ unreaped p' = []
  /\ (r = Normal 0%Z -> forall fd, fd_get (fds p') fd = fd_get (fds p) fd)
  /\ (r = Exited 0%Z -> fds p' = []).
Proof.
  intros r p' Hu Hall. unfold r, p'. clear r p'. revert p Hu.
  induction Hall as [|[line e] rest He Hall IH]; intros p Hu.
  - cbn. split; [now left|]. split; [exact Hu|].
    split; [reflexivity|discriminate].
  - cbn [main]. unfold bind.
    destruct (@turn_clean line e p Hu He) as [Hr [Hu2 [Hfd Hex]]].
    destruct (main_body (Some (line, e)) p) as [[[]| |c|argv| |] q];
      cbn [fst snd] in *;
      try (destruct Hr as [[s Hr]|Hr]; discriminate).
    + destruct (IH q Hu2) as [Hr' [Hu' [Hfd' Hex']]].
      split; [exact Hr'|]. split; [exact Hu'|]. split; [|exact Hex'].
      intros Hn fd. rewrite (Hfd' Hn fd). apply Hfd. eauto.
    + unfold ret. cbn [fst snd]. split; [now left|]. split; [exact Hu2|].
      split; [|discriminate]. intros _ fd. apply Hfd. eauto.
    + destruct Hr as [[s Hr]|Hr]; [discriminate|]. inversion Hr; subst c.
      split; [now right|]. split; [exact Hu2|].
      split; [discriminate|]. intros _. now apply Hex.
Qed.

Lemma cooperative_session_witness :
  unreaped boot = []
  /\ Forall (fun turn => cooperative (snd turn))
       [(lit "ls -l | wc", fair); (lit "date", fair)]
  /\ fst (main [(lit "ls -l | wc", fair); (lit "date", fair)] boot)
     = Normal 0%Z
  /\ unreaped (snd (main [(lit "ls -l | wc", fair); (lit "date", fair)] boot))
     = [].
Proof.
  assert (Hc : cooperative fair) by (repeat split; reflexivity).
  assert (Hall : Forall (fun turn => cooperative (snd turn))
                   [(lit "ls -l | wc", fair); (lit "date", fair)])
    by (repeat constructor; exact Hc).
  split; [reflexivity|]. split; [exact Hall|].
  destruct (@cooperative_session
              [(lit "ls -l | wc", fair); (lit "date", fair)] boot
              eq_refl Hall) as [Hr [Hu _]].
  split; [|exact Hu].
  destruct Hr as [Hr|Hr]; [exact Hr|]. vm_compute in Hr. discriminate.
Defined.

(** X14.  A line without a pipe sign is never run as a pipeline:
    whatever the environment does, the turn makes no channel,
    duplicates and closes no descriptor, forks at most one child, and
    leaves the descriptors of the interpreter as they were unless it
    ends it with status 0. *)
Theorem line_without_pipe_sign (input : str) (e : env) (p : proc) :
  let r := fst (main_body (Some (input, e)) p) in
  let p' := snd (main_body (Some (input, e)) p) in
  ~ In "|"%char input ->
  (exists evs,
     trace p' = trace p ++ evs
     /\ Forall (fun ev => ~ is_pipe ev /\ ev <> EvPipeFailed
                          /\ ~ is_dup2 ev /\ ~ is_close ev) evs)
  /\ (fds p' = fds p \/ r = Exited 0%Z)
  /\ length (spawned p') <= S (length (spawned p))
  /\ next_chan p' = next_chan p.
Proof.
  intros r p' Hn. unfold r, p'. clear r p'. rewrite main_body_line.
  assert (Hprompt : ~ is_pipe EvPrompt /\ EvPrompt <> EvPipeFailed
                    /\ ~ is_dup2 EvPrompt /\ ~ is_close EvPrompt).
  { simpl. repeat split; auto; discriminate. }
  assert (Hret : forall s : signal,
    (exists evs,
       trace (snd (ret s (log EvPrompt p))) = trace p ++ evs
       /\ Forall (fun ev => ~ is_pipe ev /\ ev <> EvPipeFailed
                            /\ ~ is_dup2 ev /\ ~ is_close ev) evs)
    /\ (fds (snd (ret s (log EvPrompt p))) = fds p
        \/ fst (ret s (log EvPrompt p)) = Exited 0%Z)
    /\ length (spawned (snd (ret s (log EvPrompt p))))
       <= S (length (spawned p))
    /\ next_chan (snd (ret s (log EvPrompt p))) = next_chan p).
  { intros s. unfold ret. cbn [fst snd log trace fds spawned next_chan].
    split; [exists [EvPrompt]; split; [reflexivity|now constructor]|].
    split; [now left|]. split; [lia|reflexivity]. }
  destruct (Nat.eqb (length input) 0); [apply Hret|].
  destruct (str_eqb input quit); [apply Hret|].
  assert (Hs : split input "|"
               = if nonempty (trim input) then [trim input] else []).
  { rewrite split_tokenize_spec. unfold tokenize_spec.
    now rewrite pieces_single. }
  rewrite Hs. destruct (nonempty (trim input)); [|apply Hret].
  unfold bind.
  destruct (@execute_command_footprint e (split (trim input) " ")
              (log EvPrompt p)) as [[evs [Ht Hq]] [Hfd [Hsp Hch]]].
  destruct (execute_command e (split (trim input) " ") (log EvPrompt p))
    as [[[]| |c|argv| |] q]; unfold ret; cbn [fst snd] in *;
    cbn [log trace fds spawned next_chan] in *;
    (split; [exists (EvPrompt :: evs); split;
               [now rewrite Ht, <- app_assoc | now constructor]|]);
    (split; [|split; assumption]);
    (destruct Hfd as [Hfd|Hfd];
       [now left | discriminate || (right; inversion Hfd; reflexivity)]).
Qed.

Lemma line_without_pipe_sign_witness :
  ~ In "|"%char (lit "ls -l")
  /\ next_chan (snd (main_body (Some (lit "ls -l", fair)) boot))
     = next_chan boot.
Proof.
  assert (H : ~ In "|"%char (lit "ls -l")).
  { cbn. intros [H|[H|[H|[H|[H|[]]]]]]; discriminate. }
  split; [exact H|].
  destruct (@line_without_pipe_sign (lit "ls -l") fair boot H)
    as [_ [_ [_ Hc]]].
  exact Hc.
Defined.

(** ** The descriptors of a stage *)

(** X15.  Once the channels of a pipeline and the processes of its stages
    up to [i] were created, the program that replaces the child of stage
    [i] is started after the child closed every descriptor of [pipefds]:
    it holds none of them, so a channel is reachable in it through
    standard input and standard output only, and every other descriptor
    is as the interpreter had it. *)
Theorem stage_program_descriptors
    (e : env) (commands : list str) (p : proc) (i : nat) :
  let N := length commands in
  let p' := snd (execute_pipeline e commands p) in
  (forall j, j < N - 1 -> pipe_ok e j = true) ->
  (forall j, j <= i -> fork_ok e j = true) ->
  i < N ->
  exists c pipefds,
    nth_error (spawned p') (length (spawned p) + i) = Some c
    /\ length pipefds = 2 * (N - 1)
    /\ Forall (fun fd => fd_get (fds p) fd = None) pipefds
    /\ forall argv, c_end c = Replaced argv ->
         (exists tail,
            c_trace c = stdin_events pipefds i ++ stdout_events pipefds N i
                          ++ close_events pipefds ++ tail)
         /\ (forall fd, In fd pipefds -> fd_get (c_fds c) fd = None)
         /\ (forall fd, ~ In fd pipefds ->
               fd <> STDIN_FILENO -> fd <> STDOUT_FILENO ->
               fd_get (c_fds c) fd = fd_get (fds p) fd).
Proof.
  intros N p' Hp Hf Hi.
  destruct (@stage_child e commands p i Hp Hf Hi) as [pipefds [p1 [A Hc]]].
  fold N in A, Hc.
  set (c := run_child (next_pid p + i)
              (pipeline_child e commands pipefds N i) (fds p1)) in *.
  assert (S : stage_shape e pipefds N i (fds p1)
                (split (nth i commands []) " ") c).
  { apply stage_shape_holds; auto.
    - apply (al_length A).
    - apply (al_nodup A).
    - apply (allocated_opened A). }
  exists c, pipefds.
  split; [exact Hc|]. split; [apply (al_length A)|].
  split; [apply (al_fresh A)|].
  intros argv Hend.
  destruct S as [_ _ _ He | _ _ _ _ He | tail _ _ Htr _ Hrep _];
    [rewrite He in Hend; discriminate
    |rewrite He in Hend; discriminate|].
  destruct (Hrep argv Hend) as [_ Hfds].
  split; [exists tail; exact Htr|]. rewrite Hfds. split.
  - intros fd Hin. now apply fd_get_close_fds_in.
  - intros fd Hn H0 H1. rewrite fd_get_close_fds_other by assumption.
    rewrite <- (al_frame A fd Hn).
    unfold redirected, after_dup.
    destruct (0 <? i), (i <? N - 1);
      cbn [fds set_fds log child_start];
      rewrite ?fd_get_put_other by congruence; reflexivity.
Qed.

Lemma stage_program_descriptors_witness :
  1 < length [lit "ls"; lit "grep x"; lit "wc"]
  /\ exists c pipefds,
       nth_error (spawned (snd (execute_pipeline fair
                    [lit "ls"; lit "grep x"; lit "wc"] boot))) 1 = Some c
       /\ length pipefds = 2 * (3 - 1)
       /\ forall argv, c_end c = Replaced argv ->
            forall fd, In fd pipefds -> fd_get (c_fds c) fd = None.
Proof.
  assert (Hi : 1 < length [lit "ls"; lit "grep x"; lit "wc"])
    by (simpl; lia).
  split; [exact Hi|].
  destruct (@stage_program_descriptors fair
              [lit "ls"; lit "grep x"; lit "wc"] boot 1
              (fun _ _ => eq_refl) (fun _ _ => eq_refl) Hi)
    as [c [pipefds [Hc [Hl [_ H]]]]].
  exists c, pipefds. split; [exact Hc|]. split; [exact Hl|].
  intros argv Hend. now destruct (H argv Hend) as [_ [Hin _]].
Defined.

